(** * Vector cosf (SVE) and atan (AdvSIMD) kernels: bit-level model and properties

    The two kernels of [pl/math] are embedded lane by lane.  A lane is the
    bit pattern of an IEEE-754 number (a [Z] below [2^32] or [2^64]); the
    reinterpret casts of the C code are therefore the identity, integer
    operations are [Z.land], [Z.lxor], [Z.shiftr] with the wrap-around written
    out, and floating-point instructions decode their operands to
    [spec_float], apply the operation of [SpecFloat] (round to nearest, ties
    to even) and encode the result. *)

From Stdlib Require Import ZArith Bool List Lia Zdivisibility.
From Stdlib Require Import Floats.SpecFloat.
From Stdlib Require Import Reals Lra.
Import ListNotations.

Local Open Scope Z_scope.

(** ** IEEE-754 interchange formats *)

Module IEEE.

Record format := Format { ebits : Z; mbits : Z }.

Definition binary32 := Format 8 23.
Definition binary64 := Format 11 52.

Section Ops.
Variable fmt : format.

Definition prec := mbits fmt + 1.
Definition emax := 2 ^ (ebits fmt - 1).
Definition width := ebits fmt + mbits fmt + 1.

(** Fields of a bit pattern. *)
Definition sign_of (b : Z) : bool := Z.testbit b (ebits fmt + mbits fmt).
Definition expo_of (b : Z) : Z := Z.land (Z.shiftr b (mbits fmt)) (Z.ones (ebits fmt)).
Definition mant_of (b : Z) : Z := Z.land b (Z.ones (mbits fmt)).

Definition sign_bit : Z := Z.shiftl 1 (ebits fmt + mbits fmt).
Definition abs_mask : Z := Z.ones (ebits fmt + mbits fmt).

(** Sign, biased exponent and fraction put together; the exponent and
    fraction are kept within their [ebits + mbits] bits. *)
Definition join (s : bool) (e m : Z) : Z :=
  (if s then sign_bit else 0) + Z.land (Z.shiftl e (mbits fmt) + m) abs_mask.

Definition decode (b : Z) : spec_float :=
  let s := sign_of b in
  let e := expo_of b in
  let m := mant_of b in
  if e =? 0 then
    match m with
    | Zpos p => S754_finite s p (emin prec emax)
    | _ => S754_zero s
    end
  else if e =? Z.ones (ebits fmt) then
    if m =? 0 then S754_infinity s else S754_nan
  else
    match m + 2 ^ mbits fmt with
    | Zpos p => S754_finite s p (e - 1 + emin prec emax)
    | _ => S754_nan
    end.

(** A NaN result is the default NaN (positive, quiet, empty payload). *)
Definition default_nan : Z := join false (Z.ones (ebits fmt)) (2 ^ (mbits fmt - 1)).

Definition encode (f : spec_float) : Z :=
  match f with
  | S754_zero s => join s 0 0
  | S754_infinity s => join s (Z.ones (ebits fmt)) 0
  | S754_nan => default_nan
  | S754_finite s m e =>
      if Zpos m <? 2 ^ mbits fmt then join s 0 (Zpos m)
      else join s (e - emin prec emax + 1) (Zpos m - 2 ^ mbits fmt)
  end.

(** Fused multiply-add [x * y + z] with a single rounding.  [SpecFloat] has
    no such operation; the finite case aligns the exact product with the
    addend and rounds their sum, as [SFadd] does for two operands. *)
Definition SFfma (x y z : spec_float) : spec_float :=
  match x, y with
  | S754_nan, _ | _, S754_nan => S754_nan
  | S754_infinity _, S754_zero _ | S754_zero _, S754_infinity _ => S754_nan
  | S754_infinity sx, S754_infinity sy
  | S754_infinity sx, S754_finite sy _ _
  | S754_finite sx _ _, S754_infinity sy =>
      SFadd prec emax (S754_infinity (xorb sx sy)) z
  | S754_zero sx, S754_zero sy
  | S754_zero sx, S754_finite sy _ _
  | S754_finite sx _ _, S754_zero sy =>
      SFadd prec emax (S754_zero (xorb sx sy)) z
  | S754_finite sx mx ex, S754_finite sy my ey =>
      match z with
      | S754_nan => S754_nan
      | S754_infinity _ => z
      | S754_zero _ => SFmul prec emax x y
      | S754_finite sz mz ez =>
          let ep := ex + ey in
          let e := Z.min ep ez in
          binary_normalize prec emax
            (cond_Zopp (xorb sx sy) (Zpos (fst (shl_align (mx * my) ep e)))
             + cond_Zopp sz (Zpos (fst (shl_align mz ez e))))
            e false
      end
  end.

Definition fadd (a b : Z) : Z := encode (SFadd prec emax (decode a) (decode b)).
Definition fsub (a b : Z) : Z := encode (SFsub prec emax (decode a) (decode b)).
Definition fmul (a b : Z) : Z := encode (SFmul prec emax (decode a) (decode b)).
Definition fdiv (a b : Z) : Z := encode (SFdiv prec emax (decode a) (decode b)).
(** [ffma a b c] is [a * b + c]. *)
Definition ffma (a b c : Z) : Z := encode (SFfma (decode a) (decode b) (decode c)).

(** Sign-bit operations (FABS, FNEG): no rounding, NaN payload kept. *)
Definition fabs (a : Z) : Z := Z.land a abs_mask.
Definition fneg (a : Z) : Z := Z.lxor a sign_bit.

(** IEEE comparisons of two bit patterns; false when unordered. *)
Definition flt (a b : Z) : bool := SFltb (decode a) (decode b).
Definition fle (a b : Z) : bool := SFleb (decode a) (decode b).

(** A C hexadecimal floating constant [d * 2^e], [d] the digits read as
    one integer: [0x1.8p+1] is [of_hex 0x18 (1 - 4)]. *)
Definition of_hex (d e : Z) : Z := encode (binary_normalize prec emax d e false).

(** The value of a finite number counted in units of the least subnormal,
    [2^emin]; 0 for an infinity or a NaN. *)
Definition in_units (b : Z) : Z :=
  match decode b with
  | S754_finite s m e => cond_Zopp s (Z.pos m * 2 ^ (e - emin prec emax))
  | _ => 0
  end.

Definition is_nan (b : Z) : bool :=
  match decode b with S754_nan => true | _ => false end.
Definition is_finite (b : Z) : bool :=
  match decode b with S754_zero _ | S754_finite _ _ _ => true | _ => false end.
Definition wf (b : Z) : Prop := 0 <= b < 2 ^ width.

(** The real number a finite bit pattern stands for; 0 otherwise. *)
Definition real_value (b : Z) : R :=
  match decode b with
  | S754_finite s m e =>
      ((if s then - 1 else 1) * IZR (Z.pos m) * powerRZ 2 e)%R
  | _ => 0%R
  end.

(** How a bit pattern decodes, by the value of its exponent field. *)
Variant decode_view (b : Z) : spec_float -> Prop :=
  | view_zero :
    expo_of b = 0 -> mant_of b = 0 ->
    decode_view b (S754_zero (sign_of b))
  | view_subnormal p :
    expo_of b = 0 -> mant_of b = Zpos p ->
    decode_view b (S754_finite (sign_of b) p (emin prec emax))
  | view_normal p :
    0 < expo_of b < Z.ones (ebits fmt) ->
    Zpos p = mant_of b + 2 ^ mbits fmt ->
    decode_view b (S754_finite (sign_of b) p
                     (expo_of b - 1 + emin prec emax))
  | view_infinity :
    expo_of b = Z.ones (ebits fmt) -> mant_of b = 0 ->
    decode_view b (S754_infinity (sign_of b))
  | view_nan :
    expo_of b = Z.ones (ebits fmt) -> mant_of b <> 0 ->
    decode_view b S754_nan.

End Ops.

(** Formats with at least one exponent and one fraction bit. *)
Class Valid (fmt : format) : Prop :=
  { ebits_pos : 0 < ebits fmt; mbits_pos : 0 < mbits fmt }.

(** The result of rounding [m / 2^k] to nearest, ties to even, as
    [binary_round_aux] computes it from the round and sticky bits. *)
Definition rne_shift (m k : Z) : Z :=
  round_nearest_even (m / 2 ^ k)
    (loc_of_shr_record
       (Build_shr_record (m / 2 ^ k) (Z.testbit m (k - 1))
          (negb (m mod 2 ^ (k - 1) =? 0)))).

(** [k] is the integer nearest to the real [t], strictly. *)
Definition is_rint (t : R) (k : Z) : Prop := (Rabs (t - IZR k) < / 2)%R.

(** The sign a number carries; a NaN carries none. *)
Definition has_sign (f : spec_float) (s : bool) : Prop :=
  match f with
  | S754_nan => False
  | S754_zero s' | S754_infinity s' | S754_finite s' _ _ => s' = s
  end.

(** The value of a number in units of [2^emin]; 0 for an infinity or a NaN. *)
Definition SFunits (prec emax : Z) (f : spec_float) : Z :=
  match f with
  | S754_finite s m e => cond_Zopp s (Z.pos m * 2 ^ (e - emin prec emax))
  | _ => 0
  end.

(** A zero, or a finite number in the format's canonical form. *)
Definition SFcanonical (prec emax : Z) (f : spec_float) : bool :=
  match f with
  | S754_zero _ => true
  | S754_finite _ m e => SpecFloat.bounded prec emax m e
  | _ => false
  end.

End IEEE.


(** ** Single-precision SVE cosine: [sv_cosf_2u1.c] *)

Module Cosf.

Abbreviation f32 := IEEE.binary32 (only parsing).

(** An SVE register is a family of lanes indexed from 0; [VL] lanes exist. *)
Definition vec := nat -> Z.
Definition pred := nat -> bool.

Definition NegPio2_1_bits := IEEE.of_hex f32 (- 0x1921fb6) (0 - 24).
Definition NegPio2_2_bits := IEEE.of_hex f32 0x1777a5c (- 25 - 24).
Definition NegPio2_3_bits := IEEE.of_hex f32 0x1ee59da (- 50 - 24).
Definition RangeVal_bits := IEEE.of_hex f32 0x1 20.
Definition InvPio2_bits := IEEE.of_hex f32 0x145f306 (- 1 - 24).
Definition Shift_bits := IEEE.of_hex f32 0x1800002 (23 - 24).
Definition AbsMask := 0x7fffffff.

(** The sixteen single-precision entries of the architecture's FTMAD
    coefficient table: sine series at 0..7, cosine series at 8..15. *)
Definition FPTrigMAddCoefficient32 (i : Z) : Z :=
  nth (Z.to_nat i)
    [0x3f800000; 0xbe2aaaab; 0x3c088886; 0xb95008b9;
     0x36369d6d; 0x00000000; 0x00000000; 0x00000000;
     0x3f800000; 0xbf000000; 0x3d2aaaa6; 0xbab60705;
     0x37cd37cc; 0x00000000; 0x00000000; 0x00000000] 0.

Section Kernel.
(** Number of 32-bit lanes of the implementation. *)
Variable VL : nat.
(** Scalar reference [cosf], on bit patterns. *)
Variable cosf : Z -> Z.
(** Coefficient table read by FTMAD. *)
Variable coeff : Z -> Z.
(** What an [_x] form leaves in an inactive lane is unspecified; it is a
    parameter, given the lane's operands. *)
Variable unspecified : Z -> Z -> Z -> Z.

Definition sv_f32 (c : Z) : vec := fun _ => c.
Definition svreinterpret_u32_f32 (v : vec) : vec := v.
Definition svreinterpret_f32_u32 (v : vec) : vec := v.

Definition NegPio2_1 := sv_f32 NegPio2_1_bits.
Definition NegPio2_2 := sv_f32 NegPio2_2_bits.
Definition NegPio2_3 := sv_f32 NegPio2_3_bits.
Definition RangeVal := sv_f32 RangeVal_bits.
Definition InvPio2 := sv_f32 InvPio2_bits.
Definition Shift := sv_f32 Shift_bits.

Definition svand_n_u32_x (pg : pred) (a : vec) (k : Z) : vec :=
  fun i => if pg i then Z.land (a i) k else unspecified (a i) k 0.

(** Unsigned compare; an inactive lane of the result is false. *)
Definition svcmpge_u32 (pg : pred) (a b : vec) : pred :=
  fun i => pg i && (b i <=? a i).

(** FMLA: [a + b * c], fused. *)
Definition svmla_f32_x (pg : pred) (a b c : vec) : vec :=
  fun i => if pg i then IEEE.ffma f32 (b i) (c i) (a i)
           else unspecified (a i) (b i) (c i).

Definition svsub_f32_x (pg : pred) (a b : vec) : vec :=
  fun i => if pg i then IEEE.fsub f32 (a i) (b i) else unspecified (a i) (b i) 0.

Definition svmul_f32_x (pg : pred) (a b : vec) : vec :=
  fun i => if pg i then IEEE.fmul f32 (a i) (b i) else unspecified (a i) (b i) 0.

(** FTSSEL: bit 0 of the selector picks 1.0 over the operand, bit 1
    negates. *)
Definition FPTrigSSel (op1 op2 : Z) : Z :=
  if Z.testbit op2 0 then
    (if Z.testbit op2 1 then IEEE.fneg f32 0x3f800000 else 0x3f800000)
  else if Z.testbit op2 1 then IEEE.fneg f32 op1
  else op1.

(** FTSMUL: the square of the operand, its sign replaced by bit 0 of the
    selector unless the square is a NaN. *)
Definition FPTrigSMul (op1 op2 : Z) : Z :=
  let result := IEEE.fmul f32 op1 op1 in
  if IEEE.is_nan f32 result then result
  else (if Z.testbit op2 0 then IEEE.sign_bit f32 else 0)
       + IEEE.fabs f32 result.

(** FTMAD: [coeff + op1 * |op2|], the coefficient chosen by the immediate
    and by the sign of [op2]. *)
Definition FPTrigMAdd (x : Z) (op1 op2 : Z) : Z :=
  let x' := if IEEE.sign_of f32 op2 then x + 8 else x in
  IEEE.ffma f32 op1 (IEEE.fabs f32 op2) (coeff x').

Definition svtssel_f32 (a b : vec) : vec := fun i => FPTrigSSel (a i) (b i).
Definition svtsmul_f32 (a b : vec) : vec := fun i => FPTrigSMul (a i) (b i).
Definition svtmad_f32 (a b : vec) (imm : Z) : vec :=
  fun i => FPTrigMAdd imm (a i) (b i).

(** True when some active lane of [p] is set. *)
Definition svptest_any (pg p : pred) : bool :=
  existsb (fun i => pg i && p i) (seq 0 VL).

(** Modelled from the spec: [sv_call_f32] of [sv_math.h], which is not
    part of the sources at hand.  Partial merge: the scalar routine is
    computed for the flagged lanes only, and the result is selected per
    lane between the scalar value and [y] by the predicate. *)
Definition sv_call_f32 (f : Z -> Z) (x y : vec) (cmp : pred) : vec :=
  fun i => if cmp i then f (x i) else y i.

Definition __sv_cosf_specialcase (x y : vec) (cmp : pred) : vec :=
  sv_call_f32 cosf x y cmp.

(** The stages of [SV_NAME_F1 (cos)], in program order. *)
Section Stages.
Variable x : vec.
Variable pg : pred.

Definition abs_x : vec :=
  svreinterpret_f32_u32 (svand_n_u32_x pg (svreinterpret_u32_f32 x) AbsMask).
Definition cmp : pred :=
  svcmpge_u32 pg (svreinterpret_u32_f32 abs_x) (svreinterpret_u32_f32 RangeVal).
(* n = rint(|x|/(pi/2)) *)
Definition q : vec := svmla_f32_x pg Shift abs_x InvPio2.
Definition n : vec := svsub_f32_x pg q Shift.
(* r = |x| - n*(pi/2) *)
Definition r1 : vec := svmla_f32_x pg abs_x n NegPio2_1.
Definition r2 : vec := svmla_f32_x pg r1 n NegPio2_2.
Definition r : vec := svmla_f32_x pg r2 n NegPio2_3.
(* final multiplicative factor *)
Definition f : vec := svtssel_f32 r (svreinterpret_u32_f32 q).
(* cos(r) poly approx *)
Definition rsq : vec := svtsmul_f32 r (svreinterpret_u32_f32 q).
Definition poly : vec :=
  let y := sv_f32 (IEEE.of_hex f32 0 0) in
  let y := svtmad_f32 y rsq 4 in
  let y := svtmad_f32 y rsq 3 in
  let y := svtmad_f32 y rsq 2 in
  let y := svtmad_f32 y rsq 1 in
  svtmad_f32 y rsq 0.
(* apply factor *)
Definition fast : vec := svmul_f32_x pg f poly.

Definition cos : vec :=
  let y := fast in
  if svptest_any pg cmp then __sv_cosf_specialcase x y cmp
  else y.
End Stages.
End Kernel.

(** A vector with every lane negated. *)
Definition negated (x : vec) : vec := fun j => IEEE.fneg f32 (x j).

(** A four-lane sample: 1.0, 2^24, -pi/2 and a NaN in an inactive lane; the
    scalar routine is a stand-in that returns 1.0. *)
Definition sample_x : vec :=
  fun i => nth i [0x3f800000; 0x4b800000; 0xbfc90fdb; 0x7fc00000] 0.
Definition sample_pg : pred := fun i => nth i [true; true; true; false] false.
Definition sample_cosf : Z -> Z := fun _ => 0x3f800000.
Definition sample_unspecified : Z -> Z -> Z -> Z := fun a _ _ => a.

(** The five FTMAD steps of the kernel as one ladder in [s], over the
    coefficients [base + 4] down to [base] of the table. *)
Definition tmad_ladder (coeff : Z -> Z) (base s : Z) : Z :=
  let step y k := IEEE.ffma f32 y s (coeff (base + k)) in
  step (step (step (step (step (IEEE.of_hex f32 0 0) 4) 3) 2) 1) 0.

End Cosf.


(** ** Double-precision AdvSIMD arctangent: [v_atan_2u5.c] *)

Module Atan.

Abbreviation f64 := IEEE.binary64 (only parsing).

(** [float64x2_t] and [uint64x2_t]: two 64-bit lanes. *)
Record v2 := V2 { lane0 : Z; lane1 : Z }.

Definition vmap (g : Z -> Z) (a : v2) : v2 := V2 (g (lane0 a)) (g (lane1 a)).
Definition vmap2 (g : Z -> Z -> Z) (a b : v2) : v2 :=
  V2 (g (lane0 a) (lane0 b)) (g (lane1 a) (lane1 b)).
Definition vmap3 (g : Z -> Z -> Z -> Z) (a b c : v2) : v2 :=
  V2 (g (lane0 a) (lane0 b) (lane0 c)) (g (lane1 a) (lane1 b) (lane1 c)).

Definition u64 (a : Z) : Z := a mod 2 ^ 64.
(** A lane of a vector comparison: all ones when true. *)
Definition mask (b : bool) : Z := if b then Z.ones 64 else 0.

Definition v_f64 (c : Z) : v2 := V2 c c.
Definition v_u64 (c : Z) : v2 := V2 (u64 c) (u64 c).
Definition vreinterpretq_u64_f64 (a : v2) : v2 := a.
Definition vreinterpretq_f64_u64 (a : v2) : v2 := a.

Definition PiOver2_bits := IEEE.of_hex f64 0x1921fb54442d18 (0 - 52).
Definition one_bits := IEEE.of_hex f64 1 0.
Definition minus_one_bits := IEEE.of_hex f64 (- 1) 0.
Definition zero_bits := IEEE.of_hex f64 0 0.

Definition PiOver2 := v_f64 PiOver2_bits.
Definition AbsMask := v_u64 0x7fffffffffffffff.
Definition TinyBound := 0x3e1. (* top12(asuint64(0x1p-30)) *)
Definition BigBound := 0x434.  (* top12(asuint64(0x1p53)) *)

(** Integer vector operators of the C code, lane by lane on 64 bits. *)
Definition vnot (a : v2) : v2 := vmap (fun x => Z.lxor x (Z.ones 64)) a.
Definition vand (a b : v2) : v2 := vmap2 Z.land a b.
Definition vxor (a b : v2) : v2 := vmap2 Z.lxor a b.
Definition vshr_n (a : v2) (k : Z) : v2 := vmap (fun x => Z.shiftr x k) a.
Definition vand_n (a : v2) (k : Z) : v2 := vmap (fun x => Z.land x k) a.
Definition vsub_n (a : v2) (k : Z) : v2 := vmap (fun x => u64 (x - k)) a.
Definition vgt_n (a : v2) (k : Z) : v2 := vmap (fun x => mask (k <? x)) a.

(** FACGT: absolute compare greater than; false on a NaN. *)
Definition vcagtq_f64 (a b : v2) : v2 :=
  vmap2 (fun x y => mask (IEEE.flt f64 (IEEE.fabs f64 y) (IEEE.fabs f64 x))) a b.
(** BSL: bitwise select, the bits of [a] where the mask is set, of [b]
    elsewhere. *)
Definition bsl (m a b : Z) : Z :=
  Z.lor (Z.land m a) (Z.land (Z.lxor m (Z.ones 64)) b).
Definition vbslq_f64 (m a b : v2) : v2 := vmap3 bsl m a b.
Definition vdivq_f64 (a b : v2) : v2 := vmap2 (IEEE.fdiv f64) a b.
Definition vabsq_f64 (a : v2) : v2 := vmap (IEEE.fabs f64) a.
Definition vnegq_f64 (a : v2) : v2 := vmap (IEEE.fneg f64) a.

(** Modelled from the spec: [v_any_u64] of [v_math.h], which is not part of
    the sources at hand: the cheap "any lane flagged" test. *)
Definition v_any_u64 (a : v2) : bool :=
  negb (lane0 a =? 0) || negb (lane1 a =? 0).

(** Modelled from the spec: [v_call_f64] of [v_math.h], which is not part of
    the sources at hand: the scalar routine applied to the lanes the mask
    flags, the lanes of [y] kept elsewhere. *)
Definition v_call_f64 (f : Z -> Z) (x y p : v2) : v2 :=
  V2 (if lane0 p =? 0 then lane0 y else f (lane0 x))
     (if lane1 p =? 0 then lane1 y else f (lane1 x)).

(** Modelled from the spec: [eval_poly] of [atan_common.h], which is not
    part of the sources at hand.  The approximation is
    [shift + z + z^3 * P(z^2)]: a fused multiply-add ladder over the
    coefficient table [P] in [z^2], highest degree first, finished with the
    odd powers taken from [az] and the shift added last. *)
Definition eval_poly (P : list Z) (z az shift : Z) : Z :=
  let z2 := IEEE.fmul f64 z z in
  let p := fold_left (fun acc c => IEEE.ffma f64 acc z2 c) P zero_bits in
  let y := IEEE.ffma f64 p (IEEE.fmul f64 z2 az) az in
  IEEE.fadd f64 y shift.

Section Kernel.
(** Build configuration. *)
Variable WANT_SIMD_EXCEPT : bool.
(** Scalar reference [atan], on bit patterns. *)
Variable atan : Z -> Z.
(** The polynomial evaluator of [atan_common.h], per lane. *)
Variable eval_poly : Z -> Z -> Z -> Z.

Section Stages.
Variable x : v2.

Definition ix : v2 := vreinterpretq_u64_f64 x.
Definition sign : v2 := vand ix (vnot AbsMask).

Definition ia12 : v2 := vand_n (vshr_n ix 52) 0x7ff.
Definition special : v2 := vgt_n (vsub_n ia12 TinyBound) (BigBound - TinyBound).

(* Argument reduction *)
Definition red : v2 := vcagtq_f64 x (v_f64 one_bits).
Definition z : v2 := vbslq_f64 red (vdivq_f64 (v_f64 minus_one_bits) x) x.
Definition shift : v2 := vbslq_f64 red PiOver2 (v_f64 zero_bits).
Definition az : v2 := vbslq_f64 red (vnegq_f64 (vabsq_f64 z)) (vabsq_f64 z).

(** The straight-line part after the configuration block. *)
Definition fast : v2 :=
  let y := vmap3 eval_poly z az shift in
  vreinterpretq_f64_u64 (vxor (vreinterpretq_u64_f64 y) sign).

Definition v_atan : v2 :=
  if WANT_SIMD_EXCEPT && v_any_u64 special
  then v_call_f64 atan x (v_f64 zero_bits) (v_u64 (- 1))
  else fast.
End Stages.
End Kernel.

Definition pos_inf_bits := 0x7ff0000000000000.
Definition neg_inf_bits := 0xfff0000000000000.
Definition neg_zero_bits := 0x8000000000000000.

(** A lane is 64 bits wide. *)
Definition lanes_wf (x : v2) : Prop :=
  IEEE.wf f64 (lane0 x) /\ IEEE.wf f64 (lane1 x).

(** The fast path on one lane. *)
Definition gt1 (v : Z) : bool := IEEE.flt f64 one_bits (IEEE.fabs f64 v).
Definition z_lane (v : Z) : Z :=
  if gt1 v then IEEE.fdiv f64 minus_one_bits v else v.
Definition az_lane (v : Z) : Z :=
  if gt1 v then IEEE.fneg f64 (IEEE.fabs f64 (z_lane v))
  else IEEE.fabs f64 (z_lane v).
Definition shift_lane (v : Z) : Z := if gt1 v then PiOver2_bits else zero_bits.
Definition fast_lane (ep : Z -> Z -> Z -> Z) (v : Z) : Z :=
  Z.lxor (ep (z_lane v) (az_lane v) (shift_lane v))
         (Z.land v (IEEE.sign_bit f64)).

Definition finite_table (P : list Z) : Prop :=
  Forall (fun c => IEEE.is_finite f64 c = true) P.

(** A short stand-in table, [-1/3; 1/5] as doubles, for the examples. *)
Definition sample_table : list Z := [0xbfd5555555555555; 0x3fc999999999999a].

End Atan.


(** * Properties *)

(** ** Bit fields, sign operations and order of the encodings *)

Module IEEE_facts.
Import IEEE.

#[export] Instance binary32_valid : Valid binary32.
Proof. split; reflexivity. Qed.

#[export] Instance binary64_valid : Valid binary64.
Proof. split; reflexivity. Qed.

Section Fields.
Variable fmt : format.
Context {V : Valid fmt}.
Let He : 0 < ebits fmt := ebits_pos.
Let Hm : 0 < mbits fmt := mbits_pos.

Lemma expo_of_range b : 0 <= expo_of fmt b < 2 ^ ebits fmt.
Proof.
  unfold expo_of. rewrite Z.land_ones by lia.
  apply Z.mod_pos_bound. apply Z.pow_pos_nonneg; lia.
Qed.

Lemma mant_of_range b : 0 <= mant_of fmt b < 2 ^ mbits fmt.
Proof.
  unfold mant_of. rewrite Z.land_ones by lia.
  apply Z.mod_pos_bound. apply Z.pow_pos_nonneg; lia.
Qed.

Lemma testbit_sign_bit i :
  Z.testbit (sign_bit fmt) i = (i =? ebits fmt + mbits fmt).
Proof.
  unfold sign_bit. rewrite Z.shiftl_1_l.
  destruct (Z.eqb_spec i (ebits fmt + mbits fmt)) as [->|Hne].
  - apply Z.pow2_bits_true; lia.
  - apply Z.pow2_bits_false; lia.
Qed.

Lemma sign_of_fneg b : sign_of fmt (fneg fmt b) = negb (sign_of fmt b).
Proof.
  unfold sign_of, fneg. rewrite Z.lxor_spec, testbit_sign_bit, Z.eqb_refl.
  apply xorb_true_r.
Qed.

Lemma expo_of_fneg b : expo_of fmt (fneg fmt b) = expo_of fmt b.
Proof.
  unfold expo_of, fneg. apply Z.bits_inj'; intros i Hi.
  rewrite !Z.land_spec, !Z.shiftr_spec, Z.lxor_spec, testbit_sign_bit by lia.
  destruct (Z.ltb_spec i (ebits fmt)).
  - replace (i + mbits fmt =? ebits fmt + mbits fmt) with false
      by (symmetry; apply Z.eqb_neq; lia).
    now rewrite xorb_false_r.
  - rewrite Z.ones_spec_high by lia. now rewrite !andb_false_r.
Qed.

Lemma mant_of_fneg b : mant_of fmt (fneg fmt b) = mant_of fmt b.
Proof.
  unfold mant_of, fneg. apply Z.bits_inj'; intros i Hi.
  rewrite !Z.land_spec, Z.lxor_spec, testbit_sign_bit.
  destruct (Z.ltb_spec i (mbits fmt)).
  - replace (i =? ebits fmt + mbits fmt) with false
      by (symmetry; apply Z.eqb_neq; lia).
    now rewrite xorb_false_r.
  - rewrite Z.ones_spec_high by lia. now rewrite !andb_false_r.
Qed.

Lemma sign_of_fabs b : sign_of fmt (fabs fmt b) = false.
Proof.
  unfold sign_of, fabs, abs_mask. rewrite Z.land_spec, Z.ones_spec_high by lia.
  apply andb_false_r.
Qed.

Lemma expo_of_fabs b : expo_of fmt (fabs fmt b) = expo_of fmt b.
Proof.
  unfold expo_of, fabs, abs_mask. apply Z.bits_inj'; intros i Hi.
  rewrite !Z.land_spec, !Z.shiftr_spec, Z.land_spec by lia.
  destruct (Z.ltb_spec i (ebits fmt)).
  - rewrite (Z.ones_spec_low (ebits fmt + mbits fmt)) by lia.
    now rewrite andb_true_r.
  - rewrite (Z.ones_spec_high (ebits fmt)) by lia. now rewrite !andb_false_r.
Qed.

Lemma mant_of_fabs b : mant_of fmt (fabs fmt b) = mant_of fmt b.
Proof.
  unfold mant_of, fabs, abs_mask. apply Z.bits_inj'; intros i Hi.
  rewrite !Z.land_spec.
  destruct (Z.ltb_spec i (mbits fmt)).
  - rewrite (Z.ones_spec_low (ebits fmt + mbits fmt)) by lia.
    now rewrite andb_true_r.
  - rewrite (Z.ones_spec_high (mbits fmt)) by lia. now rewrite !andb_false_r.
Qed.

(** FNEG and FABS act on the decoded number as [SFopp] and [SFabs]. *)
Lemma decode_fneg b : decode fmt (fneg fmt b) = SFopp (decode fmt b).
Proof.
  unfold decode. rewrite sign_of_fneg, expo_of_fneg, mant_of_fneg.
  destruct (expo_of fmt b =? 0).
  - now destruct (mant_of fmt b).
  - destruct (expo_of fmt b =? Z.ones (ebits fmt)).
    + now destruct (mant_of fmt b =? 0).
    + now destruct (mant_of fmt b + 2 ^ mbits fmt).
Qed.

Lemma decode_fabs b : decode fmt (fabs fmt b) = SFabs (decode fmt b).
Proof.
  unfold decode. rewrite sign_of_fabs, expo_of_fabs, mant_of_fabs.
  destruct (expo_of fmt b =? 0).
  - now destruct (mant_of fmt b).
  - destruct (expo_of fmt b =? Z.ones (ebits fmt)).
    + now destruct (mant_of fmt b =? 0).
    + now destruct (mant_of fmt b + 2 ^ mbits fmt).
Qed.

Lemma abs_mask_eq : abs_mask fmt = 2 ^ (ebits fmt + mbits fmt) - 1.
Proof. unfold abs_mask. rewrite Z.ones_equiv. lia. Qed.

Lemma sign_bit_eq : sign_bit fmt = 2 ^ (ebits fmt + mbits fmt).
Proof. unfold sign_bit. apply Z.shiftl_1_l. Qed.

Lemma fabs_range b : 0 <= fabs fmt b < 2 ^ (ebits fmt + mbits fmt).
Proof.
  unfold fabs, abs_mask. rewrite Z.land_ones by lia.
  apply Z.mod_pos_bound. apply Z.pow_pos_nonneg; lia.
Qed.

Lemma fabs_small b : 0 <= b < 2 ^ (ebits fmt + mbits fmt) -> fabs fmt b = b.
Proof.
  intros Hb. unfold fabs, abs_mask. rewrite Z.land_ones by lia.
  now apply Z.mod_small.
Qed.

Lemma testbit_top v k : 0 <= v < 2 ^ k -> 0 <= k -> Z.testbit v k = false.
Proof.
  intros Hv Hk. destruct (Z.eq_dec v 0) as [->|Hne]; [apply Z.bits_0|].
  apply Z.bits_above_log2; [lia|]. apply Z.log2_lt_pow2; lia.
Qed.

(** Flipping the sign bit of a magnitude below [2^(ebits+mbits)]. *)
Lemma lxor_sign_bit_low v :
  0 <= v < 2 ^ (ebits fmt + mbits fmt) ->
  Z.lxor v (sign_bit fmt) = sign_bit fmt + v.
Proof.
  intros Hv. rewrite Z.add_comm. symmetry. apply Z.add_nocarry_lxor.
  apply Z.bits_inj'; intros i Hi.
  rewrite Z.land_spec, testbit_sign_bit, Z.bits_0.
  destruct (Z.eqb_spec i (ebits fmt + mbits fmt)) as [->|Hne].
  - now rewrite (testbit_top v) by lia.
  - apply andb_false_r.
Qed.

Lemma lxor_sign_bit_high v :
  0 <= v < 2 ^ (ebits fmt + mbits fmt) ->
  Z.lxor (sign_bit fmt + v) (sign_bit fmt) = v.
Proof.
  intros Hv. rewrite <- (lxor_sign_bit_low v Hv).
  rewrite Z.lxor_assoc, Z.lxor_nilpotent. apply Z.lxor_0_r.
Qed.

Lemma join_low e m :
  0 <= Z.land (Z.shiftl e (mbits fmt) + m) (abs_mask fmt)
    < 2 ^ (ebits fmt + mbits fmt).
Proof. apply fabs_range. Qed.

Lemma join_range s e m : 0 <= join fmt s e m < 2 ^ width fmt.
Proof.
  unfold join, width. pose proof (join_low e m) as H.
  rewrite sign_bit_eq, (Z.pow_add_r 2 (ebits fmt + mbits fmt) 1) by lia.
  change (2 ^ 1) with 2. destruct s; lia.
Qed.

Lemma fneg_join s e m : fneg fmt (join fmt s e m) = join fmt (negb s) e m.
Proof.
  unfold fneg, join. pose proof (join_low e m) as H.
  destruct s; simpl.
  - now apply lxor_sign_bit_high.
  - now apply lxor_sign_bit_low.
Qed.

Lemma encode_range f : wf fmt (encode fmt f).
Proof.
  unfold wf. destruct f; simpl; unfold default_nan;
    try destruct (Z.pos m <? 2 ^ mbits fmt); apply join_range.
Qed.

(** Negation of a number flips the sign bit of its encoding. *)
Lemma encode_opp f :
  f <> S754_nan -> encode fmt (SFopp f) = fneg fmt (encode fmt f).
Proof.
  destruct f; simpl; intros Hn; try congruence;
    try destruct (Z.pos m <? 2 ^ mbits fmt); now rewrite fneg_join.
Qed.

(** *** The order of magnitudes is the order of their encodings *)

Lemma lex_compare P ea ma eb mb :
  0 <= ma < P -> 0 <= mb < P ->
  (ea * P + ma ?= eb * P + mb) =
    match ea ?= eb with Eq => ma ?= mb | c => c end.
Proof.
  intros Ha Hb.
  destruct (Z.compare_spec ea eb) as [->|Hlt|Hgt].
  - destruct (Z.compare_spec ma mb);
      [apply Z.compare_eq_iff|apply Z.compare_lt_iff|apply Z.compare_gt_iff];
      lia.
  - apply Z.compare_lt_iff. nia.
  - apply Z.compare_gt_iff. nia.
Qed.

(** The fields of a magnitude, as quotient and remainder. *)
Lemma fields_of_magnitude a :
  0 <= a < 2 ^ (ebits fmt + mbits fmt) ->
  sign_of fmt a = false /\
  a = expo_of fmt a * 2 ^ mbits fmt + mant_of fmt a.
Proof.
  intros Ha. split.
  - unfold sign_of. apply testbit_top; lia.
  - unfold expo_of, mant_of. rewrite !Z.land_ones, Z.shiftr_div_pow2 by lia.
    assert (0 < 2 ^ mbits fmt) by (apply Z.pow_pos_nonneg; lia).
    rewrite (Z.mod_small (a / 2 ^ mbits fmt)).
    + rewrite Z.mul_comm. apply Z.div_mod. lia.
    + split; [apply Z.div_pos; lia|].
      apply Z.div_lt_upper_bound; [lia|].
      rewrite <- Z.pow_add_r by lia. now rewrite Z.add_comm.
Qed.

Lemma decode_spec b : decode_view fmt b (decode fmt b).
Proof.
  unfold decode.
  pose proof (expo_of_range b) as He'. pose proof (mant_of_range b) as Hm'.
  assert (0 < 2 ^ mbits fmt) by (apply Z.pow_pos_nonneg; lia).
  destruct (Z.eqb_spec (expo_of fmt b) 0) as [E0|E0].
  - destruct (mant_of fmt b) eqn:M; try lia.
    + now apply view_zero.
    + now apply view_subnormal.
  - destruct (Z.eqb_spec (expo_of fmt b) (Z.ones (ebits fmt))) as [E1|E1].
    + destruct (Z.eqb_spec (mant_of fmt b) 0) as [M|M].
      * now apply view_infinity.
      * now apply view_nan.
    + destruct (mant_of fmt b + 2 ^ mbits fmt) eqn:M; try lia.
      apply view_normal; [|lia].
      rewrite Z.ones_equiv in *. lia.
Qed.

Theorem compare_magnitudes a b :
  0 <= a < 2 ^ (ebits fmt + mbits fmt) ->
  0 <= b < 2 ^ (ebits fmt + mbits fmt) ->
  is_nan fmt a = false -> is_nan fmt b = false ->
  SFcompare (decode fmt a) (decode fmt b) = Some (a ?= b).
Proof.
  intros Ha Hb Na Nb.
  destruct (fields_of_magnitude a Ha) as [Sa Ea].
  destruct (fields_of_magnitude b Hb) as [Sb Eb].
  pose proof (mant_of_range a) as Ma. pose proof (mant_of_range b) as Mb.
  rewrite Ea at 2. rewrite Eb at 2. rewrite lex_compare by assumption.
  unfold is_nan in Na, Nb.
  assert (0 < Z.ones (ebits fmt)).
  { rewrite Z.ones_equiv.
    pose proof (Z.pow_gt_1 2 (ebits fmt)). lia. }
  destruct (decode_spec a) as [A1 A2|pa A1 A2|pa A1 A2|A1 A2|A1 A2];
    destruct (decode_spec b) as [B1 B2|pb B1 B2|pb B1 B2|B1 B2|B1 B2];
    try discriminate; rewrite Sa, Sb; simpl;
    rewrite ?A1, ?B1, ?A2, ?B2; try reflexivity;
    try change (Pos.compare_cont Eq pa pb) with (Z.pos pa ?= Z.pos pb);
    repeat match goal with
      | |- context [?u ?= ?v] => destruct (Z.compare_spec u v); try lia
      end; reflexivity.
Qed.

Corollary flt_magnitudes a b :
  0 <= a < 2 ^ (ebits fmt + mbits fmt) ->
  0 <= b < 2 ^ (ebits fmt + mbits fmt) ->
  is_nan fmt a = false -> is_nan fmt b = false ->
  flt fmt a b = (a <? b).
Proof.
  intros. unfold flt, SFltb. rewrite compare_magnitudes by assumption.
  unfold Z.ltb. now destruct (a ?= b).
Qed.

Corollary fle_magnitudes a b :
  0 <= a < 2 ^ (ebits fmt + mbits fmt) ->
  0 <= b < 2 ^ (ebits fmt + mbits fmt) ->
  is_nan fmt a = false -> is_nan fmt b = false ->
  fle fmt a b = (a <=? b).
Proof.
  intros. unfold fle, SFleb. rewrite compare_magnitudes by assumption.
  unfold Z.leb. now destruct (a ?= b).
Qed.

(** An ordered comparison that holds has no NaN operand. *)
Lemma flt_true_not_nan a b :
  flt fmt a b = true -> is_nan fmt a = false /\ is_nan fmt b = false.
Proof.
  unfold flt, SFltb, is_nan.
  destruct (decode fmt a), (decode fmt b); simpl; try discriminate; auto.
Qed.

Lemma fle_true_not_nan a b :
  fle fmt a b = true -> is_nan fmt a = false /\ is_nan fmt b = false.
Proof.
  unfold fle, SFleb, is_nan.
  destruct (decode fmt a), (decode fmt b); simpl; try discriminate; auto.
Qed.

Lemma is_nan_fabs b : is_nan fmt (fabs fmt b) = is_nan fmt b.
Proof. unfold is_nan. rewrite decode_fabs. now destruct (decode fmt b). Qed.

Lemma is_nan_fneg b : is_nan fmt (fneg fmt b) = is_nan fmt b.
Proof. unfold is_nan. rewrite decode_fneg. now destruct (decode fmt b). Qed.

Lemma fabs_fneg b : fabs fmt (fneg fmt b) = fabs fmt b.
Proof.
  unfold fabs, fneg, abs_mask. apply Z.bits_inj'; intros i Hi.
  rewrite !Z.land_spec, Z.lxor_spec, testbit_sign_bit.
  destruct (Z.ltb_spec i (ebits fmt + mbits fmt)).
  - replace (i =? ebits fmt + mbits fmt) with false
      by (symmetry; apply Z.eqb_neq; lia).
    now rewrite xorb_false_r.
  - rewrite Z.ones_spec_high by lia. now rewrite !andb_false_r.
Qed.

(** *** Decoding what was encoded *)

Lemma fields_of_join s e m :
  0 <= e < 2 ^ ebits fmt -> 0 <= m < 2 ^ mbits fmt ->
  sign_of fmt (join fmt s e m) = s /\
  expo_of fmt (join fmt s e m) = e /\
  mant_of fmt (join fmt s e m) = m.
Proof.
  intros Hev Hmv.
  assert (P : 0 < 2 ^ mbits fmt) by (apply Z.pow_pos_nonneg; lia).
  assert (L : 0 <= e * 2 ^ mbits fmt + m < 2 ^ (ebits fmt + mbits fmt)).
  { rewrite Z.pow_add_r by lia. nia. }
  assert (J : join fmt s e m
              = (if s then sign_bit fmt else 0) + (e * 2 ^ mbits fmt + m)).
  { unfold join. f_equal. rewrite Z.shiftl_mul_pow2 by lia.
    now apply fabs_small. }
  assert (A : fabs fmt (join fmt s e m) = e * 2 ^ mbits fmt + m).
  { rewrite J. destruct s.
    - rewrite <- (lxor_sign_bit_low _ L). change (Z.lxor ?v (sign_bit fmt)) with (fneg fmt v).
      rewrite fabs_fneg. now apply fabs_small.
    - now apply fabs_small. }
  split; [|split].
  - rewrite J. unfold sign_of. destruct s.
    + rewrite <- (lxor_sign_bit_low _ L), Z.lxor_spec, testbit_sign_bit, Z.eqb_refl.
      rewrite testbit_top by lia. reflexivity.
    + apply testbit_top; lia.
  - rewrite <- expo_of_fabs, A.
    unfold expo_of. rewrite Z.land_ones, Z.shiftr_div_pow2 by lia.
    rewrite Z.div_add_l by lia. rewrite (Z.div_small m) by lia.
    rewrite Z.add_0_r. now apply Z.mod_small.
  - rewrite <- mant_of_fabs, A.
    unfold mant_of. rewrite Z.land_ones by lia.
    rewrite Z.add_comm, Z.mod_add by lia. now apply Z.mod_small.
Qed.

Lemma decode_join_zero s : decode fmt (join fmt s 0 0) = S754_zero s.
Proof.
  assert (P : 0 < 2 ^ mbits fmt) by (apply Z.pow_pos_nonneg; lia).
  assert (Q : 0 < 2 ^ ebits fmt) by (apply Z.pow_pos_nonneg; lia).
  destruct (fields_of_join s 0 0) as (S & E & M); try lia.
  unfold decode. now rewrite S, E, M.
Qed.

(** Encoding is a right inverse of decoding. *)
Lemma decode_encode_decode b :
  decode fmt (encode fmt (decode fmt b)) = decode fmt b.
Proof.
  assert (P : 0 < 2 ^ mbits fmt) by (apply Z.pow_pos_nonneg; lia).
  assert (Q : 1 < 2 ^ ebits fmt) by (apply Z.pow_gt_1; lia).
  assert (O : Z.ones (ebits fmt) = 2 ^ ebits fmt - 1)
    by (rewrite Z.ones_equiv; lia).
  pose proof (mant_of_range b) as Mb.
  destruct (decode_spec b) as [A1 A2|p A1 A2|p A1 A2|A1 A2|A1 A2];
    cbn [encode].
  - apply decode_join_zero.
  - replace (Z.pos p <? 2 ^ mbits fmt) with true by (symmetry; apply Z.ltb_lt; lia).
    destruct (fields_of_join (sign_of fmt b) 0 (Z.pos p)) as (S & E & M); try lia.
    unfold decode. now rewrite S, E, M.
  - replace (Z.pos p <? 2 ^ mbits fmt) with false by (symmetry; apply Z.ltb_ge; lia).
    replace (expo_of fmt b - 1 + emin (prec fmt) (emax fmt)
             - emin (prec fmt) (emax fmt) + 1) with (expo_of fmt b) by lia.
    destruct (fields_of_join (sign_of fmt b) (expo_of fmt b)
                (Z.pos p - 2 ^ mbits fmt)) as (S & E & M); try lia.
    unfold decode. rewrite S, E, M.
    replace (expo_of fmt b =? 0) with false by (symmetry; apply Z.eqb_neq; lia).
    replace (expo_of fmt b =? Z.ones (ebits fmt)) with false
      by (symmetry; apply Z.eqb_neq; lia).
    replace (Z.pos p - 2 ^ mbits fmt + 2 ^ mbits fmt) with (Z.pos p) by lia.
    reflexivity.
  - destruct (fields_of_join (sign_of fmt b) (Z.ones (ebits fmt)) 0)
      as (S & E & M); try lia.
    unfold decode. rewrite S, E, M, Z.eqb_refl.
    replace (Z.ones (ebits fmt) =? 0) with false by (symmetry; apply Z.eqb_neq; lia).
    reflexivity.
  - unfold default_nan.
    assert (R : 0 < 2 ^ (mbits fmt - 1) < 2 ^ mbits fmt).
    { split; [apply Z.pow_pos_nonneg; lia | apply Z.pow_lt_mono_r; lia]. }
    destruct (fields_of_join false (Z.ones (ebits fmt)) (2 ^ (mbits fmt - 1)))
      as (S & E & M); try lia.
    unfold decode. rewrite S, E, M, Z.eqb_refl.
    replace (Z.ones (ebits fmt) =? 0) with false by (symmetry; apply Z.eqb_neq; lia).
    replace (2 ^ (mbits fmt - 1) =? 0) with false by (symmetry; apply Z.eqb_neq; lia).
    reflexivity.
Qed.

(** *** Sign symmetry of the arithmetic *)

Lemma binary_round_aux_opp s m e l :
  binary_round_aux (prec fmt) (emax fmt) (negb s) m e l
  = SFopp (binary_round_aux (prec fmt) (emax fmt) s m e l).
Proof.
  unfold binary_round_aux.
  destruct (shr_fexp (prec fmt) (emax fmt) m e l) as [mrs' e'].
  destruct (shr_fexp (prec fmt) (emax fmt)
              (round_nearest_even (shr_m mrs') (loc_of_shr_record mrs'))
              e' loc_Exact) as [mrs'' e''].
  destruct (shr_m mrs''); try reflexivity.
  now destruct (e'' <=? emax fmt - prec fmt).
Qed.

Lemma xorb_negb_r a b : xorb a (negb b) = negb (xorb a b).
Proof. now destruct a, b. Qed.

Lemma SFdiv_opp_r a b :
  SFdiv (prec fmt) (emax fmt) a (SFopp b)
  = SFopp (SFdiv (prec fmt) (emax fmt) a b).
Proof.
  destruct a as [sa|sa| |sa ma ea], b as [sb|sb| |sb mb eb];
    cbn [SFdiv SFopp]; rewrite ?xorb_negb_r; try reflexivity.
  destruct (SFdiv_core_binary (prec fmt) (emax fmt) (Z.pos ma) ea (Z.pos mb) eb)
    as [[mz ez] lz].
  apply binary_round_aux_opp.
Qed.

Lemma SFmul_opp_opp a :
  SFmul (prec fmt) (emax fmt) (SFopp a) (SFopp a)
  = SFmul (prec fmt) (emax fmt) a a.
Proof.
  destruct a as [[]|[]| |[] ma ea]; reflexivity.
Qed.

Lemma fmul_fneg_fneg z : fmul fmt (fneg fmt z) (fneg fmt z) = fmul fmt z z.
Proof. unfold fmul. now rewrite decode_fneg, SFmul_opp_opp. Qed.

(** Dividing by the negated number negates the quotient, unless the
    quotient is a NaN, which has one encoding. *)
Lemma fdiv_fneg_r c x :
  fdiv fmt c (fneg fmt x) = fneg fmt (fdiv fmt c x)
  \/ fdiv fmt c (fneg fmt x) = fdiv fmt c x.
Proof.
  unfold fdiv. rewrite decode_fneg, SFdiv_opp_r.
  destruct (SFdiv (prec fmt) (emax fmt) (decode fmt c) (decode fmt x)) eqn:D;
    try (left; apply encode_opp; discriminate).
  right. reflexivity.
Qed.

Lemma fneg_range v : wf fmt v -> wf fmt (fneg fmt v).
Proof.
  unfold wf, width, fneg. intros Hv.
  assert (P : 0 < 2 ^ (ebits fmt + mbits fmt)) by (apply Z.pow_pos_nonneg; lia).
  rewrite (Z.pow_add_r 2 (ebits fmt + mbits fmt) 1) in * by lia.
  change (2 ^ 1) with 2 in *.
  destruct (Z.ltb_spec v (2 ^ (ebits fmt + mbits fmt))).
  - rewrite lxor_sign_bit_low, sign_bit_eq by lia. lia.
  - replace v with (sign_bit fmt + (v - 2 ^ (ebits fmt + mbits fmt)))
      by (rewrite sign_bit_eq; lia).
    rewrite lxor_sign_bit_high by lia. lia.
Qed.

Lemma fabs_wf v : wf fmt (fabs fmt v).
Proof.
  unfold wf, width. pose proof (fabs_range v) as R.
  rewrite (Z.pow_add_r 2 (ebits fmt + mbits fmt) 1) by lia.
  change (2 ^ 1) with 2. lia.
Qed.

(** The sign bit of a negated pattern. *)
Lemma land_sign_fneg v :
  Z.land (fneg fmt v) (sign_bit fmt) = fneg fmt (Z.land v (sign_bit fmt)).
Proof.
  unfold fneg. apply Z.bits_inj'; intros i Hi.
  rewrite !Z.lxor_spec, !Z.land_spec, Z.lxor_spec, testbit_sign_bit.
  destruct (i =? ebits fmt + mbits fmt), (Z.testbit v i); reflexivity.
Qed.

(** *** A multiply-add by zero *)

Lemma is_finite_join_zero s : is_finite fmt (join fmt s 0 0) = true.
Proof. unfold is_finite. now rewrite decode_join_zero. Qed.

Lemma ffma_by_zero_finite a c :
  is_finite fmt a = true -> is_finite fmt c = true ->
  is_finite fmt (ffma fmt a (join fmt false 0 0) c) = true.
Proof.
  unfold ffma. rewrite decode_join_zero. unfold is_finite at 1 2.
  destruct (decode fmt a) as [sa|sa| |sa ma ea] eqn:A; try discriminate;
    destruct (decode fmt c) as [sc|sc| |sc mc ec] eqn:C; try discriminate;
    intros _ _; cbn [SFfma SFadd xorb].
  - destruct (xorb sa false), sc; apply is_finite_join_zero.
  - unfold is_finite. rewrite <- C, decode_encode_decode. now rewrite C.
  - destruct (xorb sa false), sc; apply is_finite_join_zero.
  - unfold is_finite. rewrite <- C, decode_encode_decode. now rewrite C.
Qed.

(** A multiply-add of a finite number by zero, added to zero, is a zero. *)
Lemma ffma_zero_zero p s t :
  is_finite fmt p = true ->
  exists s', ffma fmt p (join fmt s 0 0) (join fmt t 0 0) = join fmt s' 0 0.
Proof.
  unfold ffma, is_finite. rewrite !decode_join_zero.
  destruct (decode fmt p) as [sp|sp| |sp mp ep]; try discriminate; intros _;
    cbn [SFfma SFadd];
    destruct (xorb sp s), t; cbn [encode]; eauto.
Qed.

Lemma fmul_zero_zero s t :
  fmul fmt (join fmt s 0 0) (join fmt t 0 0) = join fmt (xorb s t) 0 0.
Proof. unfold fmul. now rewrite !decode_join_zero. Qed.

End Fields.

End IEEE_facts.

(** ** Rounding to nearest, ties to even *)

Module Rounding_facts.
Import IEEE.

(** Number of binary digits. *)
Lemma digits2_pos_bounds p :
  2 ^ (Z.pos (digits2_pos p) - 1) <= Z.pos p < 2 ^ Z.pos (digits2_pos p).
Proof.
  induction p as [p IH|p IH|]; cbn [digits2_pos].
  - rewrite Pos2Z.inj_succ, Z.pow_succ_r by lia.
    replace (Z.succ (Z.pos (digits2_pos p)) - 1)
      with (Z.succ (Z.pos (digits2_pos p) - 1)) by lia.
    rewrite Z.pow_succ_r by lia. lia.
  - rewrite Pos2Z.inj_succ, Z.pow_succ_r by lia.
    replace (Z.succ (Z.pos (digits2_pos p)) - 1)
      with (Z.succ (Z.pos (digits2_pos p) - 1)) by lia.
    rewrite Z.pow_succ_r by lia. lia.
  - cbn. lia.
Qed.

Lemma digits2_pos_unique p d :
  2 ^ (d - 1) <= Z.pos p < 2 ^ d -> Z.pos (digits2_pos p) = d.
Proof.
  intros H. pose proof (digits2_pos_bounds p) as B.
  assert (0 < d).
  { destruct (Z.ltb_spec 0 d); [assumption|].
    assert (2 ^ d <= 2 ^ 0) by (apply Z.pow_le_mono_r; lia).
    change (2 ^ 0) with 1 in *. lia. }
  destruct (Z.lt_trichotomy (Z.pos (digits2_pos p)) d) as [L|[E|G]].
  - assert (2 ^ Z.pos (digits2_pos p) <= 2 ^ (d - 1))
      by (apply Z.pow_le_mono_r; lia).
    lia.
  - exact E.
  - assert (2 ^ d <= 2 ^ (Z.pos (digits2_pos p) - 1))
      by (apply Z.pow_le_mono_r; lia).
    lia.
Qed.

(** [iter_pos] counts like [Nat.iter]. *)
Lemma iter_pos_nat {A} (f : A -> A) n x :
  SpecFloat.iter_pos f n x = Nat.iter (Pos.to_nat n) f x.
Proof.
  revert x. induction n as [n IH|n IH|]; intros x; cbn [SpecFloat.iter_pos].
  - rewrite !IH, Pos2Nat.inj_xI.
    replace (S (2 * Pos.to_nat n)) with (Pos.to_nat n + (Pos.to_nat n + 1))%nat by lia.
    rewrite !Nat.iter_add. reflexivity.
  - rewrite !IH, Pos2Nat.inj_xO.
    replace (2 * Pos.to_nat n)%nat with (Pos.to_nat n + Pos.to_nat n)%nat by lia.
    rewrite Nat.iter_add. reflexivity.
  - reflexivity.
Qed.

(** One step of the right shift: the mantissa is halved, the bit shifted
    out becomes the round bit and the old round bit joins the sticky bit. *)
Lemma shr_1_spec m r s :
  0 <= m ->
  shr_1 (Build_shr_record m r s)
  = Build_shr_record (Z.div2 m) (Z.odd m) (r || s).
Proof. intros Hm. destruct m as [|[p|p|]|p]; try lia; reflexivity. Qed.

Lemma mod_pow2_succ m k :
  0 <= k ->
  m mod 2 ^ (k + 1) = m mod 2 ^ k + (if Z.testbit m k then 2 ^ k else 0).
Proof.
  intros Hk. rewrite Z.pow_add_r by lia. change (2 ^ 1) with 2.
  assert (P : 0 < 2 ^ k) by (apply Z.pow_pos_nonneg; lia).
  rewrite Z.rem_mul_r by lia.
  rewrite <- Z.testbit_spec' by lia.
  destruct (Z.testbit m k); cbn [Z.b2z]; lia.
Qed.

(** [k + 1] steps from an exact record. *)
Lemma shr_nat_spec m k :
  0 <= m ->
  Nat.iter (S k) shr_1 (Build_shr_record m false false)
  = Build_shr_record (Z.shiftr m (Z.of_nat (S k)))
      (Z.testbit m (Z.of_nat k))
      (negb (m mod 2 ^ Z.of_nat k =? 0)).
Proof.
  intros Hm. induction k as [|k IH].
  - cbn [Nat.iter]. rewrite shr_1_spec by assumption.
    change (Z.of_nat 1) with 1. change (Z.of_nat 0) with 0.
    rewrite Z.div2_spec, Z.bit0_odd, Z.mod_1_r. reflexivity.
  - rewrite Nat.iter_succ, IH.
    rewrite shr_1_spec by (apply Z.shiftr_nonneg; assumption).
    f_equal.
    + rewrite Z.div2_spec, Z.shiftr_shiftr by lia. f_equal; lia.
    + rewrite <- Z.bit0_odd, Z.shiftr_spec by lia. f_equal; lia.
    + replace (Z.of_nat (S k)) with (Z.of_nat k + 1) by lia.
      rewrite mod_pow2_succ by lia.
      assert (P : 0 < 2 ^ Z.of_nat k) by (apply Z.pow_pos_nonneg; lia).
      pose proof (Z.mod_pos_bound m (2 ^ Z.of_nat k) P) as B.
      destruct (Z.testbit m (Z.of_nat k));
        destruct (Z.eqb_spec (m mod 2 ^ Z.of_nat k) 0) as [E|E]; cbn [orb negb];
        symmetry; try (apply negb_true_iff, Z.eqb_neq; lia);
        apply negb_false_iff, Z.eqb_eq; lia.
Qed.

(** Shifting an exact mantissa right by [k > 0] places. *)
Lemma shr_exact m e k :
  0 <= m -> 0 < k ->
  shr (Build_shr_record m false false) e k
  = (Build_shr_record (m / 2 ^ k) (Z.testbit m (k - 1))
       (negb (m mod 2 ^ (k - 1) =? 0)), e + k).
Proof.
  intros Hm Hk. destruct k as [|p|p]; try lia. cbn [shr].
  rewrite iter_pos_nat.
  destruct (Pos.to_nat p) as [|j] eqn:J; [lia|].
  rewrite shr_nat_spec by assumption.
  replace (Z.of_nat (S j)) with (Z.pos p) by lia.
  replace (Z.of_nat j) with (Z.pos p - 1) by lia.
  rewrite Z.shiftr_div_pow2 by lia. reflexivity.
Qed.

Lemma pos_iter_xO p d : Z.pos (Pos.iter xO p d) = Z.pos p * 2 ^ Z.pos d.
Proof.
  change (Pos.iter xO p d) with (shift_pos d p).
  rewrite shift_pos_correct. rewrite Z.pow_pos_fold. lia.
Qed.


Lemma rne_shift_cases m k :
  0 <= m -> 0 < k ->
  (m mod 2 ^ k < 2 ^ (k - 1) -> rne_shift m k = m / 2 ^ k) /\
  (2 ^ (k - 1) < m mod 2 ^ k -> rne_shift m k = m / 2 ^ k + 1) /\
  (m / 2 ^ k <= rne_shift m k <= m / 2 ^ k + 1).
Proof.
  intros Hm Hk. unfold rne_shift.
  pose proof (mod_pow2_succ m (k - 1) ltac:(lia)) as S.
  replace (k - 1 + 1) with k in S by lia.
  assert (P : 0 < 2 ^ (k - 1)) by (apply Z.pow_pos_nonneg; lia).
  pose proof (Z.mod_pos_bound m (2 ^ (k - 1)) P) as B.
  destruct (Z.testbit m (k - 1));
    destruct (Z.eqb_spec (m mod 2 ^ (k - 1)) 0) as [E|E];
    cbn [negb loc_of_shr_record round_nearest_even];
    try destruct (Z.even (m / 2 ^ k)); repeat split; intros; lia.
Qed.

Section Round.
Variables prec emax : Z.

Lemma fexp_normal d : emin prec emax <= d - prec -> fexp prec emax d = d - prec.
Proof. unfold fexp. lia. Qed.

(** A mantissa of exactly [prec] digits with an exponent in range is left
    as it is. *)
Lemma binary_round_aux_canonical s m e :
  Z.pos (digits2_pos m) = prec ->
  emin prec emax <= e <= emax - prec ->
  binary_round_aux prec emax s (Z.pos m) e loc_Exact = S754_finite s m e.
Proof.
  intros D E. unfold binary_round_aux, shr_fexp. cbn [Zdigits2].
  rewrite D, fexp_normal by lia.
  replace (prec + e - prec - e) with 0 by lia.
  cbn [shr shr_record_of_loc shr_m loc_of_shr_record round_nearest_even Zdigits2].
  rewrite D, fexp_normal by lia.
  replace (prec + e - prec - e) with 0 by lia.
  cbn [shr shr_record_of_loc shr_m].
  replace (e <=? emax - prec) with true by (symmetry; apply Z.leb_le; lia).
  reflexivity.
Qed.

(** Rounding a mantissa of [prec + k] digits: [k] bits are shifted out. *)
Lemma binary_normalize_shift m e k szero :
  0 < prec ->
  0 < k ->
  2 ^ (prec + k - 1) <= Z.pos m < 2 ^ (prec + k) ->
  rne_shift (Z.pos m) k < 2 ^ prec ->
  emin prec emax <= e + k <= emax - prec ->
  exists m',
    Z.pos m' = rne_shift (Z.pos m) k /\
    binary_normalize prec emax (Z.pos m) e szero = S754_finite false m' (e + k).
Proof.
  intros Hprec Hk Hm Hr He.
  assert (D : Z.pos (digits2_pos m) = prec + k)
    by (apply digits2_pos_unique; assumption).
  destruct (rne_shift_cases (Z.pos m) k ltac:(lia) Hk) as (_ & _ & R).
  assert (Q : 2 ^ (prec - 1) <= Z.pos m / 2 ^ k).
  { apply Z.div_le_lower_bound; [apply Z.pow_pos_nonneg; lia|].
    rewrite <- Z.pow_add_r by lia.
    replace (k + (prec - 1)) with (prec + k - 1) by lia. lia. }
  assert (P1 : 0 < 2 ^ (prec - 1)) by (apply Z.pow_pos_nonneg; lia).
  destruct (rne_shift (Z.pos m) k) as [|m'|] eqn:RM; try lia.
  exists m'. split; [reflexivity|].
  cbn [binary_normalize]. unfold binary_round, shl_align.
  rewrite D, fexp_normal by lia.
  replace (prec + k + e - prec - e) with k by lia.
  destruct k as [|kp|]; try lia.
  unfold binary_round_aux, shr_fexp. cbn [Zdigits2].
  rewrite D, fexp_normal by lia.
  replace (prec + Z.pos kp + e - prec - e) with (Z.pos kp) by lia.
  cbn [shr_record_of_loc]. rewrite shr_exact by lia.
  cbn [shr_m]. fold (rne_shift (Z.pos m) (Z.pos kp)). rewrite RM.
  assert (D' : Z.pos (digits2_pos m') = prec)
    by (apply digits2_pos_unique; lia).
  cbn [Zdigits2]. rewrite D', fexp_normal by lia.
  replace (prec + (e + Z.pos kp) - prec - (e + Z.pos kp)) with 0 by lia.
  cbn [shr shr_record_of_loc shr_m].
  replace (e + Z.pos kp <=? emax - prec) with true
    by (symmetry; apply Z.leb_le; lia).
  reflexivity.
Qed.

(** A positive integer below [2^prec] is represented exactly. *)
Lemma binary_normalize_integer n szero :
  0 < prec < emax ->
  Z.pos n < 2 ^ prec ->
  exists m e,
    binary_normalize prec emax (Z.pos n) 0 szero = S754_finite false m e /\
    Z.pos m = Z.pos n * 2 ^ (- e) /\ 1 - prec <= e <= 0 /\
    Z.pos (digits2_pos m) = prec.
Proof.
  intros Hfmt Hn. pose proof (digits2_pos_bounds n) as B.
  remember (Z.pos (digits2_pos n)) as d eqn:Dn.
  assert (Hd : 1 <= d <= prec).
  { split; [lia|].
    destruct (Z.leb_spec d prec); [assumption|].
    assert (2 ^ prec <= 2 ^ (d - 1)) by (apply Z.pow_le_mono_r; lia). lia. }
  assert (Em : emin prec emax <= 1 - prec) by (unfold emin; lia).
  cbn [binary_normalize]. unfold binary_round, shl_align.
  rewrite <- Dn, Z.add_0_r, fexp_normal by lia.
  destruct (d - prec - 0) as [|z|z] eqn:Z0; try lia.
  - exists n, 0.
    rewrite binary_round_aux_canonical by lia.
    change (2 ^ (- 0)) with 1. repeat split; try lia.
  - assert (Dm : Z.pos (digits2_pos (Pos.iter xO n z)) = prec).
    { apply digits2_pos_unique. rewrite pos_iter_xO.
      assert (E1 : 2 ^ (prec - 1) = 2 ^ (d - 1) * 2 ^ Z.pos z).
      { rewrite <- Z.pow_add_r by lia. f_equal. lia. }
      assert (E2 : 2 ^ prec = 2 ^ d * 2 ^ Z.pos z).
      { rewrite <- Z.pow_add_r by lia. f_equal. lia. }
      assert (0 < 2 ^ Z.pos z) by (apply Z.pow_pos_nonneg; lia).
      rewrite E1, E2. split.
      - apply Z.mul_le_mono_nonneg_r; lia.
      - apply Z.mul_lt_mono_pos_r; lia. }
    exists (Pos.iter xO n z), (d - prec).
    rewrite binary_round_aux_canonical by lia.
    rewrite pos_iter_xO. replace (- (d - prec)) with (Z.pos z) by lia.
    repeat split; lia.
Qed.

End Round.

End Rounding_facts.

(** ** Encodings of normal numbers *)

Module Encoding_facts.
Import IEEE IEEE_facts Rounding_facts.

Section Normal.
Variable fmt : format.
Context {V : Valid fmt}.

Lemma join_value s e m :
  0 <= e < 2 ^ ebits fmt -> 0 <= m < 2 ^ mbits fmt ->
  join fmt s e m = (if s then sign_bit fmt else 0) + (e * 2 ^ mbits fmt + m).
Proof.
  intros He Hm. pose proof (@ebits_pos fmt V). pose proof (@mbits_pos fmt V).
  unfold join. f_equal. rewrite Z.shiftl_mul_pow2 by lia.
  apply (fabs_small fmt). rewrite Z.pow_add_r by lia.
  assert (0 < 2 ^ mbits fmt) by (apply Z.pow_pos_nonneg; lia). nia.
Qed.

(** A normal number with a full mantissa survives encoding. *)
Lemma decode_encode_normal s m e :
  Z.pos (digits2_pos m) = prec fmt ->
  emin (prec fmt) (emax fmt) <= e <= emax fmt - prec fmt ->
  encode fmt (S754_finite s m e)
  = join fmt s (e - emin (prec fmt) (emax fmt) + 1) (Z.pos m - 2 ^ mbits fmt)
  /\ 0 < e - emin (prec fmt) (emax fmt) + 1 < Z.ones (ebits fmt)
  /\ 0 <= Z.pos m - 2 ^ mbits fmt < 2 ^ mbits fmt
  /\ decode fmt (encode fmt (S754_finite s m e)) = S754_finite s m e.
Proof.
  intros D E. pose proof (@ebits_pos fmt V). pose proof (@mbits_pos fmt V).
  pose proof (digits2_pos_bounds m) as B. rewrite D in B. unfold prec in B.
  replace (mbits fmt + 1 - 1) with (mbits fmt) in B by lia.
  rewrite Z.pow_add_r in B by lia. change (2 ^ 1) with 2 in B.
  assert (X : 2 * emax fmt = 2 ^ ebits fmt).
  { unfold emax. rewrite <- Z.pow_succ_r by lia. f_equal. lia. }
  assert (O : Z.ones (ebits fmt) = 2 ^ ebits fmt - 1)
    by (rewrite Z.ones_equiv; lia).
  assert (R : 0 < e - emin (prec fmt) (emax fmt) + 1 < Z.ones (ebits fmt)).
  { unfold emin in *. lia. }
  assert (En : encode fmt (S754_finite s m e)
               = join fmt s (e - emin (prec fmt) (emax fmt) + 1)
                   (Z.pos m - 2 ^ mbits fmt)).
  { cbn [encode].
    replace (Z.pos m <? 2 ^ mbits fmt) with false
      by (symmetry; apply Z.ltb_ge; lia).
    reflexivity. }
  split; [exact En|]. split; [exact R|]. split; [lia|].
  rewrite En.
  destruct (fields_of_join fmt s (e - emin (prec fmt) (emax fmt) + 1)
              (Z.pos m - 2 ^ mbits fmt)) as (S & Ex & M); try lia.
  unfold decode. rewrite S, Ex, M.
  replace (e - emin (prec fmt) (emax fmt) + 1 =? 0) with false
    by (symmetry; apply Z.eqb_neq; lia).
  replace (e - emin (prec fmt) (emax fmt) + 1 =? Z.ones (ebits fmt)) with false
    by (symmetry; apply Z.eqb_neq; lia).
  replace (Z.pos m - 2 ^ mbits fmt + 2 ^ mbits fmt) with (Z.pos m) by lia.
  f_equal. lia.
Qed.

End Normal.
End Encoding_facts.

(** ** Real values and the true cosine *)

Module Real_facts.
Import IEEE.

Local Open Scope R_scope.

(** Eighteen decimals of pi, from the series of
    [2 * atan (1/3) + atan (1/7)]. *)
Lemma PI_18_digits : 3.141592653589793238 < PI < 3.141592653589793239.
Proof.
  pose proof (PI_2_3_7_ineq 9) as [L U].
  unfold PI_2_3_7_tg, Ratan_seq, tg_alt in L, U.
  cbn [sum_f_R0 Nat.mul Nat.add pow INR] in L, U.
  split; lra.
Qed.

Lemma sin_approx_2 h :
  sin_approx h (2 * (0 + 1)) = h - h ^ 3 / 6 + h ^ 5 / 120.
Proof. unfold sin_approx, sin_term. simpl. field. Qed.

Lemma sin_approx_3 h :
  sin_approx h (2 * 1 + 1) = h - h ^ 3 / 6 + h ^ 5 / 120 - h ^ 7 / 5040.
Proof. unfold sin_approx, sin_term. simpl. field. Qed.

(** The true cosine at [0x1.dea2f2p+19 = 15683961 / 16] lies between 2.06
    and 2.07 units of [2^-29] below [0x1.fffe7ap-6 = 33554042 / 2^30].  The
    argument is [624045 * pi/2] minus a small [a], so the cosine is
    [sin a]. *)
Lemma cos_recorded_enclosure :
  33554042 / 2 ^ 30 - 2.07 / 2 ^ 29 < cos (15683961 / 16)
  < 33554042 / 2 ^ 30 - 2.06 / 2 ^ 29.
Proof.
  pose proof PI_18_digits as [L U].
  set (x := 15683961 / 16).
  set (a := PI / 2 - x + 2 * INR (Z.to_nat 156011) * PI).
  assert (C : cos x = sin a).
  { unfold a. now rewrite sin_period, sin_shift. }
  assert (K : INR (Z.to_nat 156011) = 156011).
  { rewrite INR_IZR_INZ, Z2Nat.id by (cbv; discriminate). reflexivity. }
  set (l := 312022.5 * 3.141592653589793238 - x).
  set (h := 312022.5 * 3.141592653589793239 - x).
  assert (A : l <= a <= h) by (unfold a, l, h, x; rewrite K; lra).
  assert (Hl : 0 <= l <= 1) by (unfold l, x; lra).
  assert (Hh : 0 <= h <= 1) by (unfold h, x; lra).
  rewrite C. split.
  - apply Rlt_le_trans with (sin l); [|apply sin_incr_1; lra].
    destruct (sin_bound l 1) as [B _]; [lra | lra |].
    apply Rlt_le_trans with (2 := B).
    rewrite sin_approx_3. unfold l, x. lra.
  - apply Rle_lt_trans with (sin h); [apply sin_incr_1; lra|].
    destruct (sin_bound h 0) as [_ B]; [lra | lra |].
    apply Rle_lt_trans with (1 := B).
    rewrite sin_approx_2. unfold h, x. lra.
Qed.

End Real_facts.

(** ** The cosine kernel *)

Module Cosf_facts.
Import IEEE IEEE_facts Rounding_facts Encoding_facts Real_facts Cosf.

Section Dispatch.
Variable VL : nat.
Variable cosf : Z -> Z.
Variable coeff : Z -> Z.
Variable unspecified : Z -> Z -> Z -> Z.

Let cos := Cosf.cos VL cosf coeff unspecified.
Let fast := Cosf.fast coeff unspecified.
Let cmp := Cosf.cmp unspecified.
Let abs_x := Cosf.abs_x unspecified.

(** The predicate is a subset of the governing predicate. *)
Lemma cmp_subset x pg i : cmp x pg i = true -> pg i = true.
Proof.
  unfold cmp, Cosf.cmp, svcmpge_u32. intros H.
  now apply andb_true_iff in H.
Qed.

Lemma svptest_any_false pg p i :
  (i < VL)%nat -> svptest_any VL pg p = false -> pg i && p i = false.
Proof.
  unfold svptest_any. intros Hi H.
  destruct (pg i && p i) eqn:E; [|reflexivity].
  assert (X : existsb (fun j => pg j && p j) (seq 0 VL) = true).
  { apply existsb_exists. exists i. split; [|assumption].
    apply in_seq. lia. }
  congruence.
Qed.

Lemma cos_select x pg i :
  (i < VL)%nat ->
  cos x pg i = if cmp x pg i then cosf (x i) else fast x pg i.
Proof.
  intros Hi. unfold cos, Cosf.cos, __sv_cosf_specialcase, sv_call_f32.
  fold (cmp x pg) (fast x pg).
  destruct (svptest_any VL pg (cmp x pg)) eqn:A; [reflexivity|].
  pose proof (svptest_any_false _ _ _ Hi A) as F.
  destruct (cmp x pg i) eqn:C; [|reflexivity].
  rewrite (cmp_subset _ _ _ C) in F. discriminate.
Qed.

Lemma abs_x_active x pg i :
  pg i = true -> abs_x x pg i = fabs binary32 (x i).
Proof.
  intros A. unfold abs_x, Cosf.abs_x, svreinterpret_f32_u32,
    svreinterpret_u32_f32, svand_n_u32_x.
  now rewrite A.
Qed.

Lemma cmp_active x pg i :
  pg i = true -> cmp x pg i = (RangeVal_bits <=? fabs binary32 (x i)).
Proof.
  intros A. unfold cmp, Cosf.cmp, svcmpge_u32, svreinterpret_u32_f32.
  fold (abs_x x pg). rewrite abs_x_active, A by assumption. reflexivity.
Qed.

(** On an active lane the fast path reads its input through [abs_x] only. *)
Lemma fast_reads_abs x x' pg i :
  pg i = true -> abs_x x pg i = abs_x x' pg i ->
  fast x pg i = fast x' pg i.
Proof.
  intros A E. unfold abs_x in E.
  unfold fast, Cosf.fast, svmul_f32_x, Cosf.f, poly, rsq, svtmad_f32,
    svtsmul_f32, svtssel_f32, svreinterpret_u32_f32, Cosf.r, Cosf.r2,
    Cosf.r1, Cosf.n, Cosf.q, svsub_f32_x, svmla_f32_x.
  rewrite A, E. reflexivity.
Qed.
End Dispatch.

(** A NaN magnitude lies above the encoding of infinity. *)
Lemma nan_magnitude_f32 a :
  0 <= a < 2 ^ 31 -> is_nan binary32 a = true -> 0x7f800000 < a.
Proof.
  intros Ha N. unfold is_nan in N.
  destruct (fields_of_magnitude binary32 a Ha) as [_ E].
  destruct (decode_spec binary32 a)
    as [A1 A2|p A1 A2|p A1 A2|A1 A2|A1 A2]; try discriminate.
  pose proof (mant_of_range binary32 a) as M.
  rewrite E, A1. change (Z.ones (ebits binary32) * 2 ^ mbits binary32) with 0x7f800000.
  lia.
Qed.

Lemma RangeVal_not_nan : is_nan binary32 RangeVal_bits = false.
Proof. reflexivity. Qed.

Lemma cmp_is_not_below (x : Z) :
  (RangeVal_bits <=? fabs binary32 x)
  = negb (flt binary32 (fabs binary32 x) RangeVal_bits)
  /\ (RangeVal_bits <=? fabs binary32 x)
     = fle binary32 RangeVal_bits (fabs binary32 x) || is_nan binary32 x.
Proof.
  pose proof (fabs_range binary32 x) as R.
  assert (R0 : 0 <= RangeVal_bits < 2 ^ (ebits binary32 + mbits binary32))
    by (vm_compute; split; congruence).
  rewrite <- (is_nan_fabs binary32 x).
  destruct (is_nan binary32 (fabs binary32 x)) eqn:N.
  - pose proof (nan_magnitude_f32 _ R N) as G.
    assert (L : flt binary32 (fabs binary32 x) RangeVal_bits = false).
    { destruct (flt binary32 (fabs binary32 x) RangeVal_bits) eqn:F; [|reflexivity].
      apply (flt_true_not_nan binary32) in F. destruct F; congruence. }
    assert (L' : fle binary32 RangeVal_bits (fabs binary32 x) = false).
    { destruct (fle binary32 RangeVal_bits (fabs binary32 x)) eqn:F; [|reflexivity].
      apply (fle_true_not_nan binary32) in F. destruct F; congruence. }
    rewrite L, L'.
    assert (RangeVal_bits <= fabs binary32 x).
    { change RangeVal_bits with 0x49800000. lia. }
    split; apply Z.leb_le; assumption.
  - rewrite flt_magnitudes, fle_magnitudes, orb_false_r
      by (exact _ || assumption || exact RangeVal_not_nan).
    split; [|reflexivity]. rewrite Z.ltb_antisym. now rewrite negb_involutive.
Qed.


(** The worst case recorded with the kernel: at [0x1.dea2f2p+19] the model
    returns the value the source reports, [0x1.fffe7ap-6], two units above
    the correctly rounded [0x1.fffe76p-6]. *)
Example cos_recorded_worst_case :
  let x := of_hex binary32 0x1dea2f2 (19 - 24) in
  Cosf.cos 4 sample_cosf FPTrigMAddCoefficient32 sample_unspecified
    (fun _ => x) (fun _ => true) 0%nat
  = of_hex binary32 0x1fffe7a (- 6 - 24)
  /\ of_hex binary32 0x1fffe7a (- 6 - 24)
     = of_hex binary32 0x1fffe76 (- 6 - 24) + 2.
Proof. vm_compute. split; reflexivity. Qed.

(** At that input the result is more than 2.06 and less than 2.07 units in
    the last place, [2^-29], away from the true cosine: the figure of 2.06
    reported with the kernel is this measured maximum cut to two decimals. *)
Example cos_recorded_error_in_ulps :
  let x := of_hex binary32 0x1dea2f2 (19 - 24) in
  let y := Cosf.cos 4 sample_cosf FPTrigMAddCoefficient32 sample_unspecified
             (fun _ => x) (fun _ => true) 0%nat in
  flt binary32 (fabs binary32 x) RangeVal_bits = true /\
  (2.06 * powerRZ 2 (- 29) < real_value binary32 y - Rtrigo_def.cos (real_value binary32 x)
   < 2.07 * powerRZ 2 (- 29))%R.
Proof.
  intros x y. split; [reflexivity|].
  replace y with 1023409981 by (vm_compute; reflexivity).
  unfold real_value.
  replace (decode binary32 1023409981)
    with (S754_finite false 16777021 (- 29)) by reflexivity.
  replace (decode binary32 x) with (S754_finite false 15683961 (- 4))
    by reflexivity.
  cbn [powerRZ]. change (Pos.to_nat 29) with 29%nat.
  change (Pos.to_nat 4) with 4%nat.
  pose proof cos_recorded_enclosure as [L U].
  replace (1 * 15683961 * / 2 ^ 4)%R with (15683961 / 16)%R by (simpl; lra).
  assert (P : (2 ^ 30 = 2 * 2 ^ 29)%R) by (simpl; lra).
  assert (Q : (0 < 2 ^ 29)%R) by (apply pow_lt; lra).
  rewrite P in L, U.
  set (c := Rtrigo_def.cos (15683961 / 16)) in *.
  set (u := (2 ^ 29)%R) in *.
  assert (I : (/ u * u = 1)%R) by (apply Rinv_l; lra).
  assert (E1 : (33554042 / (2 * u) = 16777021 * / u)%R) by (field; lra).
  assert (E2 : (2.07 / u = 2.07 * / u)%R) by reflexivity.
  assert (E3 : (2.06 / u = 2.06 * / u)%R) by reflexivity.
  rewrite E1, E2 in L. rewrite E1, E3 in U.
  split; lra.
Qed.

(** C1.  Every lane of the result of the cosine kernel is the scalar
    reference [cosf] of that lane's input when the lane's special-case
    predicate is set, and the fast-path value (reduction, polynomial,
    reconstruction) of that lane when it is clear. *)
Theorem cos_lane_dispatch VL cosf coeff unspecified x pg i :
  (i < VL)%nat ->
  Cosf.cos VL cosf coeff unspecified x pg i
  = if Cosf.cmp unspecified x pg i then cosf (x i)
    else Cosf.fast coeff unspecified x pg i.
Proof.
  intros Hi. unfold Cosf.cos, __sv_cosf_specialcase, sv_call_f32.
  destruct (svptest_any VL pg (Cosf.cmp unspecified x pg)) eqn:A.
  - reflexivity.
  - pose proof (svptest_any_false VL _ _ _ Hi A) as F.
    destruct (Cosf.cmp unspecified x pg i) eqn:C; [|reflexivity].
    rewrite (cmp_subset _ _ _ _ C) in F. discriminate.
Qed.

Lemma cos_lane_dispatch_witness :
  (1 < 4)%nat /\
  Cosf.cos 4 sample_cosf FPTrigMAddCoefficient32 sample_unspecified
    sample_x sample_pg 1%nat
  = if Cosf.cmp sample_unspecified sample_x sample_pg 1%nat
    then sample_cosf (sample_x 1%nat)
    else Cosf.fast FPTrigMAddCoefficient32 sample_unspecified
           sample_x sample_pg 1%nat.
Proof.
  split; [lia|].
  apply (cos_lane_dispatch 4 sample_cosf FPTrigMAddCoefficient32
           sample_unspecified sample_x sample_pg 1%nat).
  lia.
Defined.

(** C7.  On an active lane whose magnitude is at or above 2^20 the
    special-case predicate is set and the lane of the result is the scalar
    reference of the original input; on an active lane below 2^20 the
    predicate is clear and the lane keeps the fast-path value. *)
Theorem cos_large_magnitude_fallback VL cosf coeff unspecified x pg i :
  (i < VL)%nat -> pg i = true ->
  (fle binary32 RangeVal_bits (fabs binary32 (x i)) = true ->
     Cosf.cmp unspecified x pg i = true /\
     Cosf.cos VL cosf coeff unspecified x pg i = cosf (x i))
  /\
  (flt binary32 (fabs binary32 (x i)) RangeVal_bits = true ->
     Cosf.cmp unspecified x pg i = false /\
     Cosf.cos VL cosf coeff unspecified x pg i
     = Cosf.fast coeff unspecified x pg i).
Proof.
  intros Hi A.
  pose proof (cos_select VL cosf coeff unspecified x pg i Hi) as S.
  pose proof (cmp_active unspecified x pg i A) as C.
  destruct (cmp_is_not_below (x i)) as [B1 B2].
  split; intros H.
  - assert (T : Cosf.cmp unspecified x pg i = true).
    { rewrite C, B2, H. reflexivity. }
    rewrite T in S. now split.
  - assert (T : Cosf.cmp unspecified x pg i = false).
    { rewrite C, B1, H. reflexivity. }
    rewrite T in S. now split.
Qed.

Lemma cos_large_magnitude_fallback_witness :
  (1 < 4)%nat /\ sample_pg 1%nat = true /\
  fle binary32 RangeVal_bits (fabs binary32 (sample_x 1%nat)) = true /\
  Cosf.cmp sample_unspecified sample_x sample_pg 1%nat = true /\
  Cosf.cos 4 sample_cosf FPTrigMAddCoefficient32 sample_unspecified
    sample_x sample_pg 1%nat = sample_cosf (sample_x 1%nat).
Proof.
  split; [lia|]. split; [reflexivity|]. split; [reflexivity|].
  apply (cos_large_magnitude_fallback 4 sample_cosf FPTrigMAddCoefficient32
           sample_unspecified sample_x sample_pg 1%nat);
    [lia | reflexivity | reflexivity].
Defined.

(** C10.  The cosine kernel is even on its fast-path domain: on an active
    lane with magnitude below 2^20, negating the input leaves the lane of
    the result bit for bit unchanged; the sign is masked off first and the
    fast path reads the input through the masked value only. *)
Theorem cos_even_below_range VL cosf coeff unspecified x pg i :
  (i < VL)%nat -> pg i = true ->
  flt binary32 (fabs binary32 (x i)) RangeVal_bits = true ->
  Cosf.abs_x unspecified (negated x) pg i = Cosf.abs_x unspecified x pg i
  /\
  Cosf.cos VL cosf coeff unspecified (negated x) pg i
  = Cosf.cos VL cosf coeff unspecified x pg i.
Proof.
  intros Hi A B.
  assert (E : Cosf.abs_x unspecified (negated x) pg i
              = Cosf.abs_x unspecified x pg i).
  { rewrite !abs_x_active by assumption. unfold negated.
    apply (fabs_fneg binary32). }
  split; [exact E|].
  rewrite !cos_select by assumption.
  rewrite !cmp_active by assumption.
  unfold negated at 1. rewrite (fabs_fneg binary32).
  destruct (cmp_is_not_below (x i)) as [B1 _]. rewrite B1, B. simpl.
  now apply fast_reads_abs.
Qed.

Lemma cos_even_below_range_witness :
  (2 < 4)%nat /\ sample_pg 2%nat = true /\
  flt binary32 (fabs binary32 (sample_x 2%nat)) RangeVal_bits = true /\
  Cosf.cos 4 sample_cosf FPTrigMAddCoefficient32 sample_unspecified
    (negated sample_x) sample_pg 2%nat
  = Cosf.cos 4 sample_cosf FPTrigMAddCoefficient32 sample_unspecified
      sample_x sample_pg 2%nat.
Proof.
  split; [lia|]. split; [reflexivity|]. split; [reflexivity|].
  apply (cos_even_below_range 4 sample_cosf FPTrigMAddCoefficient32
           sample_unspecified sample_x sample_pg 2%nat);
    [lia | reflexivity | reflexivity].
Defined.


(** *** The quadrant index *)


Lemma decode_InvPio2 :
  decode binary32 InvPio2_bits = S754_finite false 10680707 (- 24).
Proof. reflexivity. Qed.

Lemma decode_Shift :
  decode binary32 Shift_bits = S754_finite false 12582913 0.
Proof. reflexivity. Qed.

(** An odd factor does not change divisibility by a power of two. *)
Lemma pow2_divide_odd_factor j m :
  0 <= j -> (2 ^ j | m * 10680707) -> (2 ^ j | m).
Proof.
  intros Hj D. apply Z.gauss with (m := 10680707).
  - now rewrite Z.mul_comm.
  - apply Z.coprime_pow_l; [assumption | reflexivity].
Qed.

(** The product of a binary32 mantissa with that of [InvPio2] is never
    half way between two integers once scaled by [2^k], [k >= 26]. *)
Lemma no_tie m k :
  0 < m < 2 ^ 24 -> 26 <= k ->
  (m * 10680707) mod 2 ^ k <> 2 ^ (k - 1).
Proof.
  intros Hm Hk T.
  assert (P : 0 < 2 ^ (k - 1)) by (apply Z.pow_pos_nonneg; lia).
  assert (D : (2 ^ (k - 1) | m * 10680707)).
  { exists (2 * (m * 10680707 / 2 ^ k) + 1).
    pose proof (Z.div_mod (m * 10680707) (2 ^ k) ltac:(apply Z.pow_nonzero; lia)) as E.
    rewrite T in E.
    assert (K : 2 ^ k = 2 * 2 ^ (k - 1))
      by (rewrite <- Z.pow_succ_r by lia; f_equal; lia).
    remember (m * 10680707 / 2 ^ k) as c. rewrite K in E. lia. }
  apply pow2_divide_odd_factor in D; [|lia].
  apply Z.divide_pos_le in D; [|lia].
  assert (2 ^ 25 <= 2 ^ (k - 1)) by (apply Z.pow_le_mono_r; lia).
  lia.
Qed.


(** The biased product, on decoded operands: [|x| * InvPio2 + Shift] rounds
    to [Shift + N], [N] the integer nearest to the exact product. *)
Lemma fma_shift_core mx ex :
  Z.pos mx < 2 ^ 24 -> - 149 <= ex <= - 4 ->
  exists N m',
    0 <= N <= 2 ^ 20 /\ Z.pos m' = 12582913 + N /\
    2 * Z.abs (Z.pos mx * 10680707 - N * 2 ^ (24 - ex)) < 2 ^ (24 - ex) /\
    SFfma binary32 (S754_finite false mx ex) (S754_finite false 10680707 (- 24))
      (S754_finite false 12582913 0)
    = S754_finite false m' 0.
Proof.
  intros Hm He. cbn [SFfma xorb cond_Zopp].
  rewrite Z.min_l by lia. unfold shl_align at 1 2. rewrite Z.sub_diag.
  cbn [fst].
  destruct (ex + - 24 - 0) as [|d|d] eqn:K; try lia. cbn [fst].
  rewrite <- Pos2Z.inj_add.
  assert (P : 0 < 2 ^ Z.pos d) by (apply Z.pow_pos_nonneg; lia).
  assert (Kd : Z.pos d = 24 - ex) by lia.
  assert (A : Z.pos mx * 10680707 < 2 ^ 20 * 2 ^ Z.pos d).
  { assert (2 ^ 28 <= 2 ^ Z.pos d) by (apply Z.pow_le_mono_r; lia).
    change (2 ^ 24) with 16777216 in Hm. change (2 ^ 28) with 268435456 in *.
    change (2 ^ 20) with 1048576. nia. }
  assert (M : Z.pos (mx * 10680707 + Pos.iter xO 12582913 d)%positive
              = Z.pos mx * 10680707 + 12582913 * 2 ^ Z.pos d).
  { rewrite Pos2Z.inj_add, Pos2Z.inj_mul, pos_iter_xO. reflexivity. }
  set (a := Z.pos mx * 10680707) in *.
  assert (Qd : (a + 12582913 * 2 ^ Z.pos d) / 2 ^ Z.pos d
               = 12582913 + a / 2 ^ Z.pos d).
  { rewrite Z.div_add by lia. lia. }
  assert (Rd : (a + 12582913 * 2 ^ Z.pos d) mod 2 ^ Z.pos d = a mod 2 ^ Z.pos d).
  { now rewrite Z.mod_add by lia. }
  assert (Ad : 0 <= a / 2 ^ Z.pos d < 2 ^ 20).
  { split; [apply Z.div_pos; lia|]. apply Z.div_lt_upper_bound; lia. }
  destruct (rne_shift_cases (a + 12582913 * 2 ^ Z.pos d) (Z.pos d)
              ltac:(lia) ltac:(lia)) as (Lo & Hi & Bd).
  rewrite Qd, Rd in *.
  destruct (binary_normalize_shift 24 128
              (mx * 10680707 + Pos.iter xO 12582913 d)%positive
              (ex + - 24) (Z.pos d) false)
    as (m' & Em & En).
  - lia.
  - lia.
  - rewrite M.
    replace (24 + Z.pos d - 1) with (23 + Z.pos d) by lia.
    rewrite !Z.pow_add_r by lia.
    change (2 ^ 23) with 8388608. change (2 ^ 24) with 16777216.
    change (2 ^ 20) with 1048576 in *. nia.
  - rewrite M. change (2 ^ 24) with 16777216. change (2 ^ 20) with 1048576 in *.
    lia.
  - unfold emin. lia.
  - rewrite M in Em. exists (Z.pos m' - 12582913), m'.
    replace (ex + - 24 + Z.pos d) with 0 in En by lia.
    change (prec binary32) with 24. change (emax binary32) with 128.
    rewrite Kd in *.
    pose proof (Z.div_mod a (2 ^ (24 - ex)) ltac:(lia)) as DM.
    pose proof (Z.mod_pos_bound a (2 ^ (24 - ex)) ltac:(lia)) as MB.
    assert (T : a mod 2 ^ (24 - ex) <> 2 ^ (24 - ex - 1))
      by (apply no_tie; lia).
    assert (H2 : 2 ^ (24 - ex) = 2 * 2 ^ (24 - ex - 1))
      by (rewrite <- Z.pow_succ_r by lia; f_equal; lia).
    change (2 ^ 20) with 1048576 in *.
    repeat split; try lia; exact En.
Qed.


Lemma SFsub_same_exponent prec emax m1 m2 e :
  SFsub prec emax (S754_finite false m1 e) (S754_finite false m2 e)
  = binary_normalize prec emax (Z.pos m1 - Z.pos m2) e false.
Proof.
  unfold SFsub, shl_align. rewrite Z.min_id, Z.sub_diag. reflexivity.
Qed.

(** An integer below [2^24] is a binary32 number. *)
Lemma in_units_integer N :
  0 <= N < 2 ^ 24 -> in_units binary32 (of_hex binary32 N 0) = N * 2 ^ 149.
Proof.
  intros HN. destruct N as [|n|n]; try lia; [reflexivity|].
  destruct (binary_normalize_integer 24 128 n false ltac:(lia) (proj2 HN))
    as (m & e & B & Em & Ee & D).
  unfold of_hex, in_units.
  change (prec binary32) with 24. change (emax binary32) with 128.
  rewrite B.
  destruct (decode_encode_normal binary32 false m e D) as (_ & _ & _ & R).
  { change (emin (prec binary32) (emax binary32)) with (- 149).
    change (emax binary32 - prec binary32) with 104. lia. }
  rewrite R. cbn [cond_Zopp]. change (emin 24 128) with (- 149).
  rewrite Em, <- Z.mul_assoc, <- Z.pow_add_r by lia.
  f_equal. f_equal. lia.
Qed.

Lemma quadrant_of_finite a mx ex :
  decode binary32 a = S754_finite false mx ex ->
  Z.pos mx < 2 ^ 24 -> - 149 <= ex <= - 4 ->
  exists N,
    0 <= N <= 2 ^ 20 /\
    2 * Z.abs (in_units binary32 a * in_units binary32 InvPio2_bits
               - N * 2 ^ 298) < 2 ^ 298 /\
    ffma binary32 a InvPio2_bits Shift_bits = Shift_bits + N /\
    fsub binary32 (Shift_bits + N) Shift_bits = of_hex binary32 N 0 /\
    in_units binary32 (of_hex binary32 N 0) = N * 2 ^ 149.
Proof.
  intros Da Hm He.
  destruct (fma_shift_core mx ex Hm He) as (N & m' & HN & Em & Near & F).
  assert (Dm : Z.pos (digits2_pos m') = prec binary32).
  { apply digits2_pos_unique. change (prec binary32) with 24.
    change (2 ^ (24 - 1)) with 8388608. change (2 ^ 24) with 16777216.
    change (2 ^ 20) with 1048576 in HN. lia. }
  destruct (decode_encode_normal binary32 false m' 0 Dm) as (En & _ & Mr & R).
  { change (emin (prec binary32) (emax binary32)) with (- 149).
    change (emax binary32 - prec binary32) with 104. lia. }
  assert (Q : ffma binary32 a InvPio2_bits Shift_bits = Shift_bits + N).
  { unfold ffma. rewrite Da, decode_InvPio2, decode_Shift, F, En.
    rewrite (join_value binary32).
    - change (emin (prec binary32) (emax binary32)) with (- 149).
      change (2 ^ mbits binary32) with 8388608.
      change Shift_bits with 1262485505. lia.
    - change (emin (prec binary32) (emax binary32)) with (- 149).
      change (2 ^ ebits binary32) with 256. lia.
    - exact Mr. }
  exists N. split; [exact HN|]. split; [|split; [exact Q|split]].
  - unfold in_units at 1. rewrite Da. cbn [cond_Zopp].
    change (emin (prec binary32) (emax binary32)) with (- 149).
    change (in_units binary32 InvPio2_bits) with (10680707 * 2 ^ 125).
    assert (T : 0 < 2 ^ (ex - - 149)) by (apply Z.pow_pos_nonneg; lia).
    assert (U : 2 ^ 298 = 2 ^ (24 - ex) * (2 ^ (ex - - 149) * 2 ^ 125)).
    { rewrite <- !Z.pow_add_r by lia. f_equal. lia. }
    rewrite U.
    replace (Z.pos mx * 2 ^ (ex - - 149) * (10680707 * 2 ^ 125)
             - N * (2 ^ (24 - ex) * (2 ^ (ex - - 149) * 2 ^ 125)))
      with ((Z.pos mx * 10680707 - N * 2 ^ (24 - ex))
            * (2 ^ (ex - - 149) * 2 ^ 125)) by ring.
    assert (W : 0 < 2 ^ (ex - - 149) * 2 ^ 125) by (apply Z.mul_pos_pos; lia).
    rewrite Z.abs_mul, (Z.abs_eq (2 ^ (ex - - 149) * 2 ^ 125)) by lia.
    rewrite Z.mul_assoc. apply Z.mul_lt_mono_pos_r; assumption.
  - rewrite <- Q at 1. unfold fsub, ffma at 1.
    rewrite Da, decode_InvPio2, decode_Shift, F, R.
    rewrite SFsub_same_exponent, Em.
    replace (12582913 + N - 12582913) with N by lia. reflexivity.
  - apply in_units_integer. change (2 ^ 20) with 1048576 in HN.
    change (2 ^ 24) with 16777216. lia.
Qed.

(** The reduction index of a magnitude below 2^20, on bit patterns. *)
Lemma quadrant_of_magnitude a :
  0 <= a < RangeVal_bits ->
  exists N,
    0 <= N <= 2 ^ 20 /\
    2 * Z.abs (in_units binary32 a * in_units binary32 InvPio2_bits
               - N * 2 ^ 298) < 2 ^ 298 /\
    ffma binary32 a InvPio2_bits Shift_bits = Shift_bits + N /\
    fsub binary32 (Shift_bits + N) Shift_bits = of_hex binary32 N 0 /\
    in_units binary32 (of_hex binary32 N 0) = N * 2 ^ 149.
Proof.
  intros Ha.
  assert (Ha' : 0 <= a < 2 ^ (ebits binary32 + mbits binary32)).
  { change RangeVal_bits with 0x49800000 in Ha.
    change (2 ^ (ebits binary32 + mbits binary32)) with 0x80000000. lia. }
  destruct (fields_of_magnitude binary32 a Ha') as [Sa Ea].
  pose proof (mant_of_range binary32 a) as Ma.
  pose proof (expo_of_range binary32 a) as Xa.
  change (2 ^ mbits binary32) with 8388608 in *.
  change (2 ^ ebits binary32) with 256 in *.
  change RangeVal_bits with (147 * 8388608) in Ha.
  assert (Xa' : expo_of binary32 a <= 146) by lia.
  pose proof (decode_spec binary32 a) as D.
  remember (decode binary32 a) as f eqn:Df.
  change (Z.ones (ebits binary32)) with 255 in D.
  destruct D as [A1 A2|p A1 A2|p A1 A2|A1 A2|A1 A2];
    rewrite ?Sa in Df;
    change (emin (prec binary32) (emax binary32)) with (- 149) in Df;
    change (2 ^ mbits binary32) with 8388608 in *;
    change (Z.ones (ebits binary32)) with 255 in *;
    try lia.
  - assert (a = 0) by lia. subst a. exists 0.
    repeat split; try reflexivity; vm_compute; congruence.
  - apply (quadrant_of_finite a p (- 149)); [now symmetry | | lia].
    change (2 ^ 24) with 16777216. lia.
  - apply (quadrant_of_finite a p (expo_of binary32 a - 1 + - 149));
      [now symmetry | | lia].
    change (2 ^ 24) with 16777216. lia.
Qed.


(** At [0x1.fcf3c4p+19] the quotient by [pi/2] is nearest to 663571. *)
Lemma rint_at_0x497e79e2 : is_rint (real_value binary32 0x497e79e2 * 2 / PI) 663571.
Proof.
  unfold is_rint, real_value.
  replace (decode binary32 0x497e79e2) with (S754_finite false 16677346 (- 4))
    by reflexivity.
  cbn [powerRZ]. change (Pos.to_nat 4) with 4%nat. cbn [pow].
  pose proof PI_18_digits as [L U].
  set (t := (1 * 16677346 * / (2 * (2 * (2 * (2 * 1)))) * 2 / PI)%R).
  assert (E : (t * PI = 16677346 / 16 * 2)%R) by (unfold t; field; lra).
  apply Rabs_def1; nra.
Qed.

(** C3 as stated fails at [x = 0x1.fcf3c4p+19] (bits [0x497e79e2]), below
    2^20: the kernel's [n] is 663570, while the integer nearest to
    [|x| * 2/pi] is 663571, [InvPio2] being slightly below [2/pi]; the
    lowest mantissa bit of [q] is 1 although [n] is even; and [r] lies
    above [pi/4]. *)
Lemma cos_reduction_off_rint :
  let x : vec := fun _ => 0x497e79e2 in
  let pg : pred := fun _ => true in
  flt binary32 (fabs binary32 (x 0%nat)) RangeVal_bits = true /\
  Cosf.n sample_unspecified x pg 0%nat = of_hex binary32 663570 0 /\
  in_units binary32 (Cosf.n sample_unspecified x pg 0%nat) = 663570 * 2 ^ 149 /\
  is_rint (real_value binary32 (fabs binary32 (x 0%nat)) * 2 / PI) 663571 /\
  Z.testbit (Cosf.q sample_unspecified x pg 0%nat) 0 = true /\
  663570 mod 2 = 0 /\
  flt binary32 (of_hex binary32 0x1921fb6 (- 1 - 24))
    (Cosf.r sample_unspecified x pg 0%nat) = true.
Proof.
  intros x pg. repeat split; try (vm_compute; reflexivity).
  exact rint_at_0x497e79e2.
Qed.

End Cosf_facts.

(** ** The arctangent kernel *)

Module Atan_facts.
Import IEEE IEEE_facts Atan.

Lemma bsl_mask c a b :
  wf binary64 a -> wf binary64 b -> bsl (mask c) a b = if c then a else b.
Proof.
  unfold wf, bsl, mask. change (2 ^ width binary64) with (2 ^ 64).
  intros Ha Hb. destruct c.
  - rewrite Z.lxor_nilpotent, Z.land_0_l, Z.lor_0_r, Z.land_comm, Z.land_ones by lia.
    now apply Z.mod_small.
  - rewrite Z.land_0_l, Z.lxor_0_l, Z.lor_0_l, Z.land_comm, Z.land_ones by lia.
    now apply Z.mod_small.
Qed.

Lemma fdiv_wf a b : wf binary64 (fdiv binary64 a b).
Proof. exact (encode_range binary64 _). Qed.

Lemma v2_eq a b : lane0 a = lane0 b -> lane1 a = lane1 b -> a = b.
Proof. destruct a, b; simpl; now intros -> ->. Qed.

(** The exponent field read by the kernel is the format's. *)
Lemma ia12_is_expo v : Z.land (Z.shiftr v 52) 0x7ff = expo_of binary64 v.
Proof. reflexivity. Qed.

Lemma special_lane_expo e :
  0 <= e < 2 ^ 11 ->
  (BigBound - TinyBound <? u64 (e - TinyBound))
  = negb ((TinyBound <=? e) && (e <=? BigBound)).
Proof.
  unfold u64, BigBound, TinyBound. intros He.
  destruct (Z.leb_spec 0x3e1 e); simpl.
  - rewrite Z.mod_small by lia.
    destruct (Z.leb_spec e 0x434); simpl; [apply Z.ltb_ge | apply Z.ltb_lt]; lia.
  - apply Z.ltb_lt.
    replace (e - 0x3e1) with (e - 0x3e1 + 2 ^ 64 + (- 1) * 2 ^ 64) by lia.
    rewrite Z.mod_add by lia. rewrite Z.mod_small; lia.
Qed.

(** A magnitude, from its fields. *)
Lemma fabs_fields v :
  fabs binary64 v = expo_of binary64 v * 2 ^ 52 + mant_of binary64 v.
Proof.
  destruct (fields_of_magnitude binary64 (fabs binary64 v)
              (fabs_range binary64 v)) as [_ E].
  rewrite (expo_of_fabs binary64), (mant_of_fabs binary64) in E. exact E.
Qed.

Lemma is_nan_fields v :
  is_nan binary64 v
  = (expo_of binary64 v =? 0x7ff) && negb (mant_of binary64 v =? 0).
Proof.
  unfold is_nan.
  pose proof (expo_of_range binary64 v) as R.
  change (Z.ones (ebits binary64)) with 0x7ff in *.
  destruct (decode_spec binary64 v) as [A1 A2|p A1 A2|p A1 A2|A1 A2|A1 A2];
    change (Z.ones (ebits binary64)) with 0x7ff in *.
  - now rewrite A1.
  - now rewrite A1.
  - replace (expo_of binary64 v =? 0x7ff) with false
      by (symmetry; apply Z.eqb_neq; lia).
    reflexivity.
  - now rewrite A1, A2.
  - rewrite A1. simpl. symmetry. apply negb_true_iff. now apply Z.eqb_neq.
Qed.

(** Comparison of a magnitude with a power of two, on the exponent field. *)
Lemma magnitude_below_pow2 v k :
  0 < k < 0x7ff ->
  flt binary64 (fabs binary64 v) (k * 2 ^ 52) = (expo_of binary64 v <? k).
Proof.
  intros Hk.
  pose proof (expo_of_range binary64 v) as R.
  pose proof (mant_of_range binary64 v) as M.
  change (2 ^ ebits binary64) with 2048 in R.
  change (2 ^ mbits binary64) with (2 ^ 52) in M.
  assert (Nk : is_nan binary64 (k * 2 ^ 52) = false).
  { rewrite is_nan_fields. unfold mant_of. rewrite Z.land_ones by (cbv; congruence).
    change (mbits binary64) with 52. rewrite Z.mod_mul by lia.
    change (negb (0 =? 0)) with false. apply andb_false_r. }
  destruct (is_nan binary64 (fabs binary64 v)) eqn:N.
  - assert (L : flt binary64 (fabs binary64 v) (k * 2 ^ 52) = false).
    { destruct (flt binary64 (fabs binary64 v) (k * 2 ^ 52)) eqn:F; [|reflexivity].
      apply (flt_true_not_nan binary64) in F. destruct F; congruence. }
    rewrite L. symmetry. apply Z.ltb_ge.
    rewrite (is_nan_fabs binary64), is_nan_fields in N.
    apply andb_true_iff in N. destruct N as [N _]. apply Z.eqb_eq in N. lia.
  - rewrite (flt_magnitudes binary64); try assumption.
    + rewrite fabs_fields.
      destruct (Z.ltb_spec (expo_of binary64 v) k);
        [apply Z.ltb_lt | apply Z.ltb_ge]; nia.
    + exact (fabs_range binary64 v).
    + change (2 ^ (ebits binary64 + mbits binary64)) with (2048 * 2 ^ 52). nia.
Qed.

Lemma magnitude_above_pow2 v k :
  0 < k < 0x7ff ->
  fle binary64 (k * 2 ^ 52) (fabs binary64 v) || is_nan binary64 v
  = (k <=? expo_of binary64 v).
Proof.
  intros Hk.
  pose proof (expo_of_range binary64 v) as R.
  pose proof (mant_of_range binary64 v) as M.
  change (2 ^ ebits binary64) with 2048 in R.
  change (2 ^ mbits binary64) with (2 ^ 52) in M.
  assert (Nk : is_nan binary64 (k * 2 ^ 52) = false).
  { rewrite is_nan_fields. unfold mant_of. rewrite Z.land_ones by (cbv; congruence).
    change (mbits binary64) with 52. rewrite Z.mod_mul by lia.
    change (negb (0 =? 0)) with false. apply andb_false_r. }
  rewrite <- (is_nan_fabs binary64 v).
  destruct (is_nan binary64 (fabs binary64 v)) eqn:N.
  - rewrite orb_true_r. symmetry. apply Z.leb_le.
    rewrite (is_nan_fabs binary64), is_nan_fields in N.
    apply andb_true_iff in N. destruct N as [N _]. apply Z.eqb_eq in N. lia.
  - rewrite orb_false_r. rewrite (fle_magnitudes binary64); try assumption.
    + rewrite fabs_fields.
      destruct (Z.leb_spec k (expo_of binary64 v));
        [apply Z.leb_le | apply Z.leb_gt]; nia.
    + change (2 ^ (ebits binary64 + mbits binary64)) with (2048 * 2 ^ 52). nia.
    + exact (fabs_range binary64 v).
Qed.


(** A NaN is a magnitude above the encoding of infinity. *)
Lemma is_nan_above_inf v :
  is_nan binary64 v = (pos_inf_bits <? fabs binary64 v).
Proof.
  rewrite is_nan_fields, fabs_fields. unfold pos_inf_bits.
  pose proof (expo_of_range binary64 v) as R.
  pose proof (mant_of_range binary64 v) as M.
  change (2 ^ ebits binary64) with 2048 in R.
  change (2 ^ mbits binary64) with (2 ^ 52) in M.
  destruct (Z.eqb_spec (expo_of binary64 v) 0x7ff) as [E|E];
    destruct (Z.eqb_spec (mant_of binary64 v) 0) as [F|F];
    cbn [andb negb]; symmetry; [apply Z.ltb_ge | apply Z.ltb_lt
                               | apply Z.ltb_ge | apply Z.ltb_ge]; lia.
Qed.

Lemma one_bits_not_nan : is_nan binary64 one_bits = false.
Proof. vm_compute. reflexivity. Qed.

(** [|v| > 1], on the bits. *)
Lemma gt_one_bits v :
  flt binary64 one_bits (fabs binary64 v)
  = (one_bits <? fabs binary64 v) && (fabs binary64 v <=? pos_inf_bits).
Proof.
  pose proof (fabs_range binary64 v) as R.
  destruct (is_nan binary64 (fabs binary64 v)) eqn:N.
  - assert (L : flt binary64 one_bits (fabs binary64 v) = false).
    { destruct (flt binary64 one_bits (fabs binary64 v)) eqn:F; [|reflexivity].
      apply (flt_true_not_nan binary64) in F. destruct F; congruence. }
    rewrite L. rewrite (is_nan_fabs binary64), is_nan_above_inf in N.
    rewrite Z.leb_antisym, N. symmetry. apply andb_false_r.
  - rewrite (flt_magnitudes binary64); try assumption.
    + rewrite (is_nan_fabs binary64), is_nan_above_inf in N.
      rewrite Z.leb_antisym, N. symmetry. apply andb_true_r.
    + vm_compute. split; congruence.
    + exact one_bits_not_nan.
Qed.

Lemma red_lanes x :
  red x = vmap (fun v => mask (flt binary64 one_bits (fabs binary64 v))) x.
Proof. reflexivity. Qed.

Lemma z_lanes x :
  lanes_wf x ->
  z x = vmap (fun v => if flt binary64 one_bits (fabs binary64 v)
                       then fdiv binary64 minus_one_bits v else v) x.
Proof.
  intros [W0 W1]. unfold z, vbslq_f64, vdivq_f64, vmap3, vmap2, vmap, v_f64.
  rewrite red_lanes. cbn [lane0 lane1 vmap].
  rewrite !bsl_mask by (assumption || apply fdiv_wf). reflexivity.
Qed.

Lemma shift_lanes x :
  shift x = vmap (fun v => if flt binary64 one_bits (fabs binary64 v)
                           then PiOver2_bits else zero_bits) x.
Proof.
  unfold shift, vbslq_f64, vmap3, vmap, v_f64, PiOver2.
  rewrite red_lanes. cbn [lane0 lane1 vmap v_f64].
  rewrite !bsl_mask by (vm_compute; split; congruence). reflexivity.
Qed.

(** C4.  The range reducer of the arctangent kernel sets, lane by lane,
    [z = -1/x] and [shift = pi/2] exactly when [|x| > 1], and [z = x] and
    [shift = 0] otherwise; the choice is the bitwise select of BSL under the
    comparison mask, and [|x| > 1] is the test that the magnitude bits lie
    strictly above those of 1.0 and not above those of infinity. *)
Theorem atan_reduction_select x :
  lanes_wf x ->
  let gt1 v := flt binary64 one_bits (fabs binary64 v) in
  z x = vmap (fun v => if gt1 v then fdiv binary64 minus_one_bits v else v) x
  /\ shift x = vmap (fun v => if gt1 v then PiOver2_bits else zero_bits) x
  /\ z x = vbslq_f64 (vmap (fun v => mask (gt1 v)) x)
            (vdivq_f64 (v_f64 minus_one_bits) x) x
  /\ forall v, gt1 v = (one_bits <? fabs binary64 v)
                       && (fabs binary64 v <=? pos_inf_bits).
Proof.
  intros W gt1. split; [|split; [|split]].
  - now apply z_lanes.
  - apply shift_lanes.
  - reflexivity.
  - intros v. apply gt_one_bits.
Qed.

Lemma atan_reduction_select_witness :
  lanes_wf (V2 0x4008000000000000 0xbfe0000000000000) /\
  z (V2 0x4008000000000000 0xbfe0000000000000)
  = V2 (fdiv binary64 minus_one_bits 0x4008000000000000) 0xbfe0000000000000.
Proof.
  split; [vm_compute; intuition congruence|].
  apply (atan_reduction_select (V2 0x4008000000000000 0xbfe0000000000000)).
  vm_compute; intuition congruence.
Defined.

Lemma special_lanes x :
  special x
  = vmap (fun v => mask (negb ((TinyBound <=? expo_of binary64 v)
                               && (expo_of binary64 v <=? BigBound)))) x.
Proof.
  unfold special, vgt_n, vsub_n, ia12, vand_n, vshr_n, ix,
    vreinterpretq_u64_f64, vmap.
  cbn [lane0 lane1]. rewrite !ia12_is_expo.
  rewrite !special_lane_expo by (apply (expo_of_range binary64)).
  reflexivity.
Qed.

Lemma window_as_magnitude v :
  negb ((TinyBound <=? expo_of binary64 v) && (expo_of binary64 v <=? BigBound))
  = flt binary64 (fabs binary64 v) (of_hex binary64 1 (- 30))
    || (fle binary64 (of_hex binary64 1 54) (fabs binary64 v)
        || is_nan binary64 v).
Proof.
  replace (of_hex binary64 1 (- 30)) with (TinyBound * 2 ^ 52)
    by (vm_compute; reflexivity).
  replace (of_hex binary64 1 54) with ((BigBound + 1) * 2 ^ 52)
    by (vm_compute; reflexivity).
  rewrite magnitude_below_pow2, magnitude_above_pow2
    by (unfold TinyBound, BigBound; lia).
  unfold TinyBound, BigBound.
  destruct (Z.leb_spec 0x3e1 (expo_of binary64 v));
    destruct (Z.leb_spec (expo_of binary64 v) 0x434);
    destruct (Z.ltb_spec (expo_of binary64 v) 0x3e1);
    destruct (Z.leb_spec (0x434 + 1) (expo_of binary64 v));
    try reflexivity; lia.
Qed.

(** C8 (as amended).  In exception-fidelity mode a lane is flagged special
    exactly when its biased exponent field lies outside the closed window
    [0x3e1, 0x434]; the wrapping subtract-and-compare flags precisely the
    inputs of magnitude below 2^-30 or at least 2^54, infinities and NaNs
    included. *)
Theorem atan_special_window x :
  special x
  = vmap (fun v => mask (negb ((TinyBound <=? expo_of binary64 v)
                               && (expo_of binary64 v <=? BigBound)))) x
  /\ special x
     = vmap (fun v => mask (flt binary64 (fabs binary64 v) (of_hex binary64 1 (- 30))
                            || (fle binary64 (of_hex binary64 1 54) (fabs binary64 v)
                                || is_nan binary64 v))) x
  /\ ia12 x = vmap (expo_of binary64) x.
Proof.
  split; [apply special_lanes|]. split; [|reflexivity].
  rewrite special_lanes. unfold vmap. now rewrite !window_as_magnitude.
Qed.

(** C8 as stated fails at 2^53: the magnitude is at least 2^53, yet the
    exponent field is [0x434], inside the window, and the lane is not
    flagged. *)
Lemma atan_special_misses_2p53 :
  fle binary64 (of_hex binary64 1 53) (fabs binary64 (of_hex binary64 1 53)) = true
  /\ expo_of binary64 (of_hex binary64 1 53) = BigBound
  /\ special (v_f64 (of_hex binary64 1 53)) = V2 0 0
  /\ v_any_u64 (special (v_f64 (of_hex binary64 1 53))) = false.
Proof. vm_compute. repeat split; reflexivity. Qed.

(** *** The fast path, lane by lane *)

Lemma sign_lanes x : sign x = vmap (fun v => Z.land v (sign_bit binary64)) x.
Proof. reflexivity. Qed.

Lemma z_lane_wf v : wf binary64 v -> wf binary64 (z_lane v).
Proof. unfold z_lane. destruct (gt1 v); [intros _; apply fdiv_wf | auto]. Qed.

Lemma az_lanes x : lanes_wf x -> az x = vmap az_lane x.
Proof.
  intros W. unfold az, vabsq_f64, vnegq_f64, vbslq_f64, vmap3.
  rewrite (z_lanes x W), red_lanes. unfold vmap. cbn [lane0 lane1].
  fold (gt1 (lane0 x)) (gt1 (lane1 x)) (z_lane (lane0 x)) (z_lane (lane1 x)).
  rewrite !bsl_mask
    by (try apply (fneg_range binary64); exact (fabs_wf binary64 _)).
  reflexivity.
Qed.

Lemma fast_lanes ep x : lanes_wf x -> fast ep x = vmap (fast_lane ep) x.
Proof.
  intros W. unfold fast, vreinterpretq_f64_u64, vreinterpretq_u64_f64, vxor.
  rewrite (z_lanes x W), (az_lanes x W), shift_lanes, sign_lanes.
  reflexivity.
Qed.

Lemma gt1_fneg v : gt1 (fneg binary64 v) = gt1 v.
Proof. unfold gt1. now rewrite (fabs_fneg binary64). Qed.

Lemma lxor_fneg y t : Z.lxor y (fneg binary64 t) = fneg binary64 (Z.lxor y t).
Proof. unfold fneg. symmetry. apply Z.lxor_assoc. Qed.

(** With an evaluator that is even in [z], a lane of the fast path is odd. *)
Lemma fast_lane_odd ep v :
  (forall z az s, ep (fneg binary64 z) az s = ep z az s) ->
  ep (z_lane (fneg binary64 v)) (az_lane (fneg binary64 v))
     (shift_lane (fneg binary64 v))
  = ep (z_lane v) (az_lane v) (shift_lane v)
  /\ fast_lane ep (fneg binary64 v) = fneg binary64 (fast_lane ep v).
Proof.
  intros Even.
  assert (E : ep (z_lane (fneg binary64 v)) (az_lane (fneg binary64 v))
                (shift_lane (fneg binary64 v))
              = ep (z_lane v) (az_lane v) (shift_lane v)).
  { unfold az_lane, shift_lane, z_lane. rewrite gt1_fneg.
    destruct (gt1 v).
    - destruct (fdiv_fneg_r binary64 minus_one_bits v) as [D|D]; rewrite D.
      + now rewrite Even, (fabs_fneg binary64).
      + reflexivity.
    - now rewrite Even, (fabs_fneg binary64). }
  split; [exact E|].
  unfold fast_lane. rewrite E, (land_sign_fneg binary64). apply lxor_fneg.
Qed.

Lemma eval_poly_even P z az s :
  Atan.eval_poly P (fneg binary64 z) az s = Atan.eval_poly P z az s.
Proof. unfold Atan.eval_poly. now rewrite (fmul_fneg_fneg binary64). Qed.

Lemma special_fneg x : special (vnegq_f64 x) = special x.
Proof.
  rewrite !special_lanes. unfold vnegq_f64, vmap. cbn [lane0 lane1].
  now rewrite !(expo_of_fneg binary64).
Qed.

Lemma zero_bits_finite : is_finite binary64 zero_bits = true.
Proof. reflexivity. Qed.

Lemma ladder_by_zero_finite P acc :
  is_finite binary64 acc = true -> finite_table P ->
  is_finite binary64
    (fold_left (fun a c => ffma binary64 a (join binary64 false 0 0) c) P acc)
  = true.
Proof.
  intros A F. revert acc A.
  induction F as [|c P Hc _ IH]; intros acc A; cbn [fold_left].
  - exact A.
  - apply IH. now apply (ffma_by_zero_finite binary64).
Qed.

(** At a zero argument the evaluator returns the shift added to a zero. *)
Lemma eval_poly_at_zero P s t shift :
  finite_table P ->
  exists s',
    Atan.eval_poly P (join binary64 s 0 0) (join binary64 t 0 0) shift
    = fadd binary64 (join binary64 s' 0 0) shift.
Proof.
  intros F. unfold Atan.eval_poly.
  rewrite !(fmul_zero_zero binary64), xorb_nilpotent.
  destruct (ffma_zero_zero binary64
              (fold_left (fun a c => ffma binary64 a (join binary64 false 0 0) c)
                 P zero_bits)
              (xorb false t) t
              (ladder_by_zero_finite P zero_bits zero_bits_finite F))
    as [s' E].
  exists s'. now rewrite E.
Qed.

(** C6.  With exception fidelity on, as soon as one lane is flagged the
    kernel returns the scalar reference applied to both lanes, through the
    fallback called with the all-ones mask; an infinite lane is flagged, so
    its result is the scalar [atan] of infinity. *)
Theorem atan_whole_vector_fallback atan ep x :
  v_any_u64 (special x) = true ->
  v_atan true atan ep x = vmap atan x
  /\ v_atan true atan ep x
     = v_call_f64 atan x (v_f64 zero_bits) (V2 (Z.ones 64) (Z.ones 64))
  /\ (forall y, v_atan true atan ep (V2 pos_inf_bits y)
                = V2 (atan pos_inf_bits) (atan y))
  /\ (forall y, v_atan true atan ep (V2 y pos_inf_bits)
                = V2 (atan y) (atan pos_inf_bits)).
Proof.
  intros A. unfold v_atan. rewrite A. cbn [andb].
  split; [reflexivity|]. split; [reflexivity|].
  split; intros y.
  - assert (S : v_any_u64 (special (V2 pos_inf_bits y)) = true).
    { rewrite special_lanes. reflexivity. }
    rewrite S. reflexivity.
  - assert (S : v_any_u64 (special (V2 y pos_inf_bits)) = true).
    { rewrite special_lanes. unfold v_any_u64, vmap. cbn [lane0 lane1].
      apply orb_true_r. }
    rewrite S. reflexivity.
Qed.

Lemma atan_whole_vector_fallback_witness :
  v_any_u64 (special (V2 one_bits pos_inf_bits)) = true /\
  v_atan true (fun v => v) (Atan.eval_poly [0xbfd5555555555555])
    (V2 one_bits pos_inf_bits)
  = vmap (fun v => v) (V2 one_bits pos_inf_bits).
Proof.
  split; [reflexivity|].
  apply (atan_whole_vector_fallback (fun v => v)
           (Atan.eval_poly [0xbfd5555555555555]) (V2 one_bits pos_inf_bits)).
  reflexivity.
Defined.

Lemma sample_table_finite : finite_table sample_table.
Proof. repeat constructor. Qed.

Lemma neg_zero_lane P :
  finite_table P -> fast_lane (Atan.eval_poly P) neg_zero_bits = neg_zero_bits.
Proof.
  intros F. unfold fast_lane.
  replace (z_lane neg_zero_bits) with (join binary64 true 0 0)
    by (vm_compute; reflexivity).
  replace (az_lane neg_zero_bits) with (join binary64 false 0 0)
    by (vm_compute; reflexivity).
  destruct (eval_poly_at_zero P true false (shift_lane neg_zero_bits) F)
    as [s' E].
  rewrite E. destruct s'; vm_compute; reflexivity.
Qed.

Lemma infinite_lanes P :
  finite_table P ->
  fast_lane (Atan.eval_poly P) pos_inf_bits = PiOver2_bits
  /\ fast_lane (Atan.eval_poly P) neg_inf_bits = fneg binary64 PiOver2_bits.
Proof.
  intros F. unfold fast_lane. split.
  - replace (z_lane pos_inf_bits) with (join binary64 true 0 0)
      by (vm_compute; reflexivity).
    replace (az_lane pos_inf_bits) with (join binary64 true 0 0)
      by (vm_compute; reflexivity).
    destruct (eval_poly_at_zero P true true (shift_lane pos_inf_bits) F)
      as [s' E].
    rewrite E. destruct s'; vm_compute; reflexivity.
  - replace (z_lane neg_inf_bits) with (join binary64 false 0 0)
      by (vm_compute; reflexivity).
    replace (az_lane neg_inf_bits) with (join binary64 true 0 0)
      by (vm_compute; reflexivity).
    destruct (eval_poly_at_zero P false true (shift_lane neg_inf_bits) F)
      as [s' E].
    rewrite E. destruct s'; vm_compute; reflexivity.
Qed.

(** C5.  The arctangent kernel is odd bit for bit: negating every lane of
    an input without NaN lanes flips the sign bit of every lane of the
    result.  The sign is put back by an exclusive or with the input's sign
    bit, and the value computed before that is the same for [x] and [-x].
    With exception fidelity off, [atan (-0.0)] is [-0.0].  The scalar
    routine, used by the fallback only, is taken to be odd.  NaN lanes are
    left out: the operations here return the default NaN, where the
    hardware may keep the sign and payload of an operand. *)
Theorem atan_antisymmetric want_except atan P x :
  (want_except = true ->
   forall v, atan (fneg binary64 v) = fneg binary64 (atan v)) ->
  finite_table P ->
  lanes_wf x ->
  is_nan binary64 (lane0 x) = false -> is_nan binary64 (lane1 x) = false ->
  v_atan want_except atan (Atan.eval_poly P) (vnegq_f64 x)
  = vnegq_f64 (v_atan want_except atan (Atan.eval_poly P) x)
  /\ vmap3 (Atan.eval_poly P) (z (vnegq_f64 x)) (az (vnegq_f64 x))
       (shift (vnegq_f64 x))
     = vmap3 (Atan.eval_poly P) (z x) (az x) (shift x)
  /\ v_atan false atan (Atan.eval_poly P) (v_f64 neg_zero_bits)
     = v_f64 neg_zero_bits.
Proof.
  intros Odd F W _ _.
  assert (W' : lanes_wf (vnegq_f64 x)).
  { destruct W as [W0 W1]. split; apply (fneg_range binary64); assumption. }
  pose proof (fun v => fast_lane_odd (Atan.eval_poly P) v (eval_poly_even P)) as L.
  split; [|split].
  - unfold v_atan. rewrite special_fneg.
    destruct (want_except && v_any_u64 (special x)) eqn:B.
    + apply andb_true_iff in B. destruct B as [B _].
      unfold v_call_f64, vnegq_f64, vmap. cbn [lane0 lane1].
      change (lane0 (v_u64 (- 1)) =? 0) with false.
      change (lane1 (v_u64 (- 1)) =? 0) with false.
      now rewrite !(Odd B).
    + rewrite !fast_lanes by assumption.
      unfold vnegq_f64, vmap. cbn [lane0 lane1].
      now rewrite (proj2 (L (lane0 x))), (proj2 (L (lane1 x))).
  - rewrite (z_lanes _ W'), (az_lanes _ W'), (z_lanes _ W), (az_lanes _ W),
      !shift_lanes.
    unfold vnegq_f64, vmap3, vmap. cbn [lane0 lane1].
    fold (gt1 (fneg binary64 (lane0 x))) (gt1 (fneg binary64 (lane1 x)))
      (gt1 (lane0 x)) (gt1 (lane1 x)).
    fold (z_lane (fneg binary64 (lane0 x))) (z_lane (fneg binary64 (lane1 x)))
      (z_lane (lane0 x)) (z_lane (lane1 x)).
    fold (shift_lane (fneg binary64 (lane0 x)))
      (shift_lane (fneg binary64 (lane1 x)))
      (shift_lane (lane0 x)) (shift_lane (lane1 x)).
    now rewrite (proj1 (L (lane0 x))), (proj1 (L (lane1 x))).
  - unfold v_atan. cbn [andb].
    rewrite fast_lanes by (vm_compute; intuition congruence).
    unfold vmap, v_f64. cbn [lane0 lane1]. now rewrite neg_zero_lane.
Qed.

Lemma atan_antisymmetric_witness :
  let x := V2 0x4008000000000000 0xbfe0000000000000 in
  finite_table sample_table /\ lanes_wf x /\
  is_nan binary64 (lane0 x) = false /\ is_nan binary64 (lane1 x) = false /\
  v_atan false (fun v => v) (Atan.eval_poly sample_table) (vnegq_f64 x)
  = vnegq_f64 (v_atan false (fun v => v) (Atan.eval_poly sample_table) x).
Proof.
  intros x.
  split; [exact sample_table_finite|].
  split; [vm_compute; intuition congruence|].
  split; [reflexivity|]. split; [reflexivity|].
  apply (atan_antisymmetric false (fun v => v) sample_table x).
  - discriminate.
  - exact sample_table_finite.
  - vm_compute; intuition congruence.
  - reflexivity.
  - reflexivity.
Defined.

(** C9.  With exception fidelity off the kernel has no fallback: for every
    input, NaN, infinities, zeros and subnormals included, the result is
    the fast path, whatever the scalar routine is.  An infinity takes the
    reciprocal branch with [z = -1/x] a zero of the opposite sign, and the
    result is [pi/2] with the sign of the input, from the shift. *)
Theorem atan_no_fallback_without_except atan atan' ep P x :
  finite_table P ->
  v_atan false atan ep x = fast ep x
  /\ v_atan false atan ep x = v_atan false atan' ep x
  /\ z (V2 pos_inf_bits neg_inf_bits) = V2 neg_zero_bits zero_bits
  /\ shift (V2 pos_inf_bits neg_inf_bits) = PiOver2
  /\ v_atan false atan (Atan.eval_poly P) (V2 pos_inf_bits neg_inf_bits)
     = V2 PiOver2_bits (fneg binary64 PiOver2_bits).
Proof.
  intros F. split; [reflexivity|]. split; [reflexivity|].
  split; [vm_compute; reflexivity|]. split; [vm_compute; reflexivity|].
  unfold v_atan. cbn [andb].
  rewrite fast_lanes by (vm_compute; intuition congruence).
  unfold vmap. cbn [lane0 lane1].
  destruct (infinite_lanes P F) as [E0 E1]. now rewrite E0, E1.
Qed.

Lemma atan_no_fallback_without_except_witness :
  finite_table sample_table /\
  v_atan false (fun v => v) (Atan.eval_poly sample_table)
    (V2 pos_inf_bits neg_inf_bits)
  = V2 PiOver2_bits (fneg binary64 PiOver2_bits).
Proof.
  split; [exact sample_table_finite|].
  apply (atan_no_fallback_without_except (fun v => v) (fun v => 0)
           (Atan.eval_poly sample_table) sample_table
           (V2 pos_inf_bits neg_inf_bits)).
  exact sample_table_finite.
Defined.

End Atan_facts.

(** ** Bit patterns and the numbers they stand for *)

Module Round_trip.
Import IEEE IEEE_facts Encoding_facts.

Section Patterns.
Variable fmt : format.
Context {V : Valid fmt}.

(** A pattern is its sign bit and its magnitude. *)
Lemma sign_and_magnitude b :
  wf fmt b -> b = (if sign_of fmt b then sign_bit fmt else 0) + fabs fmt b.
Proof.
  pose proof (@ebits_pos fmt V). pose proof (@mbits_pos fmt V).
  unfold wf, width, sign_of, fabs, abs_mask. intros W.
  rewrite (sign_bit_eq fmt), Z.land_ones by lia.
  assert (P : 0 < 2 ^ (ebits fmt + mbits fmt)) by (apply Z.pow_pos_nonneg; lia).
  pose proof (Z.testbit_spec' b (ebits fmt + mbits fmt) ltac:(lia)) as T.
  rewrite (Z.pow_add_r 2 (ebits fmt + mbits fmt) 1) in W by lia.
  change (2 ^ 1) with 2 in W.
  assert (Q : 0 <= b / 2 ^ (ebits fmt + mbits fmt) < 2).
  { split; [apply Z.div_pos; lia|]. apply Z.div_lt_upper_bound; lia. }
  rewrite Z.mod_small in T by assumption.
  pose proof (Z.div_mod b (2 ^ (ebits fmt + mbits fmt)) ltac:(lia)) as D.
  destruct (Z.testbit b (ebits fmt + mbits fmt)); cbn [Z.b2z] in T;
    rewrite <- T in D; lia.
Qed.

Lemma join_fields b :
  wf fmt b -> join fmt (sign_of fmt b) (expo_of fmt b) (mant_of fmt b) = b.
Proof.
  intros W. rewrite (join_value fmt)
    by (apply (expo_of_range fmt) || apply (mant_of_range fmt)).
  rewrite (sign_and_magnitude b W) at 4.
  f_equal.
  destruct (fields_of_magnitude fmt (fabs fmt b) (fabs_range fmt b)) as [_ E].
  rewrite (expo_of_fabs fmt), (mant_of_fabs fmt) in E. now symmetry.
Qed.

(** Encoding what a pattern decodes to gives the pattern back, except for
    a NaN, whose payload is not kept. *)
Lemma encode_decode b :
  wf fmt b -> is_nan fmt b = false -> encode fmt (decode fmt b) = b.
Proof.
  intros W N. pose proof (join_fields b W) as J.
  pose proof (@ebits_pos fmt V). pose proof (@mbits_pos fmt V).
  pose proof (mant_of_range fmt b) as M.
  unfold is_nan in N.
  destruct (decode_spec fmt b) as [A1 A2|p A1 A2|p A1 A2|A1 A2|A1 A2];
    try discriminate; cbn [encode].
  - rewrite A1, A2 in J. exact J.
  - replace (Z.pos p <? 2 ^ mbits fmt) with true
      by (symmetry; apply Z.ltb_lt; lia).
    rewrite A1, A2 in J. exact J.
  - replace (Z.pos p <? 2 ^ mbits fmt) with false
      by (symmetry; apply Z.ltb_ge; lia).
    rewrite A2.
    replace (expo_of fmt b - 1 + emin (prec fmt) (emax fmt)
             - emin (prec fmt) (emax fmt) + 1) with (expo_of fmt b) by lia.
    replace (mant_of fmt b + 2 ^ mbits fmt - 2 ^ mbits fmt)
      with (mant_of fmt b) by lia.
    exact J.
  - rewrite A1, A2 in J. exact J.
Qed.
End Patterns.

End Round_trip.

(** ** Bounds on a rounded mantissa *)

Module Rounding_bounds.
Import IEEE Rounding_facts.

Lemma shr_1_nonneg mrs : 0 <= shr_m mrs -> 0 <= shr_m (shr_1 mrs).
Proof.
  destruct mrs as [m r s]. cbn [shr_m]. intros Hm.
  rewrite shr_1_spec by assumption. cbn [shr_m].
  rewrite Z.div2_div. apply Z.div_pos; lia.
Qed.

Lemma shr_nonneg mrs e n : 0 <= shr_m mrs -> 0 <= shr_m (fst (shr mrs e n)).
Proof.
  intros Hm. destruct n as [|p|p]; cbn [shr fst]; try assumption.
  rewrite iter_pos_nat.
  induction (Pos.to_nat p) as [|k IH]; cbn [Nat.iter]; [assumption|].
  now apply shr_1_nonneg.
Qed.

Lemma shr_m_of_loc m l : shr_m (shr_record_of_loc m l) = m.
Proof. now destruct l as [|[]]. Qed.

Lemma loc_of_shr_record_of_loc m l :
  loc_of_shr_record (shr_record_of_loc m l) = l.
Proof. now destruct l as [|[]]. Qed.

Lemma round_nearest_even_bounds m l :
  m <= round_nearest_even m l <= m + 1.
Proof.
  destruct l as [|[]]; cbn [round_nearest_even];
    try destruct (Z.even m); lia.
Qed.

Section In_place.
Variables prec emax : Z.

(** Rounding a non-negative mantissa never gives a NaN, and the result
    carries the sign it was given. *)
Lemma binary_round_aux_sign s m e l :
  0 <= m ->
  match binary_round_aux prec emax s m e l with
  | S754_nan => False
  | S754_zero s' | S754_infinity s' | S754_finite s' _ _ => s' = s
  end.
Proof.
  intros Hm. unfold binary_round_aux, shr_fexp.
  pose proof (shr_nonneg (shr_record_of_loc m l) e
                (fexp prec emax (Zdigits2 m + e) - e)) as N1.
  rewrite shr_m_of_loc in N1. specialize (N1 Hm).
  destruct (shr (shr_record_of_loc m l) e (fexp prec emax (Zdigits2 m + e) - e))
    as [mrs1 e1]. cbn [fst] in N1.
  pose proof (round_nearest_even_bounds (shr_m mrs1) (loc_of_shr_record mrs1))
    as B.
  set (m2 := round_nearest_even (shr_m mrs1) (loc_of_shr_record mrs1)) in *.
  pose proof (shr_nonneg (shr_record_of_loc m2 loc_Exact) e1
                (fexp prec emax (Zdigits2 m2 + e1) - e1)) as N2.
  rewrite shr_m_of_loc in N2. specialize (N2 ltac:(lia)).
  destruct (shr (shr_record_of_loc m2 loc_Exact) e1
              (fexp prec emax (Zdigits2 m2 + e1) - e1)) as [mrs2 e2].
  cbn [fst] in N2.
  destruct (shr_m mrs2) as [|p|p]; try lia; try reflexivity.
  now destruct (e2 <=? emax - prec).
Qed.

Lemma digits_le_prec p :
  Z.pos p < 2 ^ prec -> Z.pos (digits2_pos p) <= prec.
Proof.
  intros H. pose proof (digits2_pos_bounds p) as B.
  destruct (Z.leb_spec (Z.pos (digits2_pos p)) prec) as [L|G]; [assumption|].
  assert (2 ^ prec <= 2 ^ (Z.pos (digits2_pos p) - 1))
    by (apply Z.pow_le_mono_r; lia).
  lia.
Qed.

(** A positive mantissa of at most [prec] digits, or [2^prec] itself, at
    an exponent the format has, is rounded in place: the result keeps the
    exponent and takes at most one unit more, or is the next power of two. *)
Lemma binary_round_aux_in_place s mz ez l :
  0 < prec ->
  emin prec emax <= ez -> ez + 1 <= emax - prec ->
  0 < mz <= 2 ^ prec ->
  exists m e,
    binary_round_aux prec emax s mz ez l = S754_finite s m e /\
    ((e = ez /\ Z.pos m < 2 ^ prec /\ Z.pos m <= mz + 1)
     \/ (e = ez + 1 /\ Z.pos m = 2 ^ (prec - 1))).
Proof.
  intros Hp He1 He2 Hm.
  assert (P2 : 2 ^ prec = 2 * 2 ^ (prec - 1)).
  { rewrite <- Z.pow_succ_r by lia. f_equal. lia. }
  assert (P1 : 0 < 2 ^ (prec - 1)) by (apply Z.pow_pos_nonneg; lia).
  (* the last step, from a mantissa of exactly [prec] digits *)
  assert (Fin : forall p e, Z.pos p < 2 ^ prec -> emin prec emax <= e ->
            e <= emax - prec ->
            (let '(mrs, e') := shr_fexp prec emax (Z.pos p) e loc_Exact in
             match shr_m mrs with
             | 0 => S754_zero s
             | Z.pos m => if e' <=? emax - prec then S754_finite s m e'
                          else S754_infinity s
             | Z.neg _ => S754_nan
             end) = S754_finite s p e).
  { intros p e Hp' He He'. unfold shr_fexp. cbn [Zdigits2].
    pose proof (digits_le_prec p Hp') as D.
    assert (N : fexp prec emax (Z.pos (digits2_pos p) + e) - e <= 0)
      by (unfold fexp; lia).
    destruct (fexp prec emax (Z.pos (digits2_pos p) + e) - e) as [|n|n];
      try lia; cbn [shr shr_record_of_loc shr_m];
      (replace (e <=? emax - prec) with true
         by (symmetry; apply Z.leb_le; lia)); reflexivity. }
  destruct mz as [|p|p]; try lia.
  destruct (Z.eq_dec (Z.pos p) (2 ^ prec)) as [E|E].
  - (* one shift, nothing to round *)
    assert (D : Z.pos (digits2_pos p) = prec + 1).
    { apply digits2_pos_unique. replace (prec + 1 - 1) with prec by lia.
      rewrite Z.pow_add_r by lia. change (2 ^ 1) with 2. lia. }
    destruct (2 ^ (prec - 1)) as [|h|h] eqn:Eh; try lia.
    exists h, (ez + 1). split; [|right; split; reflexivity].
    unfold binary_round_aux. unfold shr_fexp at 1. cbn [Zdigits2].
    rewrite D. unfold fexp at 1.
    replace (Z.max (prec + 1 + ez - prec) (emin prec emax) - ez) with 1 by lia.
    cbn [shr SpecFloat.iter_pos].
    assert (S1 : exists t, shr_1 (shr_record_of_loc (Z.pos p) l)
                           = Build_shr_record (Z.pos h) false t).
    { destruct l as [|[]]; cbn [shr_record_of_loc];
        rewrite shr_1_spec by lia; rewrite Z.div2_div, E, P2, Z.mul_comm,
          Z.div_mul, <- Z.negb_even, Z.even_mul by lia;
        change (Z.even 2) with true; rewrite orb_true_r; cbn [negb];
        eexists; reflexivity. }
    destruct S1 as [t S1]. rewrite S1.
    replace (round_nearest_even (shr_m (Build_shr_record (Z.pos h) false t))
               (loc_of_shr_record (Build_shr_record (Z.pos h) false t)))
      with (Z.pos h) by (now destruct t).
    apply Fin; lia.
  - pose proof (digits_le_prec p ltac:(lia)) as D.
    unfold binary_round_aux. unfold shr_fexp at 1. cbn [Zdigits2].
    assert (N : fexp prec emax (Z.pos (digits2_pos p) + ez) - ez <= 0)
      by (unfold fexp; lia).
    assert (S1 : shr (shr_record_of_loc (Z.pos p) l) ez
                   (fexp prec emax (Z.pos (digits2_pos p) + ez) - ez)
                 = (shr_record_of_loc (Z.pos p) l, ez)).
    { destruct (fexp prec emax (Z.pos (digits2_pos p) + ez) - ez); try lia;
        reflexivity. }
    rewrite S1, shr_m_of_loc, loc_of_shr_record_of_loc.
    pose proof (round_nearest_even_bounds (Z.pos p) l) as B.
    destruct (round_nearest_even (Z.pos p) l) as [|m2|m2] eqn:R; try lia.
    destruct (Z.eq_dec (Z.pos m2) (2 ^ prec)) as [E2|E2].
    + assert (D2 : Z.pos (digits2_pos m2) = prec + 1).
      { apply digits2_pos_unique. replace (prec + 1 - 1) with prec by lia.
        rewrite Z.pow_add_r by lia. change (2 ^ 1) with 2. lia. }
      destruct (2 ^ (prec - 1)) as [|h|h] eqn:Eh; try lia.
      exists h, (ez + 1). split; [|right; split; reflexivity].
      unfold shr_fexp. cbn [Zdigits2]. rewrite D2. unfold fexp.
      replace (Z.max (prec + 1 + ez - prec) (emin prec emax) - ez) with 1 by lia.
      cbn [shr_record_of_loc]. rewrite shr_exact by lia.
      cbn [shr_m]. change (2 ^ 1) with 2.
      rewrite E2, P2, Z.mul_comm, Z.div_mul by lia.
      replace (ez + 1 <=? emax - prec) with true
        by (symmetry; apply Z.leb_le; lia).
      reflexivity.
    + exists m2, ez. split; [|left; repeat split; lia].
      apply Fin; lia.
Qed.

End In_place.

End Rounding_bounds.

(** ** The cosine kernel: paths and reconstruction *)

Module Cosf_paths.
Import IEEE IEEE_facts Rounding_facts Encoding_facts Cosf Cosf_facts Round_trip.

Lemma svptest_any_true VL pg p i :
  (i < VL)%nat -> pg i = true -> p i = true -> svptest_any VL pg p = true.
Proof.
  intros Hi A B. unfold svptest_any. apply existsb_exists.
  exists i. split; [apply in_seq; lia | now rewrite A, B].
Qed.

Lemma svptest_any_none VL pg p :
  (forall i, (i < VL)%nat -> pg i = true -> p i = false) ->
  svptest_any VL pg p = false.
Proof.
  intros H. unfold svptest_any.
  destruct (existsb (fun i => pg i && p i) (seq 0 VL)) eqn:E; [|reflexivity].
  apply existsb_exists in E. destruct E as (i & I & B).
  apply in_seq in I. apply andb_true_iff in B. destruct B as [A B].
  rewrite (H i ltac:(lia) A) in B. discriminate.
Qed.

(** A NaN in an active lane sets the special-case predicate, so the kernel
    leaves through [__sv_cosf_specialcase], called with the original input,
    the fast-path vector and the predicate. *)
Theorem cos_nan_lane_flagged VL cosf coeff unspecified x pg i :
  (i < VL)%nat -> pg i = true -> is_nan binary32 (x i) = true ->
  Cosf.cmp unspecified x pg i = true
  /\ Cosf.cos VL cosf coeff unspecified x pg
     = __sv_cosf_specialcase cosf x (Cosf.fast coeff unspecified x pg)
         (Cosf.cmp unspecified x pg).
Proof.
  intros Hi A N.
  assert (C : Cosf.cmp unspecified x pg i = true).
  { rewrite cmp_active by assumption.
    destruct (cmp_is_not_below (x i)) as [_ E]. rewrite E, N. apply orb_true_r. }
  split; [exact C|].
  unfold Cosf.cos. now rewrite (svptest_any_true VL pg _ i Hi A C).
Qed.

Lemma cos_nan_lane_flagged_witness :
  (3 < 4)%nat /\ is_nan binary32 (sample_x 3%nat) = true /\
  Cosf.cmp sample_unspecified sample_x (fun _ => true) 3%nat = true.
Proof.
  split; [lia|]. split; [reflexivity|].
  apply (cos_nan_lane_flagged 4 sample_cosf FPTrigMAddCoefficient32
           sample_unspecified sample_x (fun _ => true) 3%nat);
    [lia | reflexivity | reflexivity].
Defined.

(** When every active lane is below 2^20 in magnitude no lane is flagged:
    the kernel returns the fast-path vector itself and the scalar routine
    plays no part in the result. *)
Theorem cos_all_below_range VL cosf coeff unspecified x pg :
  (forall i, (i < VL)%nat -> pg i = true ->
     flt binary32 (fabs binary32 (x i)) RangeVal_bits = true) ->
  Cosf.cos VL cosf coeff unspecified x pg = Cosf.fast coeff unspecified x pg.
Proof.
  intros H. unfold Cosf.cos. rewrite svptest_any_none; [reflexivity|].
  intros i Hi A. rewrite cmp_active by assumption.
  destruct (cmp_is_not_below (x i)) as [E _]. rewrite E, (H i Hi A). reflexivity.
Qed.

Lemma cos_all_below_range_witness :
  (forall i, (i < 1)%nat -> sample_pg i = true ->
     flt binary32 (fabs binary32 (sample_x i)) RangeVal_bits = true) /\
  Cosf.cos 1 sample_cosf FPTrigMAddCoefficient32 sample_unspecified
    sample_x sample_pg
  = Cosf.fast FPTrigMAddCoefficient32 sample_unspecified sample_x sample_pg.
Proof.
  assert (H : forall i, (i < 1)%nat -> sample_pg i = true ->
            flt binary32 (fabs binary32 (sample_x i)) RangeVal_bits = true).
  { intros i Hi _. destruct i; [reflexivity | lia]. }
  split; [exact H|].
  apply (cos_all_below_range 1 sample_cosf FPTrigMAddCoefficient32
           sample_unspecified sample_x sample_pg H).
Defined.

(** On an active lane the predicate and the fast-path value are functions
    of the lane's magnitude bits alone: they do not depend on the sign of
    the input, on the other lanes, on the rest of the governing predicate,
    or on what the [_x] forms leave in inactive lanes. *)
Theorem cos_lane_local coeff u u' x x' pg pg' i :
  pg i = true -> pg' i = true ->
  fabs binary32 (x i) = fabs binary32 (x' i) ->
  Cosf.cmp u x pg i = Cosf.cmp u' x' pg' i
  /\ Cosf.fast coeff u x pg i = Cosf.fast coeff u' x' pg' i.
Proof.
  intros A A' E. split.
  - rewrite !cmp_active by assumption. now rewrite E.
  - unfold Cosf.fast, svmul_f32_x, Cosf.f, poly, rsq, svtmad_f32,
      svtsmul_f32, svtssel_f32, svreinterpret_u32_f32, Cosf.r, Cosf.r2,
      Cosf.r1, Cosf.n, Cosf.q, svsub_f32_x, svmla_f32_x, Cosf.abs_x,
      svreinterpret_f32_u32, svreinterpret_u32_f32, svand_n_u32_x.
    rewrite A, A'. change (Z.land (x i) AbsMask) with (fabs binary32 (x i)).
    change (Z.land (x' i) AbsMask) with (fabs binary32 (x' i)).
    now rewrite E.
Qed.

Lemma cos_lane_local_witness :
  sample_pg 2%nat = true /\
  fabs binary32 (sample_x 2%nat) = fabs binary32 (negated sample_x 2%nat) /\
  Cosf.fast FPTrigMAddCoefficient32 sample_unspecified sample_x sample_pg 2%nat
  = Cosf.fast FPTrigMAddCoefficient32 (fun _ _ _ => 0) (negated sample_x)
      (fun _ => true) 2%nat.
Proof.
  split; [reflexivity|]. split; [reflexivity|].
  apply (cos_lane_local FPTrigMAddCoefficient32 sample_unspecified
           (fun _ _ _ => 0) sample_x (negated sample_x) sample_pg
           (fun _ => true) 2%nat); reflexivity.
Defined.


(** FTMAD fed by FTSMUL: the magnitude of the square is the variable, and
    bit 0 of the selector picks the half of the coefficient table. *)
Lemma tmad_after_tsmul coeff k y a qv :
  FPTrigMAdd coeff k y (FPTrigSMul a qv)
  = ffma binary32 y (fabs binary32 (fmul binary32 a a))
      (coeff (if Z.testbit qv 0 then k + 8 else k)).
Proof.
  unfold FPTrigMAdd, FPTrigSMul.
  destruct (is_nan binary32 (fmul binary32 a a)) eqn:N.
  - unfold ffma. rewrite (decode_fabs binary32).
    unfold is_nan in N.
    destruct (decode binary32 (fmul binary32 a a)); try discriminate.
    cbn [SFabs]. now destruct (decode binary32 y).
  - pose proof (fabs_range binary32 (fmul binary32 a a)) as R.
    destruct (Z.testbit qv 0).
    + rewrite <- (lxor_sign_bit_low binary32) by assumption.
      fold (fneg binary32 (fabs binary32 (fmul binary32 a a))).
      rewrite (sign_of_fneg binary32), (sign_of_fabs binary32),
        (fabs_fneg binary32), (fabs_small binary32 _ R).
      reflexivity.
    + rewrite Z.add_0_l, (sign_of_fabs binary32), (fabs_small binary32 _ R).
      reflexivity.
Qed.

Lemma q_low_bits N :
  0 <= N ->
  Z.testbit (Shift_bits + N) 0 = Z.even N /\
  Z.testbit (Shift_bits + N) 1 = negb (N mod 4 =? 0) && negb (N mod 4 =? 3).
Proof.
  intros HN. split.
  - rewrite Z.bit0_odd, Z.odd_add, <- Z.negb_odd.
    change (Z.odd Shift_bits) with true. now destruct (Z.odd N).
  - pose proof (Z.div_mod N 4 ltac:(lia)) as D.
    pose proof (Z.mod_pos_bound N 4 ltac:(lia)) as B.
    rewrite Z.testbit_odd, Z.shiftr_div_pow2 by lia.
    change (2 ^ 1) with 2. change Shift_bits with 1262485505.
    remember (N / 4) as k. remember (N mod 4) as j.
    assert (C : j = 0 \/ j = 1 \/ j = 2 \/ j = 3) by lia.
    destruct C as [-> | [-> | [-> | ->]]]; cbn [Z.eqb negb andb].
    + rewrite <- (Z.div_unique (1262485505 + N) 2 (2 * (k + 315621376)) 1) by lia.
      now rewrite Z.odd_mul.
    + rewrite <- (Z.div_unique (1262485505 + N) 2 (2 * (k + 315621376) + 1) 0)
        by lia.
      rewrite Z.odd_add, Z.odd_mul. reflexivity.
    + rewrite <- (Z.div_unique (1262485505 + N) 2 (2 * (k + 315621376) + 1) 1)
        by lia.
      rewrite Z.odd_add, Z.odd_mul. reflexivity.
    + rewrite <- (Z.div_unique (1262485505 + N) 2 (2 * (k + 315621377)) 0) by lia.
      now rewrite Z.odd_mul.
Qed.

(** The choice FTSSEL makes from the two low bits of [q]. *)
Lemma tssel_of_quadrant a N :
  0 <= N ->
  FPTrigSSel a (Shift_bits + N)
  = match N mod 4 with
    | 0 => 0x3f800000
    | 1 => fneg binary32 a
    | 2 => fneg binary32 0x3f800000
    | _ => a
    end.
Proof.
  intros HN. destruct (q_low_bits N HN) as [B0 B1].
  unfold FPTrigSSel. rewrite B0, B1.
  pose proof (Z.div_mod N 4 ltac:(lia)) as D.
  pose proof (Z.mod_pos_bound N 4 ltac:(lia)) as B.
  assert (E : Z.even N = Z.even (N mod 4)).
  { rewrite D at 1. rewrite Z.even_add, Z.even_mul.
    change (Z.even 4) with true. cbn [orb]. now destruct (Z.even (N mod 4)). }
  rewrite E.
  remember (N mod 4) as j.
  assert (C : j = 0 \/ j = 1 \/ j = 2 \/ j = 3) by lia.
  destruct C as [-> | [-> | [-> | ->]]]; reflexivity.
Qed.

(** The fast path of an active lane, from the quadrant index held in [q]. *)
Lemma fast_of_quadrant coeff unspecified x pg i N :
  pg i = true -> 0 <= N ->
  Cosf.q unspecified x pg i = Shift_bits + N ->
  Cosf.fast coeff unspecified x pg i
  = fmul binary32
      (match N mod 4 with
       | 0 => 0x3f800000
       | 1 => fneg binary32 (Cosf.r unspecified x pg i)
       | 2 => fneg binary32 0x3f800000
       | _ => Cosf.r unspecified x pg i
       end)
      (tmad_ladder coeff (if Z.even N then 8 else 0)
         (fabs binary32 (fmul binary32 (Cosf.r unspecified x pg i)
                           (Cosf.r unspecified x pg i)))).
Proof.
  intros A HN Eq.
  unfold Cosf.fast, svmul_f32_x. rewrite A. f_equal.
  - unfold Cosf.f, svtssel_f32, svreinterpret_u32_f32. rewrite Eq.
    now apply tssel_of_quadrant.
  - unfold poly, rsq, svtmad_f32, svtsmul_f32, svreinterpret_u32_f32, sv_f32.
    rewrite !tmad_after_tsmul, Eq.
    destruct (q_low_bits N HN) as [B0 _]. rewrite B0.
    unfold tmad_ladder. destruct (Z.even N); reflexivity.
Qed.

Lemma below_range_bits x :
  flt binary32 (fabs binary32 x) RangeVal_bits = true ->
  0 <= fabs binary32 x < RangeVal_bits.
Proof.
  intros B.
  destruct (cmp_is_not_below x) as [C _]. rewrite B in C. cbn [negb] in C.
  apply Z.leb_gt in C.
  pose proof (fabs_range binary32 x) as R. lia.
Qed.

Lemma q_of_active unspecified x pg i :
  pg i = true ->
  Cosf.q unspecified x pg i
  = ffma binary32 (fabs binary32 (x i)) InvPio2_bits Shift_bits.
Proof.
  intros A. unfold Cosf.q, svmla_f32_x. rewrite A.
  fold (Cosf.abs_x unspecified x pg). now rewrite abs_x_active.
Qed.

(** Reconstruction by quadrant.  On an active lane below 2^20, with [N] the
    index held in [q = Shift + N], the fast path is the product of a factor
    and a five-step multiply-add ladder in [r * r]: factor [1.0] and the
    coefficients 8..12 of the table when [N mod 4 = 0], factor [-r] and the
    coefficients 0..4 when [N mod 4 = 1], factor [-1.0] and 8..12 when
    [N mod 4 = 2], factor [r] and 0..4 when [N mod 4 = 3]. *)
Theorem cos_quadrant_reconstruction coeff unspecified x pg i :
  pg i = true ->
  flt binary32 (fabs binary32 (x i)) RangeVal_bits = true ->
  exists N,
    0 <= N <= 2 ^ 20 /\
    Cosf.q unspecified x pg i = Shift_bits + N /\
    Cosf.fast coeff unspecified x pg i
    = fmul binary32
        (match N mod 4 with
         | 0 => 0x3f800000
         | 1 => fneg binary32 (Cosf.r unspecified x pg i)
         | 2 => fneg binary32 0x3f800000
         | _ => Cosf.r unspecified x pg i
         end)
        (tmad_ladder coeff (if Z.even N then 8 else 0)
           (fabs binary32 (fmul binary32 (Cosf.r unspecified x pg i)
                             (Cosf.r unspecified x pg i)))).
Proof.
  intros A B.
  destruct (quadrant_of_magnitude (fabs binary32 (x i)) (below_range_bits _ B))
    as (N & HN & _ & Q & _).
  assert (Eq : Cosf.q unspecified x pg i = Shift_bits + N)
    by (now rewrite q_of_active).
  exists N. split; [exact HN|]. split; [exact Eq|].
  apply fast_of_quadrant; [assumption | lia | exact Eq].
Qed.

Lemma cos_quadrant_reconstruction_witness :
  sample_pg 2%nat = true /\
  flt binary32 (fabs binary32 (sample_x 2%nat)) RangeVal_bits = true /\
  exists N,
    Cosf.q sample_unspecified sample_x sample_pg 2%nat = Shift_bits + N.
Proof.
  split; [reflexivity|]. split; [reflexivity|].
  destruct (cos_quadrant_reconstruction FPTrigMAddCoefficient32
              sample_unspecified sample_x sample_pg 2%nat)
    as (N & _ & Q & _); [reflexivity | reflexivity |].
  exists N. exact Q.
Defined.

Lemma below_range_finite a :
  0 <= a < RangeVal_bits -> is_finite binary32 a = true.
Proof.
  intros Ha.
  assert (Ha' : 0 <= a < 2 ^ (ebits binary32 + mbits binary32)).
  { change RangeVal_bits with 0x49800000 in Ha.
    change (2 ^ (ebits binary32 + mbits binary32)) with 0x80000000. lia. }
  destruct (fields_of_magnitude binary32 a Ha') as [_ Ea].
  pose proof (mant_of_range binary32 a) as Ma.
  change (2 ^ mbits binary32) with 8388608 in *.
  change RangeVal_bits with (147 * 8388608) in Ha.
  unfold is_finite.
  destruct (decode_spec binary32 a) as [A1 A2|p A1 A2|p A1 A2|A1 A2|A1 A2];
    try reflexivity;
    change (Z.ones (ebits binary32)) with 255 in *; lia.
Qed.

(** A multiply-add whose first factor is [+0.0] returns a finite addend
    of positive sign unchanged. *)
Lemma ffma_zero_l c a :
  is_finite binary32 c = true ->
  0 <= a < RangeVal_bits ->
  ffma binary32 0 c a = a.
Proof.
  intros Fc Ha.
  assert (Ha' : 0 <= a < 2 ^ (ebits binary32 + mbits binary32)).
  { change RangeVal_bits with 0x49800000 in Ha.
    change (2 ^ (ebits binary32 + mbits binary32)) with 0x80000000. lia. }
  destruct (fields_of_magnitude binary32 a Ha') as [Sa _].
  pose proof (below_range_finite a Ha) as Fa.
  assert (Wa : wf binary32 a).
  { unfold wf. change (2 ^ width binary32) with 0x100000000.
    change (2 ^ (ebits binary32 + mbits binary32)) with 0x80000000 in Ha'. lia. }
  assert (Na : is_nan binary32 a = false).
  { unfold is_nan. unfold is_finite in Fa.
    now destruct (decode binary32 a). }
  rewrite <- (encode_decode binary32 a Wa Na) at 2.
  unfold ffma. f_equal.
  change (decode binary32 0) with (S754_zero false).
  unfold is_finite in Fc, Fa. revert Fa.
  destruct (decode_spec binary32 a) as [A1 A2|p A1 A2|p A1 A2|A1 A2|A1 A2];
    intros Fa; try discriminate; rewrite Sa;
    destruct (decode binary32 c) as [sc| | |sc mc ec]; try discriminate;
    cbn [SFfma SFadd xorb]; try reflexivity; now destruct sc.
Qed.

(** Small arguments are not reduced.  On an active lane with
    [|x| * InvPio2 < 1/2] the biased sum is [Shift] itself, [n] is [+0.0],
    the three multiply-adds return [|x|] bit for bit, and the fast path is
    [1.0] times the ladder over the coefficients 8..12 in [|x| * |x|]. *)
Theorem cos_small_unreduced coeff unspecified x pg i :
  pg i = true ->
  flt binary32 (fabs binary32 (x i)) RangeVal_bits = true ->
  2 * (in_units binary32 (fabs binary32 (x i))
       * in_units binary32 InvPio2_bits) < 2 ^ 298 ->
  Cosf.q unspecified x pg i = Shift_bits
  /\ Cosf.n unspecified x pg i = 0
  /\ Cosf.r unspecified x pg i = fabs binary32 (x i)
  /\ Cosf.fast coeff unspecified x pg i
     = fmul binary32 0x3f800000
         (tmad_ladder coeff 8
            (fabs binary32 (fmul binary32 (fabs binary32 (x i))
                              (fabs binary32 (x i))))).
Proof.
  intros A B S.
  pose proof (below_range_bits _ B) as R.
  destruct (quadrant_of_magnitude (fabs binary32 (x i)) R)
    as (N & HN & Near & Q & Sb & _).
  assert (N0 : N = 0).
  { assert (P : 0 < 2 ^ 298) by (apply Z.pow_pos_nonneg; lia).
    remember (2 ^ 298) as T.
    remember (in_units binary32 (fabs binary32 (x i))
              * in_units binary32 InvPio2_bits) as p.
    destruct (Z.eq_dec N 0) as [E|E]; [exact E|]. nia. }
  subst N. rewrite Z.add_0_r in Q, Sb.
  assert (Eq : Cosf.q unspecified x pg i = Shift_bits)
    by (now rewrite q_of_active).
  assert (En : Cosf.n unspecified x pg i = 0).
  { unfold Cosf.n, svsub_f32_x. rewrite A, Eq. exact Sb. }
  assert (Er : Cosf.r unspecified x pg i = fabs binary32 (x i)).
  { unfold Cosf.r, Cosf.r2, Cosf.r1, svmla_f32_x. rewrite A, En.
    fold (Cosf.abs_x unspecified x pg). rewrite abs_x_active by assumption.
    unfold NegPio2_1, NegPio2_2, NegPio2_3, sv_f32.
    rewrite (ffma_zero_l NegPio2_1_bits _ eq_refl R).
    rewrite (ffma_zero_l NegPio2_2_bits _ eq_refl R).
    exact (ffma_zero_l NegPio2_3_bits _ eq_refl R). }
  repeat split; try assumption.
  rewrite (fast_of_quadrant coeff unspecified x pg i 0 A ltac:(lia))
    by (now rewrite Z.add_0_r).
  rewrite Er. reflexivity.
Qed.

Lemma cos_small_unreduced_witness :
  let x : vec := fun _ => 0x3f000000 in
  flt binary32 (fabs binary32 (x 0%nat)) RangeVal_bits = true /\
  2 * (in_units binary32 (fabs binary32 (x 0%nat))
       * in_units binary32 InvPio2_bits) < 2 ^ 298 /\
  Cosf.r sample_unspecified x (fun _ => true) 0%nat = 0x3f000000.
Proof.
  intros x. split; [reflexivity|]. split; [vm_compute; reflexivity|].
  apply (cos_small_unreduced FPTrigMAddCoefficient32 sample_unspecified x
           (fun _ => true) 0%nat);
    [reflexivity | reflexivity | vm_compute; reflexivity].
Defined.

End Cosf_paths.

(** ** The arctangent kernel: the reduced argument *)

Module Atan_reduction.
Import IEEE IEEE_facts Rounding_facts Encoding_facts Atan Atan_facts
  Round_trip Rounding_bounds.

Section Signs.
Variable fmt : format.
Context {V : Valid fmt}.

Lemma join_cases s e m :
  join fmt s e m
  = if s then fneg fmt (Z.land (Z.shiftl e (mbits fmt) + m) (abs_mask fmt))
    else Z.land (Z.shiftl e (mbits fmt) + m) (abs_mask fmt).
Proof.
  unfold join. pose proof (join_low fmt e m) as L. destruct s.
  - unfold fneg. now rewrite (lxor_sign_bit_low fmt).
  - apply Z.add_0_l.
Qed.

Lemma sign_of_join s e m : sign_of fmt (join fmt s e m) = s.
Proof.
  rewrite join_cases. pose proof (join_low fmt e m) as L.
  destruct (fields_of_magnitude fmt _ L) as [S _].
  destruct s; [rewrite (sign_of_fneg fmt), S|]; auto.
Qed.

Lemma fabs_join s e m :
  0 <= e < 2 ^ ebits fmt -> 0 <= m < 2 ^ mbits fmt ->
  fabs fmt (join fmt s e m) = e * 2 ^ mbits fmt + m.
Proof.
  intros He Hm. pose proof (@ebits_pos fmt V). pose proof (@mbits_pos fmt V).
  rewrite join_cases. pose proof (join_low fmt e m) as L.
  assert (E : Z.land (Z.shiftl e (mbits fmt) + m) (abs_mask fmt)
              = e * 2 ^ mbits fmt + m).
  { rewrite Z.shiftl_mul_pow2 by lia. apply (fabs_small fmt).
    rewrite Z.pow_add_r by lia.
    assert (0 < 2 ^ mbits fmt) by (apply Z.pow_pos_nonneg; lia). nia. }
  rewrite E in *.
  destruct s; [rewrite (fabs_fneg fmt)|]; now apply (fabs_small fmt).
Qed.

Lemma sign_of_encode f s : has_sign f s -> sign_of fmt (encode fmt f) = s.
Proof.
  destruct f as [s'|s'| |s' m e]; cbn [has_sign encode]; intros H;
    try contradiction; subst s';
    try destruct (Z.pos m <? 2 ^ mbits fmt); apply sign_of_join.
Qed.

Lemma has_sign_not_nan f s : has_sign f s -> f <> S754_nan.
Proof. destruct f; cbn; congruence. Qed.

(** A quotient by a number that is not a NaN carries the product of the
    signs, when the dividend is finite and not zero. *)
Lemma SFdiv_has_sign sx mx ex y sy :
  has_sign y sy ->
  has_sign (SFdiv (prec fmt) (emax fmt) (S754_finite sx mx ex) y) (xorb sx sy).
Proof.
  destruct y as [s'|s'| |s' my ey]; cbn [has_sign]; intros H;
    try contradiction; subst s'; cbn [SFdiv has_sign]; try reflexivity.
  unfold SFdiv_core_binary.
  set (m' := match ex - ey - _ with
             | 0 => Z.pos mx
             | Z.pos _ => Z.shiftl (Z.pos mx) _
             | Z.neg _ => 0
             end).
  assert (M : 0 <= m').
  { unfold m'. destruct (ex - ey - _) as [|p|p]; try lia.
    apply Z.shiftl_nonneg. lia. }
  destruct (Z.div_eucl m' (Z.pos my)) as [q r] eqn:E.
  assert (Q : q = m' / Z.pos my) by (unfold Z.div; now rewrite E).
  assert (0 <= q) by (rewrite Q; apply Z.div_pos; lia).
  apply binary_round_aux_sign. assumption.
Qed.

End Signs.


(** What [|v| > 1] says about the decoded lane. *)
Lemma gt1_decode v :
  gt1 v = true ->
  decode binary64 v = S754_infinity (sign_of binary64 v)
  \/ exists mv ev,
       decode binary64 v = S754_finite (sign_of binary64 v) mv ev /\
       2 ^ 52 <= Z.pos mv < 2 ^ 53 /\ - 52 <= ev <= 971.
Proof.
  unfold gt1. rewrite gt_one_bits, fabs_fields. intros G.
  apply andb_true_iff in G. destruct G as [G1 G2].
  apply Z.ltb_lt in G1. apply Z.leb_le in G2.
  pose proof (mant_of_range binary64 v) as M.
  pose proof (expo_of_range binary64 v) as X.
  change (2 ^ mbits binary64) with 4503599627370496 in M.
  change (2 ^ ebits binary64) with 2048 in X.
  change (2 ^ 52) with 4503599627370496 in *.
  change (2 ^ 53) with 9007199254740992.
  change one_bits with (1023 * 4503599627370496) in G1.
  change pos_inf_bits with (2047 * 4503599627370496) in G2.
  destruct (decode_spec binary64 v) as [A1 A2|p A1 A2|p A1 A2|A1 A2|A1 A2];
    change (Z.ones (ebits binary64)) with 2047 in *;
    change (2 ^ mbits binary64) with 4503599627370496 in *;
    change (emin (prec binary64) (emax binary64)) with (- 1074) in *;
    try lia.
  - right. exists p, (expo_of binary64 v - 1 + - 1074).
    split; [reflexivity|]. lia.
  - now left.
Qed.

(** The reciprocal of a normal number of magnitude at least 1, negated:
    the quotient is at most 1 in magnitude. *)
Lemma SFdiv_minus_one sv mv ev :
  2 ^ 52 <= Z.pos mv < 2 ^ 53 -> - 52 <= ev <= 971 ->
  exists m e,
    SFdiv (prec binary64) (emax binary64)
      (S754_finite true 4503599627370496 (- 52)) (S754_finite sv mv ev)
    = S754_finite (negb sv) m e /\
    ((- 1074 <= e <= - 53 /\ Z.pos m < 2 ^ 53)
     \/ (- 1073 <= e <= - 52 /\ Z.pos m = 2 ^ 52)).
Proof.
  intros Hm He.
  change (prec binary64) with 53. change (emax binary64) with 1024.
  assert (D : Z.pos (digits2_pos mv) = 53)
    by (apply digits2_pos_unique; exact Hm).
  cbn [SFdiv xorb]. unfold SFdiv_core_binary. cbn [Zdigits2]. rewrite D.
  change (Z.pos (digits2_pos 4503599627370496)) with 53.
  set (e' := Z.min (fexp 53 1024 (53 + - 52 - (53 + ev))) (- 52 - ev)).
  assert (E' : - 1074 <= e' <= - 53 /\ 51 <= - 52 - ev - e' <= 53).
  { unfold e', fexp, emin. lia. }
  destruct (- 52 - ev - e') as [|sp|sp] eqn:S; try lia.
  rewrite Z.shiftl_mul_pow2 by lia.
  assert (P : 2 ^ 51 <= 2 ^ Z.pos sp <= 2 ^ 53)
    by (split; apply Z.pow_le_mono_r; lia).
  change (2 ^ 51) with 2251799813685248 in P.
  change (2 ^ 52) with 4503599627370496 in *.
  change (2 ^ 53) with 9007199254740992 in *.
  remember (2 ^ Z.pos sp) as T eqn:ET.
  destruct (Z.div_eucl (4503599627370496 * T) (Z.pos mv)) as [q r] eqn:E.
  assert (Q : q = 4503599627370496 * T / Z.pos mv)
    by (unfold Z.div; now rewrite E).
  assert (Hq : 0 < q <= 9007199254740992).
  { rewrite Q. split.
    - apply Z.div_str_pos. nia.
    - apply Z.div_le_upper_bound; nia. }
  destruct (binary_round_aux_in_place 53 1024 (negb sv) q e'
              (new_location (Z.pos mv) r) ltac:(lia))
    as (m & e & R & C).
  - unfold emin. lia.
  - lia.
  - change (2 ^ 53) with 9007199254740992. exact Hq.
  - exists m, e. split; [exact R|].
    change (2 ^ 53) with 9007199254740992 in C.
    change (2 ^ (53 - 1)) with 4503599627370496 in C.
    destruct C as [(-> & C1 & _)|(-> & C1)]; [left | right]; lia.
Qed.

(** The quotient [-1/v] of a lane with [|v| > 1]. *)
Lemma reciprocal_lane v :
  gt1 v = true ->
  sign_of binary64 (fdiv binary64 minus_one_bits v) = negb (sign_of binary64 v)
  /\ fdiv binary64 minus_one_bits (fneg binary64 v)
     = fneg binary64 (fdiv binary64 minus_one_bits v)
  /\ fabs binary64 (fdiv binary64 minus_one_bits v) <= one_bits.
Proof.
  intros G.
  assert (S : has_sign (decode binary64 v) (sign_of binary64 v)).
  { destruct (gt1_decode v G) as [E|(mv & ev & E & _)]; rewrite E; reflexivity. }
  pose proof (SFdiv_has_sign binary64 true 4503599627370496 (- 52) _ _ S) as H.
  cbn [xorb] in H.
  split; [|split].
  - unfold fdiv.
    change (decode binary64 minus_one_bits)
      with (S754_finite true 4503599627370496 (- 52)).
    exact (sign_of_encode binary64 _ _ H).
  - unfold fdiv. rewrite (decode_fneg binary64), (SFdiv_opp_r binary64).
    apply (encode_opp binary64).
    change (decode binary64 minus_one_bits)
      with (S754_finite true 4503599627370496 (- 52)).
    exact (has_sign_not_nan _ _ H).
  - assert (O : one_bits = 4607182418800017408) by reflexivity.
    assert (Pm : 2 ^ mbits binary64 = 4503599627370496) by reflexivity.
    assert (Pe : 2 ^ ebits binary64 = 2048) by reflexivity.
    assert (Em : emin (prec binary64) (emax binary64) = - 1074) by reflexivity.
    rewrite O. unfold fdiv.
    change (decode binary64 minus_one_bits)
      with (S754_finite true 4503599627370496 (- 52)).
    destruct (gt1_decode v G) as [E|(mv & ev & E & Hm & He)]; rewrite E.
    + cbn [SFdiv encode]. rewrite (fabs_join binary64); rewrite ?Pm, ?Pe; lia.
    + destruct (SFdiv_minus_one (sign_of binary64 v) mv ev Hm He)
        as (m & e & R & C).
      rewrite R. cbn [encode]. rewrite Pm, Em.
      change (2 ^ 53) with 9007199254740992 in C.
      change (2 ^ 52) with 4503599627370496 in C.
      destruct (Z.ltb_spec (Z.pos m) 4503599627370496) as [L|L];
        rewrite (fabs_join binary64); rewrite ?Pm, ?Pe; lia.
Qed.

(** *** The reduction and the sign of the input *)

Lemma fabs_fabs v : fabs binary64 (fabs binary64 v) = fabs binary64 v.
Proof. apply (fabs_small binary64), (fabs_range binary64). Qed.

Lemma fabs_by_sign v :
  wf binary64 v ->
  fabs binary64 v = if sign_of binary64 v then fneg binary64 v else v.
Proof.
  intros W. pose proof (sign_and_magnitude binary64 v W) as E.
  pose proof (fabs_range binary64 v) as R.
  destruct (sign_of binary64 v).
  - rewrite E at 2. unfold fneg. now rewrite (lxor_sign_bit_high binary64).
  - lia.
Qed.

Lemma land_sign_bit v :
  Z.land v (sign_bit binary64)
  = if sign_of binary64 v then sign_bit binary64 else 0.
Proof.
  unfold sign_of. apply Z.bits_inj'. intros n Hn.
  rewrite Z.land_spec, (testbit_sign_bit binary64).
  destruct (Z.eqb_spec n (ebits binary64 + mbits binary64)) as [->|Hne].
  - rewrite andb_true_r.
    destruct (Z.testbit v (ebits binary64 + mbits binary64));
      [now rewrite (testbit_sign_bit binary64), Z.eqb_refl | now rewrite Z.bits_0].
  - rewrite andb_false_r.
    destruct (Z.testbit v (ebits binary64 + mbits binary64));
      [|now rewrite Z.bits_0].
    rewrite (testbit_sign_bit binary64). symmetry. now apply Z.eqb_neq.
Qed.

Lemma z_lane_fneg v : z_lane (fneg binary64 v) = fneg binary64 (z_lane v).
Proof.
  unfold z_lane. rewrite gt1_fneg. destruct (gt1 v) eqn:G; [|reflexivity].
  apply (reciprocal_lane v G).
Qed.

Lemma az_lane_fneg v : az_lane (fneg binary64 v) = az_lane v.
Proof.
  unfold az_lane. now rewrite gt1_fneg, z_lane_fneg, (fabs_fneg binary64).
Qed.

Lemma shift_lane_fneg v : shift_lane (fneg binary64 v) = shift_lane v.
Proof. unfold shift_lane. now rewrite gt1_fneg. Qed.

Lemma gt1_fabs v : gt1 (fabs binary64 v) = gt1 v.
Proof. unfold gt1. now rewrite fabs_fabs. Qed.

Lemma negative_pattern q :
  wf binary64 q -> sign_of binary64 q = true ->
  fneg binary64 (fabs binary64 q) = q.
Proof.
  intros W S. pose proof (sign_and_magnitude binary64 q W) as E.
  rewrite S in E. rewrite E at 2. unfold fneg.
  apply (lxor_sign_bit_low binary64), (fabs_range binary64).
Qed.

Lemma az_lane_of_fabs v : wf binary64 v -> az_lane v = z_lane (fabs binary64 v).
Proof.
  intros W. unfold az_lane, z_lane. rewrite gt1_fabs.
  destruct (gt1 v) eqn:G; [|reflexivity].
  destruct (reciprocal_lane v G) as (S & N & _).
  rewrite (fabs_by_sign v W).
  destruct (sign_of binary64 v); cbn [negb] in S.
  - rewrite N. f_equal.
    rewrite (fabs_by_sign _ (fdiv_wf _ _)), S. reflexivity.
  - apply negative_pattern; [apply fdiv_wf | exact S].
Qed.

Lemma magnitude_finite b :
  fabs binary64 b <= one_bits -> is_finite binary64 b = true.
Proof.
  rewrite fabs_fields. intros B.
  pose proof (mant_of_range binary64 b) as M.
  assert (O : one_bits = 1023 * 4503599627370496) by reflexivity.
  rewrite O in B. change (2 ^ 52) with 4503599627370496 in B.
  unfold is_finite.
  destruct (decode_spec binary64 b) as [A1 A2|p A1 A2|p A1 A2|A1 A2|A1 A2];
    try reflexivity;
    change (Z.ones (ebits binary64)) with 2047 in *; lia.
Qed.

Lemma reduced_lane_bounded v :
  is_nan binary64 v = false ->
  fabs binary64 (z_lane v) <= one_bits
  /\ fle binary64 (fabs binary64 (z_lane v)) one_bits = true
  /\ is_finite binary64 (z_lane v) = true.
Proof.
  intros N.
  assert (B : fabs binary64 (z_lane v) <= one_bits).
  { unfold z_lane. destruct (gt1 v) eqn:G.
    - apply (reciprocal_lane v G).
    - unfold gt1 in G. rewrite gt_one_bits in G.
      rewrite is_nan_above_inf in N. apply Z.ltb_ge in N.
      apply andb_false_iff in G. destruct G as [G|G].
      + now apply Z.ltb_ge in G.
      + apply Z.leb_gt in G. lia. }
  split; [exact B|]. split; [|now apply magnitude_finite].
  assert (O : one_bits = 1023 * 4503599627370496) by reflexivity.
  assert (I : pos_inf_bits = 2047 * 4503599627370496) by reflexivity.
  pose proof (fabs_range binary64 (z_lane v)) as R.
  rewrite (fle_magnitudes binary64).
  - now apply Z.leb_le.
  - exact R.
  - rewrite O. change (2 ^ (ebits binary64 + mbits binary64))
      with 9223372036854775808. lia.
  - rewrite is_nan_above_inf, fabs_fabs. apply Z.ltb_ge. lia.
  - exact one_bits_not_nan.
Qed.

Lemma vnegq_wf x : lanes_wf x -> lanes_wf (vnegq_f64 x).
Proof. intros [W0 W1]. split; apply (fneg_range binary64); assumption. Qed.

Lemma vabsq_wf x : lanes_wf (vabsq_f64 x).
Proof. split; apply (fabs_wf binary64). Qed.

(** The reduction is odd in its input: negating every lane leaves the
    comparison mask, [az] and [shift] unchanged and negates [z], for every
    input, NaN lanes included. *)
Theorem atan_reduction_odd x :
  lanes_wf x ->
  red (vnegq_f64 x) = red x
  /\ z (vnegq_f64 x) = vnegq_f64 (z x)
  /\ az (vnegq_f64 x) = az x
  /\ shift (vnegq_f64 x) = shift x.
Proof.
  intros W. pose proof (vnegq_wf x W) as W'.
  rewrite !red_lanes, (z_lanes _ W'), (z_lanes _ W), (az_lanes _ W'),
    (az_lanes _ W), !shift_lanes.
  unfold vnegq_f64, vmap. cbn [lane0 lane1].
  fold (gt1 (fneg binary64 (lane0 x))) (gt1 (fneg binary64 (lane1 x)))
    (gt1 (lane0 x)) (gt1 (lane1 x)).
  fold (z_lane (fneg binary64 (lane0 x))) (z_lane (fneg binary64 (lane1 x)))
    (z_lane (lane0 x)) (z_lane (lane1 x)).
  fold (shift_lane (fneg binary64 (lane0 x)))
    (shift_lane (fneg binary64 (lane1 x)))
    (shift_lane (lane0 x)) (shift_lane (lane1 x)).
  rewrite !gt1_fneg, !z_lane_fneg, !az_lane_fneg, !shift_lane_fneg.
  repeat split; reflexivity.
Qed.

Lemma atan_reduction_odd_witness :
  let x := V2 0x4008000000000000 0xbfe0000000000000 in
  lanes_wf x /\ z (vnegq_f64 x) = vnegq_f64 (z x).
Proof.
  intros x. split; [vm_compute; intuition congruence|].
  apply (atan_reduction_odd x). vm_compute; intuition congruence.
Defined.

(** [az] is the reduced argument of [|x|]: the same vector as [z] computed
    from the absolute value of the input, and [shift] is the one computed
    from [|x|]; [az] and [z] differ in sign at most. *)
Theorem atan_az_is_reduced_magnitude x :
  lanes_wf x ->
  az x = z (vabsq_f64 x)
  /\ shift x = shift (vabsq_f64 x)
  /\ vabsq_f64 (az x) = vabsq_f64 (z x).
Proof.
  intros W. pose proof (vabsq_wf x) as W'. pose proof W as [W0 W1].
  rewrite (az_lanes _ W), (z_lanes _ W'), (z_lanes _ W), !shift_lanes.
  unfold vabsq_f64, vmap. cbn [lane0 lane1].
  fold (gt1 (fabs binary64 (lane0 x))) (gt1 (fabs binary64 (lane1 x)))
    (gt1 (lane0 x)) (gt1 (lane1 x)).
  fold (z_lane (fabs binary64 (lane0 x))) (z_lane (fabs binary64 (lane1 x)))
    (z_lane (lane0 x)) (z_lane (lane1 x)).
  rewrite !gt1_fabs, <- !az_lane_of_fabs by assumption.
  split; [reflexivity|]. split; [reflexivity|].
  unfold az_lane.
  destruct (gt1 (lane0 x)), (gt1 (lane1 x));
    now rewrite ?(fabs_fneg binary64), ?fabs_fabs.
Qed.

Lemma atan_az_is_reduced_magnitude_witness :
  let x := V2 0xc008000000000000 0xbfe0000000000000 in
  lanes_wf x /\ az x = z (vabsq_f64 x).
Proof.
  intros x. split; [vm_compute; intuition congruence|].
  apply (atan_az_is_reduced_magnitude x). vm_compute; intuition congruence.
Defined.

(** Reduction into the unit interval: on every lane that is not a NaN the
    reduced argument [z] is finite and [|z| <= 1], the reciprocal of a
    magnitude above 1 being rounded to at most 1. *)
Theorem atan_reduced_argument_bounded x :
  lanes_wf x ->
  is_nan binary64 (lane0 x) = false -> is_nan binary64 (lane1 x) = false ->
  fle binary64 (fabs binary64 (lane0 (z x))) one_bits = true
  /\ fle binary64 (fabs binary64 (lane1 (z x))) one_bits = true
  /\ is_finite binary64 (lane0 (z x)) = true
  /\ is_finite binary64 (lane1 (z x)) = true.
Proof.
  intros W N0 N1. rewrite (z_lanes _ W). unfold vmap. cbn [lane0 lane1].
  fold (gt1 (lane0 x)) (gt1 (lane1 x)) (z_lane (lane0 x)) (z_lane (lane1 x)).
  destruct (reduced_lane_bounded _ N0) as (_ & A0 & F0).
  destruct (reduced_lane_bounded _ N1) as (_ & A1 & F1).
  repeat split; assumption.
Qed.

Lemma atan_reduced_argument_bounded_witness :
  let x := V2 0xc008000000000000 0x7ff0000000000000 in
  lanes_wf x /\
  is_nan binary64 (lane0 x) = false /\ is_nan binary64 (lane1 x) = false /\
  fle binary64 (fabs binary64 (lane0 (z x))) one_bits = true.
Proof.
  intros x. split; [vm_compute; intuition congruence|].
  split; [reflexivity|]. split; [reflexivity|].
  apply (atan_reduced_argument_bounded x);
    [vm_compute; intuition congruence | reflexivity | reflexivity].
Defined.

Lemma fast_lane_by_sign ep v :
  wf binary64 v ->
  (forall z az s, ep (fneg binary64 z) az s = ep z az s) ->
  fast_lane ep v
  = if sign_of binary64 v
    then fneg binary64 (fast_lane ep (fabs binary64 v))
    else fast_lane ep (fabs binary64 v).
Proof.
  intros W Even.
  assert (P : fast_lane ep (fabs binary64 v)
              = ep (z_lane (fabs binary64 v)) (az_lane (fabs binary64 v))
                  (shift_lane (fabs binary64 v))).
  { unfold fast_lane. rewrite land_sign_bit, (sign_of_fabs binary64).
    apply Z.lxor_0_r. }
  assert (E : ep (z_lane (fabs binary64 v)) (az_lane (fabs binary64 v))
                (shift_lane (fabs binary64 v))
              = ep (z_lane v) (az_lane v) (shift_lane v)).
  { rewrite (fabs_by_sign v W). destruct (sign_of binary64 v); [|reflexivity].
    now rewrite z_lane_fneg, az_lane_fneg, shift_lane_fneg, Even. }
  rewrite P, E. unfold fast_lane. rewrite land_sign_bit.
  destruct (sign_of binary64 v); [reflexivity | apply Z.lxor_0_r].
Qed.

(** The fast path computes on [|x|] and copies the sign: with an
    evaluator that reads [z] through even powers only, the result for [x]
    is the result for [|x|], negated on exactly the lanes whose input has
    its sign bit set. *)
Theorem atan_sign_copied ep x :
  lanes_wf x ->
  (forall z az s, ep (fneg binary64 z) az s = ep z az s) ->
  fast ep x
  = vmap2 (fun v y => if sign_of binary64 v then fneg binary64 y else y)
      x (fast ep (vabsq_f64 x)).
Proof.
  intros W Even. pose proof W as [W0 W1].
  rewrite (fast_lanes ep x W), (fast_lanes ep _ (vabsq_wf x)).
  unfold vmap2, vabsq_f64, vmap. cbn [lane0 lane1].
  now rewrite <- !fast_lane_by_sign.
Qed.

Lemma atan_sign_copied_witness :
  let x := V2 0xc008000000000000 0x3fe0000000000000 in
  let ep : Z -> Z -> Z -> Z := fun _ az _ => az in
  lanes_wf x /\
  (forall z az s, ep (fneg binary64 z) az s = ep z az s) /\
  fast ep x
  = vmap2 (fun v y => if sign_of binary64 v then fneg binary64 y else y)
      x (fast ep (vabsq_f64 x)).
Proof.
  intros x ep. split; [vm_compute; intuition congruence|].
  split; [reflexivity|].
  apply (atan_sign_copied ep x);
    [vm_compute; intuition congruence | reflexivity].
Defined.

(** *** Exception fidelity inside the window *)

(** A lane of magnitude in [2^-30, 2^54) is not flagged. *)
Lemma in_window_lane v :
  flt binary64 (fabs binary64 v) (of_hex binary64 1 (- 30)) = false ->
  flt binary64 (fabs binary64 v) (of_hex binary64 1 54) = true ->
  negb ((TinyBound <=? expo_of binary64 v) && (expo_of binary64 v <=? BigBound))
  = false.
Proof.
  replace (of_hex binary64 1 (- 30)) with (TinyBound * 2 ^ 52)
    by (vm_compute; reflexivity).
  replace (of_hex binary64 1 54) with ((BigBound + 1) * 2 ^ 52)
    by (vm_compute; reflexivity).
  rewrite !magnitude_below_pow2 by (unfold TinyBound, BigBound; lia).
  unfold TinyBound, BigBound. intros L U.
  apply Z.ltb_ge in L. apply Z.ltb_lt in U.
  apply negb_false_iff, andb_true_iff. split; apply Z.leb_le; lia.
Qed.

(** With exception fidelity on, a vector whose lanes all have magnitude in
    [2^-30, 2^54) has no special lane and is not sent to the scalar
    routine: the result is the fast path, the same as with exception
    fidelity off.  The test for a flagged lane is [v_any_u64]. *)
Theorem atan_in_window_fast_path atan ep x :
  flt binary64 (fabs binary64 (lane0 x)) (of_hex binary64 1 (- 30)) = false ->
  flt binary64 (fabs binary64 (lane0 x)) (of_hex binary64 1 54) = true ->
  flt binary64 (fabs binary64 (lane1 x)) (of_hex binary64 1 (- 30)) = false ->
  flt binary64 (fabs binary64 (lane1 x)) (of_hex binary64 1 54) = true ->
  special x = V2 0 0
  /\ v_atan true atan ep x = fast ep x
  /\ v_atan true atan ep x = v_atan false atan ep x.
Proof.
  intros L0 U0 L1 U1.
  assert (S : special x = V2 0 0).
  { rewrite special_lanes. unfold vmap.
    now rewrite (in_window_lane _ L0 U0), (in_window_lane _ L1 U1). }
  split; [exact S|]. unfold v_atan. rewrite S. split; reflexivity.
Qed.

Lemma atan_in_window_fast_path_witness :
  let x := V2 0xc008000000000000 0x3fe0000000000000 in
  flt binary64 (fabs binary64 (lane0 x)) (of_hex binary64 1 (- 30)) = false /\
  flt binary64 (fabs binary64 (lane0 x)) (of_hex binary64 1 54) = true /\
  flt binary64 (fabs binary64 (lane1 x)) (of_hex binary64 1 (- 30)) = false /\
  flt binary64 (fabs binary64 (lane1 x)) (of_hex binary64 1 54) = true /\
  v_atan true (fun v => v) (fun _ az _ => az) x = fast (fun _ az _ => az) x.
Proof.
  intros x. repeat (split; [reflexivity|]).
  apply (atan_in_window_fast_path (fun v => v) (fun _ az _ => az) x);
    reflexivity.
Defined.

End Atan_reduction.

(** ** Rounding error, in units of the least subnormal *)

Module Rounding_error.
Import IEEE IEEE_facts Rounding_facts Encoding_facts Rounding_bounds.

Lemma shr_record_of_record mrs :
  shr_record_of_loc (shr_m mrs) (loc_of_shr_record mrs) = mrs.
Proof. now destruct mrs as [m [] []]. Qed.

(** Rounding to nearest moves a mantissa by half a unit at most, and not at
    all when the bits shifted out are zero. *)
Lemma rne_shift_error m k :
  0 <= m -> 0 < k ->
  2 * Z.abs (rne_shift m k * 2 ^ k - m) <= 2 ^ k
  /\ (m mod 2 ^ k = 0 -> rne_shift m k * 2 ^ k = m).
Proof.
  intros Hm Hk.
  destruct (rne_shift_cases m k Hm Hk) as (Lo & Hi & Bd).
  assert (P : 0 < 2 ^ (k - 1)) by (apply Z.pow_pos_nonneg; lia).
  assert (K : 2 ^ k = 2 * 2 ^ (k - 1)).
  { rewrite <- Z.pow_succ_r by lia. f_equal. lia. }
  pose proof (Z.div_mod m (2 ^ k) ltac:(lia)) as D.
  pose proof (Z.mod_pos_bound m (2 ^ k) ltac:(lia)) as B.
  remember (m / 2 ^ k) as q. remember (m mod 2 ^ k) as t.
  remember (rne_shift m k) as v. remember (2 ^ (k - 1)) as h.
  rewrite K in *.
  split.
  - destruct (Z.lt_trichotomy t h) as [L|[E|G]].
    + rewrite (Lo L). nia.
    + nia.
    + rewrite (Hi G). nia.
  - intros T. rewrite (Lo ltac:(lia)). nia.
Qed.

Section Units.
Variables prec emax : Z.

Lemma bounded_intro m e :
  Z.pos (digits2_pos m) <= prec ->
  (Z.pos (digits2_pos m) = prec \/ e = emin prec emax) ->
  emin prec emax <= e <= emax - prec ->
  SpecFloat.bounded prec emax m e = true.
Proof.
  intros D C E. unfold SpecFloat.bounded, canonical_mantissa, fexp.
  apply andb_true_iff. split; [apply Z.eqb_eq | apply Z.leb_le]; lia.
Qed.

(** A mantissa below [2^prec] at an exponent of the format is rounded in
    place: the result is the mantissa the round and sticky bits select,
    or the next power of two one exponent up. *)
Lemma binary_round_aux_result s mz ez l :
  0 < prec ->
  emin prec emax <= ez -> ez + 1 <= emax - prec ->
  0 <= mz < 2 ^ prec ->
  binary_round_aux prec emax s mz ez l
  = match round_nearest_even mz l with
    | 0 => S754_zero s
    | Z.pos p =>
        if Z.pos p <? 2 ^ prec then S754_finite s p ez
        else S754_finite s (Z.to_pos (2 ^ (prec - 1))) (ez + 1)
    | Z.neg _ => S754_nan
    end.
Proof.
  intros Hprec He1 He2 Hm.
  assert (P2 : 2 ^ prec = 2 * 2 ^ (prec - 1)).
  { rewrite <- Z.pow_succ_r by lia. f_equal. lia. }
  assert (P1 : 0 < 2 ^ (prec - 1)) by (apply Z.pow_pos_nonneg; lia).
  assert (S1 : shr_fexp prec emax mz ez l = (shr_record_of_loc mz l, ez)).
  { unfold shr_fexp.
    assert (N : fexp prec emax (Zdigits2 mz + ez) - ez <= 0).
    { destruct mz as [|p|p]; cbn [Zdigits2]; try lia.
      - unfold fexp. lia.
      - pose proof (digits_le_prec prec p ltac:(lia)). unfold fexp. lia. }
    destruct (fexp prec emax (Zdigits2 mz + ez) - ez); try lia; reflexivity. }
  unfold binary_round_aux. rewrite S1, shr_m_of_loc, loc_of_shr_record_of_loc.
  pose proof (round_nearest_even_bounds mz l) as B.
  destruct (round_nearest_even mz l) as [|m1|m1] eqn:R; try lia.
  - unfold shr_fexp. cbn [Zdigits2 Z.add shr_record_of_loc].
    assert (N : fexp prec emax ez - ez <= 0) by (unfold fexp; lia).
    replace (0 + ez) with ez by lia.
    destruct (fexp prec emax ez - ez); try lia; reflexivity.
  - destruct (Z.ltb_spec (Z.pos m1) (2 ^ prec)) as [L|G].
    + pose proof (digits_le_prec prec m1 L) as D.
      unfold shr_fexp. cbn [Zdigits2].
      assert (N : fexp prec emax (Z.pos (digits2_pos m1) + ez) - ez <= 0)
        by (unfold fexp; lia).
      destruct (fexp prec emax (Z.pos (digits2_pos m1) + ez) - ez) as [|n|n];
        try lia; cbn [shr shr_record_of_loc shr_m];
        (replace (ez <=? emax - prec) with true
           by (symmetry; apply Z.leb_le; lia)); reflexivity.
    + assert (E : Z.pos m1 = 2 ^ prec) by lia.
      assert (D : Z.pos (digits2_pos m1) = prec + 1).
      { apply digits2_pos_unique. replace (prec + 1 - 1) with prec by lia.
        rewrite Z.pow_add_r by lia. change (2 ^ 1) with 2. lia. }
      unfold shr_fexp. cbn [Zdigits2]. rewrite D. unfold fexp.
      replace (Z.max (prec + 1 + ez - prec) (emin prec emax) - ez) with 1
        by lia.
      cbn [shr_record_of_loc]. rewrite shr_exact by lia.
      cbn [shr_m]. change (2 ^ 1) with 2.
      rewrite E, P2, Z.mul_comm, Z.div_mul by lia.
      destruct (2 ^ (prec - 1)) as [|h|h] eqn:Eh; try lia.
      replace (ez + 1 <=? emax - prec) with true
        by (symmetry; apply Z.leb_le; lia).
      reflexivity.
Qed.

Lemma binary_round_aux_rounded s mz ez l :
  0 < prec ->
  emin prec emax <= ez -> ez + 1 <= emax - prec ->
  0 <= mz < 2 ^ prec ->
  2 ^ (prec - 1) <= mz \/ ez = emin prec emax ->
  SFcanonical prec emax (binary_round_aux prec emax s mz ez l) = true
  /\ SFunits prec emax (binary_round_aux prec emax s mz ez l)
     = cond_Zopp s (round_nearest_even mz l * 2 ^ (ez - emin prec emax)).
Proof.
  intros Hprec He1 He2 Hm Hc.
  rewrite (binary_round_aux_result s mz ez l Hprec He1 He2 Hm).
  assert (P2 : 2 ^ prec = 2 * 2 ^ (prec - 1)).
  { rewrite <- Z.pow_succ_r by lia. f_equal. lia. }
  assert (P1 : 0 < 2 ^ (prec - 1)) by (apply Z.pow_pos_nonneg; lia).
  pose proof (round_nearest_even_bounds mz l) as B.
  destruct (round_nearest_even mz l) as [|m1|m1] eqn:R; try lia.
  - split; [reflexivity | now destruct s].
  - destruct (Z.ltb_spec (Z.pos m1) (2 ^ prec)) as [L|G].
    + split; [|reflexivity]. cbn [SFcanonical].
      apply bounded_intro; [now apply digits_le_prec | | lia].
      destruct Hc as [Hc|Hc]; [left | now right].
      apply digits2_pos_unique; lia.
    + assert (E : Z.pos m1 = 2 ^ prec) by lia.
      destruct (2 ^ (prec - 1)) as [|h|h] eqn:Eh; try lia.
      cbn [Z.to_pos].
      assert (Dh : Z.pos (digits2_pos h) = prec).
      { apply digits2_pos_unique. lia. }
      split.
      * cbn [SFcanonical]. apply bounded_intro; lia.
      * cbn [SFunits]. apply f_equal.
        replace (ez + 1 - emin prec emax) with (ez - emin prec emax + 1) by lia.
        rewrite Z.pow_add_r by lia. change (2 ^ 1) with 2. lia.
Qed.

Lemma shr_fexp_no_shift mz ez l :
  0 < prec ->
  emin prec emax <= ez -> 0 <= mz < 2 ^ prec ->
  shr_fexp prec emax mz ez l = (shr_record_of_loc mz l, ez).
Proof.
  intros Hprec He Hm. unfold shr_fexp.
  assert (N : fexp prec emax (Zdigits2 mz + ez) - ez <= 0).
  { destruct mz as [|p|p]; cbn [Zdigits2]; try lia.
    - unfold fexp. lia.
    - pose proof (digits_le_prec prec p ltac:(lia)). unfold fexp. lia. }
  destruct (fexp prec emax (Zdigits2 mz + ez) - ez); try lia; reflexivity.
Qed.

(** Rounding an exact mantissa that is too long: the bits below the
    format's exponent are shifted out first. *)
Lemma binary_round_aux_shift s m e k :
  0 < prec ->
  0 < k -> k = fexp prec emax (Z.pos (digits2_pos m) + e) - e ->
  binary_round_aux prec emax s (Z.pos m) e loc_Exact
  = binary_round_aux prec emax s (Z.pos m / 2 ^ k) (e + k)
      (loc_of_shr_record
         (Build_shr_record (Z.pos m / 2 ^ k) (Z.testbit (Z.pos m) (k - 1))
            (negb (Z.pos m mod 2 ^ (k - 1) =? 0)))).
Proof.
  intros Hprec Hk Ek.
  pose proof (digits2_pos_bounds m) as B.
  set (d := Z.pos (digits2_pos m)) in *.
  assert (Q : 0 <= Z.pos m / 2 ^ k < 2 ^ prec).
  { assert (0 < 2 ^ k) by (apply Z.pow_pos_nonneg; lia).
    split; [apply Z.div_pos; lia|].
    apply Z.div_lt_upper_bound; [lia|].
    rewrite <- Z.pow_add_r by lia.
    assert (2 ^ d <= 2 ^ (k + prec))
      by (apply Z.pow_le_mono_r; unfold fexp in Ek; lia).
    lia. }
  assert (Fe : emin prec emax <= e + k) by (unfold fexp in Ek; lia).
  set (mrs := Build_shr_record (Z.pos m / 2 ^ k) (Z.testbit (Z.pos m) (k - 1))
                (negb (Z.pos m mod 2 ^ (k - 1) =? 0))).
  unfold binary_round_aux at 1 2.
  rewrite (shr_fexp_no_shift _ _ _ Hprec Fe Q).
  rewrite (shr_record_of_record mrs
           : shr_record_of_loc (Z.pos m / 2 ^ k) (loc_of_shr_record mrs) = mrs).
  unfold shr_fexp at 1. cbn [Zdigits2]. fold d. rewrite <- Ek.
  cbn [shr_record_of_loc]. rewrite shr_exact by lia.
  reflexivity.
Qed.

(** The rounded value of an exact mantissa, in units of [2^emin]: within
    half a unit of the last place kept, and exact when nothing is lost. *)
Lemma binary_round_aux_units s m e G :
  0 < prec ->
  emin prec emax <= e ->
  e <= fexp prec emax (Z.pos (digits2_pos m) + e) ->
  0 <= G -> Z.pos m * 2 ^ (e - emin prec emax) < 2 ^ (G + prec) ->
  G + emin prec emax + 1 <= emax - prec ->
  SFcanonical prec emax (binary_round_aux prec emax s (Z.pos m) e loc_Exact)
  = true
  /\ exists U,
       SFunits prec emax (binary_round_aux prec emax s (Z.pos m) e loc_Exact)
       = cond_Zopp s U
       /\ 2 * Z.abs (U - Z.pos m * 2 ^ (e - emin prec emax)) <= 2 ^ G
       /\ ((2 ^ G | Z.pos m * 2 ^ (e - emin prec emax)) ->
           U = Z.pos m * 2 ^ (e - emin prec emax)).
Proof.
  intros Hprec He Hk HG Hb Ho.
  pose proof (digits2_pos_bounds m) as B.
  set (d := Z.pos (digits2_pos m)) in *.
  set (fe := fexp prec emax (d + e)) in *.
  set (w := 2 ^ (e - emin prec emax)) in *.
  assert (W : 0 < w) by (apply Z.pow_pos_nonneg; lia).
  assert (Fg : fe - emin prec emax <= G).
  { assert (L : 2 ^ (d - 1 + (e - emin prec emax)) < 2 ^ (G + prec)).
    { rewrite Z.pow_add_r by lia. fold w. nia. }
    apply Z.pow_lt_mono_r_iff in L; [|lia|lia].
    unfold fe, fexp. lia. }
  assert (Fm : emin prec emax <= fe) by (unfold fe, fexp; lia).
  destruct (Z.eq_dec fe e) as [E0|E0].
  - (* nothing to shift out *)
    assert (Dp : d <= prec) by (unfold fe, fexp in E0; lia).
    assert (Mp : Z.pos m < 2 ^ prec).
    { assert (2 ^ d <= 2 ^ prec) by (apply Z.pow_le_mono_r; lia). lia. }
    assert (C : 2 ^ (prec - 1) <= Z.pos m \/ e = emin prec emax).
    { destruct (Z.eq_dec d prec) as [Ed|Ed].
      - left. now rewrite <- Ed.
      - right. unfold fe, fexp in E0. lia. }
    destruct (binary_round_aux_rounded s (Z.pos m) e loc_Exact)
      as [Cn Un]; try lia.
    split; [exact Cn|]. exists (Z.pos m * w). split; [exact Un|].
    rewrite Z.sub_diag. cbn [Z.abs].
    assert (0 < 2 ^ G) by (apply Z.pow_pos_nonneg; lia).
    split; [lia | reflexivity].
  - set (k := fe - e) in *.
    assert (Hk' : 0 < k) by (unfold k; lia).
    assert (P : 0 < 2 ^ k) by (apply Z.pow_pos_nonneg; lia).
    rewrite (binary_round_aux_shift s m e k Hprec Hk' eq_refl).
    replace (e + k) with fe by (unfold k; lia).
    assert (Q : 0 <= Z.pos m / 2 ^ k < 2 ^ prec).
    { split; [apply Z.div_pos; lia|].
      apply Z.div_lt_upper_bound; [lia|].
      rewrite <- Z.pow_add_r by lia.
      assert (2 ^ d <= 2 ^ (k + prec))
        by (apply Z.pow_le_mono_r; unfold k, fe, fexp; lia).
      lia. }
    assert (C : 2 ^ (prec - 1) <= Z.pos m / 2 ^ k \/ fe = emin prec emax).
    { destruct (Z.eq_dec fe (emin prec emax)) as [Ee|Ee]; [now right | left].
      assert (Kd : k = d - prec) by (unfold k, fe, fexp in *; lia).
      apply Z.div_le_lower_bound; [lia|].
      rewrite <- Z.pow_add_r by lia.
      replace (k + (prec - 1)) with (d - 1) by lia. lia. }
    destruct (binary_round_aux_rounded s (Z.pos m / 2 ^ k) fe
                (loc_of_shr_record
                   (Build_shr_record (Z.pos m / 2 ^ k)
                      (Z.testbit (Z.pos m) (k - 1))
                      (negb (Z.pos m mod 2 ^ (k - 1) =? 0)))))
      as [Cn Un]; try lia.
    fold (rne_shift (Z.pos m) k) in Un.
    split; [exact Cn|].
    exists (rne_shift (Z.pos m) k * 2 ^ (fe - emin prec emax)).
    split; [exact Un|].
    destruct (rne_shift_error (Z.pos m) k ltac:(lia) Hk') as [Er Ex].
    assert (F2 : 2 ^ (fe - emin prec emax) = 2 ^ k * w).
    { unfold w. rewrite <- Z.pow_add_r by lia. f_equal. unfold k. lia. }
    assert (G2 : 2 ^ (fe - emin prec emax) <= 2 ^ G)
      by (apply Z.pow_le_mono_r; lia).
    rewrite F2 in *.
    replace (rne_shift (Z.pos m) k * (2 ^ k * w) - Z.pos m * w)
      with ((rne_shift (Z.pos m) k * 2 ^ k - Z.pos m) * w) by ring.
    rewrite Z.abs_mul, (Z.abs_eq w) by lia.
    split; [nia|].
    intros Dv.
    assert (D2 : (2 ^ k * w | Z.pos m * w)).
    { apply Z.divide_trans with (2 ^ G); [|exact Dv].
      rewrite <- F2.
      exists (2 ^ (G - (fe - emin prec emax))).
      rewrite <- Z.pow_add_r by lia. f_equal. lia. }
    apply Z.mul_divide_cancel_r in D2; [|lia].
    apply Z.mod_divide in D2; [|lia].
    rewrite <- (Ex D2) at 2. ring.
Qed.

(** The same for [binary_normalize], for any integer mantissa. *)
Lemma binary_normalize_units M e G :
  0 < prec ->
  emin prec emax <= e ->
  0 <= G -> Z.abs M * 2 ^ (e - emin prec emax) < 2 ^ (G + prec) ->
  G + emin prec emax + 1 <= emax - prec ->
  SFcanonical prec emax (binary_normalize prec emax M e false) = true
  /\ exists U,
       SFunits prec emax (binary_normalize prec emax M e false) = U
       /\ 2 * Z.abs (U - M * 2 ^ (e - emin prec emax)) <= 2 ^ G
       /\ ((2 ^ G | M * 2 ^ (e - emin prec emax)) ->
           U = M * 2 ^ (e - emin prec emax)).
Proof.
  intros Hprec He HG Hb Ho.
  assert (PG : 0 < 2 ^ G) by (apply Z.pow_pos_nonneg; lia).
  assert (Main : forall s m,
            Z.pos m * 2 ^ (e - emin prec emax) < 2 ^ (G + prec) ->
            SFcanonical prec emax (binary_round prec emax s m e) = true
            /\ exists U,
                 SFunits prec emax (binary_round prec emax s m e)
                 = cond_Zopp s U
                 /\ 2 * Z.abs (U - Z.pos m * 2 ^ (e - emin prec emax)) <= 2 ^ G
                 /\ ((2 ^ G | Z.pos m * 2 ^ (e - emin prec emax)) ->
                     U = Z.pos m * 2 ^ (e - emin prec emax))).
  { intros s m Hm. unfold binary_round, shl_align.
    pose proof (digits2_pos_bounds m) as B.
    set (d := Z.pos (digits2_pos m)) in *.
    destruct (fexp prec emax (d + e) - e) as [|p|p] eqn:K.
    - apply binary_round_aux_units; try assumption. fold d. lia.
    - apply binary_round_aux_units; try assumption. fold d. lia.
    - (* the mantissa is shifted left to the format's exponent *)
      assert (Dg : Z.pos (digits2_pos (Pos.iter xO m p)) = d + Z.pos p).
      { apply digits2_pos_unique. rewrite pos_iter_xO.
        assert (0 < 2 ^ Z.pos p) by (apply Z.pow_pos_nonneg; lia).
        replace (d + Z.pos p - 1) with (d - 1 + Z.pos p) by lia.
        rewrite !Z.pow_add_r by lia. nia. }
      assert (Fe : fexp prec emax (d + e) = e - Z.pos p) by lia.
      assert (V : Z.pos (Pos.iter xO m p)
                  * 2 ^ (fexp prec emax (d + e) - emin prec emax)
                  = Z.pos m * 2 ^ (e - emin prec emax)).
      { rewrite pos_iter_xO, Fe, <- Z.mul_assoc, <- Z.pow_add_r
          by (unfold fexp in Fe; lia).
        f_equal. f_equal. lia. }
      destruct (binary_round_aux_units s (Pos.iter xO m p)
                  (fexp prec emax (d + e)) G) as [Cn (U & Un & Er & Ex)];
        try assumption.
      + unfold fexp. lia.
      + rewrite Dg.
        replace (d + Z.pos p + fexp prec emax (d + e)) with (d + e) by lia.
        lia.
      + now rewrite V.
      + split; [exact Cn|]. exists U. rewrite V in *. auto. }
  destruct M as [|m|m]; cbn [binary_normalize Z.abs] in *.
  - split; [reflexivity|]. exists 0. rewrite Z.mul_0_l.
    split; [reflexivity|]. change (0 - 0) with 0. cbn [Z.abs].
    split; [lia | reflexivity].
  - destruct (Main false m Hb) as [Cn (U & Un & Er & Ex)].
    split; [exact Cn|]. exists U. auto.
  - destruct (Main true m Hb) as [Cn (U & Un & Er & Ex)].
    split; [exact Cn|]. exists (- U). cbn [cond_Zopp] in Un.
    split; [exact Un|].
    replace (- U - Z.neg m * 2 ^ (e - emin prec emax))
      with (- (U - Z.pos m * 2 ^ (e - emin prec emax)))
      by (change (Z.neg m) with (- Z.pos m); ring).
    rewrite Z.abs_opp. split; [exact Er|].
    intros Dv. rewrite Ex.
    + change (Z.neg m) with (- Z.pos m). ring.
    + replace (Z.pos m * 2 ^ (e - emin prec emax))
        with (- (Z.neg m * 2 ^ (e - emin prec emax)))
        by (change (Z.neg m) with (- Z.pos m); ring).
      now apply Z.divide_opp_r.
Qed.

End Units.
Section Format.
Variable fmt : format.
Context {V : Valid fmt}.

(** A canonical number survives encoding. *)
Lemma decode_encode_canonical f :
  SFcanonical (prec fmt) (emax fmt) f = true ->
  decode fmt (encode fmt f) = f.
Proof.
  pose proof (@ebits_pos fmt V) as He. pose proof (@mbits_pos fmt V) as Hm.
  destruct f as [s| | |s m e]; cbn [SFcanonical]; intros C; try discriminate.
  - apply (decode_join_zero fmt).
  - unfold SpecFloat.bounded, canonical_mantissa in C.
    apply andb_true_iff in C. destruct C as [C1 C2].
    apply Z.eqb_eq in C1. apply Z.leb_le in C2.
    pose proof (digits2_pos_bounds m) as B.
    set (d := Z.pos (digits2_pos m)) in *.
    assert (Dp : d <= prec fmt) by (unfold fexp in C1; lia).
    assert (Em : emin (prec fmt) (emax fmt) <= e) by (unfold fexp in C1; lia).
    destruct (Z.eq_dec d (prec fmt)) as [E|E].
    + now apply (decode_encode_normal fmt).
    + assert (Ee : e = emin (prec fmt) (emax fmt)) by (unfold fexp in C1; lia).
      assert (Ms : Z.pos m < 2 ^ mbits fmt).
      { assert (2 ^ d <= 2 ^ mbits fmt)
          by (apply Z.pow_le_mono_r; unfold prec in *; lia).
        lia. }
      cbn [encode].
      replace (Z.pos m <? 2 ^ mbits fmt) with true
        by (symmetry; apply Z.ltb_lt; lia).
      assert (P : 0 < 2 ^ ebits fmt) by (apply Z.pow_pos_nonneg; lia).
      destruct (fields_of_join fmt s 0 (Z.pos m)) as (Sg & Ex & Mt); try lia.
      unfold decode. rewrite Sg, Ex, Mt. cbn [Z.eqb]. now rewrite Ee.
Qed.

Lemma SFcanonical_finite f :
  SFcanonical (prec fmt) (emax fmt) f = true ->
  is_finite fmt (encode fmt f) = true
  /\ in_units fmt (encode fmt f) = SFunits (prec fmt) (emax fmt) f.
Proof.
  intros C. unfold is_finite, in_units.
  rewrite (decode_encode_canonical f C).
  destruct f; try discriminate; split; reflexivity.
Qed.

Lemma shl_align_value m ex e :
  e <= ex -> Z.pos (fst (shl_align m ex e)) = Z.pos m * 2 ^ (ex - e).
Proof.
  intros H. unfold shl_align.
  destruct (e - ex) as [|p|p] eqn:K; try lia; cbn [fst].
  - replace (ex - e) with 0 by lia. change (2 ^ 0) with 1. lia.
  - rewrite pos_iter_xO. f_equal. f_equal. lia.
Qed.

(** A fused multiply-add of finite numbers, in units of [2^emin]: the
    exact value [x * y + z], rounded once. *)
Lemma SFfma_units sx mx ex sy my ey z G :
  SFcanonical (prec fmt) (emax fmt) z = true ->
  emin (prec fmt) (emax fmt) <= ex + ey ->
  prec fmt <= Z.pos (digits2_pos (mx * my)) ->
  0 <= G ->
  Z.abs (cond_Zopp (xorb sx sy)
           (Z.pos (mx * my) * 2 ^ (ex + ey - emin (prec fmt) (emax fmt)))
         + SFunits (prec fmt) (emax fmt) z) < 2 ^ (G + prec fmt) ->
  G + emin (prec fmt) (emax fmt) + 1 <= emax fmt - prec fmt ->
  SFcanonical (prec fmt) (emax fmt)
    (SFfma fmt (S754_finite sx mx ex) (S754_finite sy my ey) z) = true
  /\ exists U,
       SFunits (prec fmt) (emax fmt)
         (SFfma fmt (S754_finite sx mx ex) (S754_finite sy my ey) z) = U
       /\ 2 * Z.abs (U - (cond_Zopp (xorb sx sy)
                            (Z.pos (mx * my)
                             * 2 ^ (ex + ey - emin (prec fmt) (emax fmt)))
                          + SFunits (prec fmt) (emax fmt) z)) <= 2 ^ G
       /\ ((2 ^ G | cond_Zopp (xorb sx sy)
                      (Z.pos (mx * my)
                       * 2 ^ (ex + ey - emin (prec fmt) (emax fmt)))
                    + SFunits (prec fmt) (emax fmt) z) ->
           U = cond_Zopp (xorb sx sy)
                 (Z.pos (mx * my)
                  * 2 ^ (ex + ey - emin (prec fmt) (emax fmt)))
               + SFunits (prec fmt) (emax fmt) z).
Proof.
  intros Cz Hp Hd HG Hb Ho.
  assert (Pp : 0 < prec fmt) by (pose proof (@mbits_pos fmt V); unfold prec; lia).
  set (em := emin (prec fmt) (emax fmt)) in *.
  set (P := Z.pos (mx * my) * 2 ^ (ex + ey - em)) in *.
  destruct z as [sz| | |sz mz ez]; try discriminate.
  - (* the addend is a zero: the product alone is rounded *)
    cbn [SFfma SFmul SFunits] in *. rewrite Z.add_0_r in *.
    destruct (binary_round_aux_units (prec fmt) (emax fmt) (xorb sx sy)
                (mx * my) (ex + ey) G Pp) as [Cn (U & Un & Er & Ex)];
      try assumption.
    + unfold fexp. lia.
    + fold em. fold P. now destruct (xorb sx sy); rewrite ?Z.abs_opp in Hb;
        cbn [cond_Zopp] in Hb; rewrite ?Z.abs_opp in Hb; lia.
    + split; [exact Cn|]. fold em in Er, Ex. fold P in Er, Ex.
      exists (cond_Zopp (xorb sx sy) U). split; [exact Un|].
      destruct (xorb sx sy); cbn [cond_Zopp].
      * replace (- U - - P) with (- (U - P)) by lia. rewrite Z.abs_opp.
        split; [exact Er|]. intros Dv.
        assert (Dv' : (2 ^ G | P))
          by (destruct Dv as [c Hc]; exists (- c); lia).
        now rewrite (Ex Dv').
      * split; assumption.
  - cbn [SFcanonical] in Cz.
    unfold SpecFloat.bounded, canonical_mantissa in Cz.
    apply andb_true_iff in Cz. destruct Cz as [C1 _]. apply Z.eqb_eq in C1.
    assert (Ez : em <= ez) by (unfold fexp in C1; fold em in C1; lia).
    cbn [SFfma SFunits] in *. fold em in Hb |- *.
    set (e := Z.min (ex + ey) ez).
    rewrite !shl_align_value by (unfold e; lia).
    set (M := cond_Zopp (xorb sx sy) (Z.pos (mx * my) * 2 ^ (ex + ey - e))
              + cond_Zopp sz (Z.pos mz * 2 ^ (ez - e))).
    assert (Me : M * 2 ^ (e - em) = cond_Zopp (xorb sx sy) P
                                    + cond_Zopp sz (Z.pos mz * 2 ^ (ez - em))).
    { unfold M, P.
      replace (ex + ey - em) with (ex + ey - e + (e - em)) by lia.
      replace (ez - em) with (ez - e + (e - em)) by lia.
      rewrite !Z.pow_add_r by (unfold e; lia).
      destruct (xorb sx sy), sz; cbn [cond_Zopp]; ring. }
    destruct (binary_normalize_units (prec fmt) (emax fmt) M e G Pp)
      as [Cn (U & Un & Er & Ex)]; try assumption.
    + unfold e. lia.
    + fold em. rewrite <- (Z.abs_eq (2 ^ (e - em)))
        by (apply Z.pow_nonneg; lia).
      rewrite <- Z.abs_mul, Me. exact Hb.
    + fold em in Er, Ex. rewrite Me in Er, Ex.
      split; [exact Cn|]. exists U. auto.
Qed.

End Format.

End Rounding_error.

(** ** The cosine kernel: the residual of the reduction *)

Module Cosf_reduction.
Import IEEE IEEE_facts Rounding_facts Encoding_facts Real_facts Round_trip
  Rounding_bounds Rounding_error Cosf Cosf_facts Cosf_paths.

Lemma decode_NegPio2_1 :
  decode binary32 NegPio2_1_bits = S754_finite true 13176795 (- 23).
Proof. reflexivity. Qed.

Lemma decode_NegPio2_2 :
  decode binary32 NegPio2_2_bits = S754_finite false 12303662 (- 48).
Proof. reflexivity. Qed.

Lemma decode_NegPio2_3 :
  decode binary32 NegPio2_3_bits = S754_finite false 16198893 (- 73).
Proof. reflexivity. Qed.

(** The quadrant index as a binary32 number: a full mantissa. *)
Lemma decode_index N :
  1 <= N < 2 ^ 24 ->
  exists mn en,
    decode binary32 (of_hex binary32 N 0) = S754_finite false mn en /\
    Z.pos mn = N * 2 ^ (- en) /\ - 23 <= en <= 0 /\
    2 ^ 23 <= Z.pos mn < 2 ^ 24.
Proof.
  intros HN. destruct N as [|n|n]; try lia.
  destruct (binary_normalize_integer 24 128 n false ltac:(lia) (proj2 HN))
    as (m & e & B & Em & Ee & D).
  exists m, e. unfold of_hex.
  change (prec binary32) with 24. change (emax binary32) with 128.
  rewrite B.
  destruct (decode_encode_normal binary32 false m e D) as (_ & _ & _ & R).
  { change (emin (prec binary32) (emax binary32)) with (- 149).
    change (emax binary32 - prec binary32) with 104. lia. }
  pose proof (digits2_pos_bounds m) as Bd. rewrite D in Bd.
  change (2 ^ (24 - 1)) with (2 ^ 23) in Bd.
  repeat split; try assumption; lia.
Qed.

(** A decoded pattern is in canonical form. *)
Lemma decode_canonical b :
  is_finite binary32 b = true ->
  SFcanonical 24 128 (decode binary32 b) = true.
Proof.
  unfold is_finite.
  pose proof (mant_of_range binary32 b) as M.
  pose proof (expo_of_range binary32 b) as X.
  change (2 ^ mbits binary32) with 8388608 in M.
  change (2 ^ ebits binary32) with 256 in X.
  destruct (decode_spec binary32 b) as [A1 A2|p A1 A2|p A1 A2|A1 A2|A1 A2];
    intros F; try discriminate; try reflexivity;
    change (emin (prec binary32) (emax binary32)) with (- 149);
    change (Z.ones (ebits binary32)) with 255 in *;
    change (2 ^ mbits binary32) with 8388608 in *;
    cbn [SFcanonical].
  - apply (bounded_intro 24 128).
    + apply digits_le_prec. change (2 ^ 24) with 16777216. lia.
    + now right.
    + unfold emin. lia.
  - apply (bounded_intro 24 128).
    + apply digits_le_prec. change (2 ^ 24) with 16777216. lia.
    + left. apply digits2_pos_unique.
      change (2 ^ (24 - 1)) with 8388608. change (2 ^ 24) with 16777216. lia.
    + unfold emin. lia.
Qed.

(** One step of the reduction: [n * c + z], fused, with [n] the index [N].
    In units of [2^-149] the result is within [2^G / 2] of the exact value,
    and exact when that value is a multiple of [2^G]. *)
Lemma ffma_index N c sc mc ec z G :
  1 <= N < 2 ^ 24 ->
  decode binary32 c = S754_finite sc mc ec ->
  2 ^ 23 <= Z.pos mc -> - 126 <= ec ->
  is_finite binary32 z = true ->
  0 <= G <= 252 ->
  Z.abs (N * in_units binary32 c + in_units binary32 z) < 2 ^ (G + 24) ->
  is_finite binary32 (ffma binary32 (of_hex binary32 N 0) c z) = true
  /\ 2 * Z.abs (in_units binary32 (ffma binary32 (of_hex binary32 N 0) c z)
                - (N * in_units binary32 c + in_units binary32 z)) <= 2 ^ G
  /\ ((2 ^ G | N * in_units binary32 c + in_units binary32 z) ->
      in_units binary32 (ffma binary32 (of_hex binary32 N 0) c z)
      = N * in_units binary32 c + in_units binary32 z).
Proof.
  intros HN Dc Hmc Hec Fz HG Hb.
  destruct (decode_index N HN) as (mn & en & Dn & Mn & Hen & Bn).
  pose proof (decode_canonical z Fz) as Cz.
  assert (Pn : Z.pos (mn * mc) * 2 ^ (en + ec - - 149)
               = N * (Z.pos mc * 2 ^ (ec - - 149))).
  { rewrite Pos2Z.inj_mul, Mn.
    replace (ec - - 149) with (- en + (en + ec - - 149)) by lia.
    rewrite Z.pow_add_r by lia. ring. }
  assert (Cu : in_units binary32 c
               = cond_Zopp sc (Z.pos mc * 2 ^ (ec - - 149))).
  { unfold in_units. now rewrite Dc. }
  assert (Pu : cond_Zopp (xorb false sc)
                 (Z.pos (mn * mc) * 2 ^ (en + ec - - 149))
               = N * in_units binary32 c).
  { rewrite Pn, Cu. destruct sc; cbn [xorb cond_Zopp]; ring. }
  assert (Zu : SFunits 24 128 (decode binary32 z) = in_units binary32 z)
    by reflexivity.
  destruct (SFfma_units binary32 false mn en sc mc ec (decode binary32 z) G)
    as [Cn (U & Un & Er & Ex)].
  - exact Cz.
  - change (emin (prec binary32) (emax binary32)) with (- 149). lia.
  - change (prec binary32) with 24.
    pose proof (digits2_pos_bounds (mn * mc)) as Bd.
    rewrite Pos2Z.inj_mul in Bd.
    destruct (Z.leb_spec 24 (Z.pos (digits2_pos (mn * mc)))) as [L|L];
      [exact L|].
    assert (2 ^ Z.pos (digits2_pos (mn * mc)) <= 2 ^ 24)
      by (apply Z.pow_le_mono_r; lia).
    change (2 ^ 23) with 8388608 in *. change (2 ^ 24) with 16777216 in *.
    nia.
  - lia.
  - change (emin (prec binary32) (emax binary32)) with (- 149).
    change (prec binary32) with 24. change (emax binary32) with 128.
    rewrite Pu, Zu. exact Hb.
  - change (emin (prec binary32) (emax binary32)) with (- 149).
    change (prec binary32) with 24. change (emax binary32) with 128. lia.
  - change (emin (prec binary32) (emax binary32)) with (- 149) in *.
    change (prec binary32) with 24 in *. change (emax binary32) with 128 in *.
    rewrite Pu, Zu in Er, Ex.
    destruct (SFcanonical_finite binary32 _ Cn) as [Ff Fu].
    unfold ffma. rewrite Dn, Dc.
    change (prec binary32) with 24 in Fu. change (emax binary32) with 128 in Fu.
    rewrite Fu, Un. auto.
Qed.

(** A magnitude below [2^20], in units of [2^-149]. *)
Lemma in_units_below_range a :
  0 <= a < RangeVal_bits ->
  0 <= in_units binary32 a < 2 ^ 169
  /\ (2 ^ 148 < in_units binary32 a -> (2 ^ 125 | in_units binary32 a)).
Proof.
  intros Ha.
  assert (Ha' : 0 <= a < 2 ^ (ebits binary32 + mbits binary32)).
  { change RangeVal_bits with 0x49800000 in Ha.
    change (2 ^ (ebits binary32 + mbits binary32)) with 0x80000000. lia. }
  destruct (fields_of_magnitude binary32 a Ha') as [Sa Ea].
  pose proof (mant_of_range binary32 a) as Ma.
  pose proof (expo_of_range binary32 a) as Xa.
  change (2 ^ mbits binary32) with 8388608 in *.
  change (2 ^ ebits binary32) with 256 in *.
  change RangeVal_bits with (147 * 8388608) in Ha.
  assert (Xa' : expo_of binary32 a <= 146) by lia.
  unfold in_units.
  destruct (decode_spec binary32 a) as [A1 A2|p A1 A2|p A1 A2|A1 A2|A1 A2];
    rewrite ?Sa; cbn [cond_Zopp];
    change (emin (prec binary32) (emax binary32)) with (- 149);
    change (2 ^ mbits binary32) with 8388608 in *;
    change (Z.ones (ebits binary32)) with 255 in *;
    try lia.
  replace (expo_of binary32 a - 1 + - 149 - - 149)
    with (expo_of binary32 a - 1) by lia.
  set (k := expo_of binary32 a - 1) in *.
  assert (P : 0 < 2 ^ k) by (apply Z.pow_pos_nonneg; lia).
  assert (Q : 2 ^ k <= 2 ^ 145) by (apply Z.pow_le_mono_r; lia).
  split; [nia|].
  intros L.
  assert (K : 125 <= k).
  { destruct (Z.leb_spec 125 k) as [K|K]; [exact K|].
    assert (2 ^ k <= 2 ^ 124) by (apply Z.pow_le_mono_r; lia). nia. }
  exists (Z.pos p * 2 ^ (k - 125)).
  rewrite <- Z.mul_assoc, <- Z.pow_add_r by lia. f_equal. f_equal. lia.
Qed.

(** The three steps of the reduction together, in units of [2^-149]: the
    first is exact, each of the other two rounds by [2^-25] at most. *)
Lemma residual_units a N :
  0 <= a < RangeVal_bits -> 0 <= N ->
  2 * Z.abs (in_units binary32 a * in_units binary32 InvPio2_bits
             - N * 2 ^ 298) < 2 ^ 298 ->
  N <= 667544
  /\ is_finite binary32
       (ffma binary32 (of_hex binary32 N 0) NegPio2_3_bits
          (ffma binary32 (of_hex binary32 N 0) NegPio2_2_bits
             (ffma binary32 (of_hex binary32 N 0) NegPio2_1_bits a))) = true
  /\ Z.abs (in_units binary32
              (ffma binary32 (of_hex binary32 N 0) NegPio2_3_bits
                 (ffma binary32 (of_hex binary32 N 0) NegPio2_2_bits
                    (ffma binary32 (of_hex binary32 N 0) NegPio2_1_bits a)))
            - (in_units binary32 a
               - N * (13176795 * 2 ^ 126 - 12303662 * 2 ^ 101
                      - 16198893 * 2 ^ 76))) <= 2 ^ 125
  /\ 10680707
     * Z.abs (in_units binary32 a
              - N * (13176795 * 2 ^ 126 - 12303662 * 2 ^ 101
                     - 16198893 * 2 ^ 76))
     <= 2 ^ 172 + N * 483000215404370189465912069406306146279489536.
Proof.
  intros Ha HN Near.
  destruct (in_units_below_range a Ha) as [Ra Da].
  pose proof (below_range_finite a Ha) as Fa.
  assert (I : in_units binary32 InvPio2_bits = 10680707 * 2 ^ 125)
    by reflexivity.
  assert (U1 : in_units binary32 NegPio2_1_bits = - (13176795 * 2 ^ 126))
    by reflexivity.
  assert (U2 : in_units binary32 NegPio2_2_bits = 12303662 * 2 ^ 101)
    by reflexivity.
  assert (U3 : in_units binary32 NegPio2_3_bits = 16198893 * 2 ^ 76)
    by reflexivity.
  rewrite I in Near.
  set (A := in_units binary32 a) in *.
  assert (X : 2 * Z.abs (A * 10680707 - N * 2 ^ 173) < 2 ^ 173) by lia.
  assert (Nb : N <= 667544) by lia.
  split; [exact Nb|].
  destruct (Z.eq_dec N 0) as [N0|N0].
  - subst N. change (of_hex binary32 0 0) with 0.
    rewrite (ffma_zero_l NegPio2_1_bits _ eq_refl Ha).
    rewrite (ffma_zero_l NegPio2_2_bits _ eq_refl Ha).
    rewrite (ffma_zero_l NegPio2_3_bits _ eq_refl Ha).
    fold A. split; [exact Fa|]. split; lia.
  - assert (N1 : 1 <= N < 2 ^ 24) by lia.
    assert (Dv : (2 ^ 125 | A)) by (apply Da; lia).
    destruct (ffma_index N NegPio2_1_bits true 13176795 (- 23) a 125 N1
                decode_NegPio2_1 ltac:(lia) ltac:(lia) Fa ltac:(lia))
      as (F1 & _ & E1).
    { rewrite U1. fold A. lia. }
    rewrite U1 in E1. fold A in E1.
    assert (V1 : (2 ^ 125 | N * - (13176795 * 2 ^ 126) + A)).
    { apply Z.divide_add_r; [|exact Dv].
      exists (- (N * 13176795 * 2)). lia. }
    specialize (E1 V1).
    set (r1 := ffma binary32 (of_hex binary32 N 0) NegPio2_1_bits a) in *.
    destruct (ffma_index N NegPio2_2_bits false 12303662 (- 48) r1 125 N1
                decode_NegPio2_2 ltac:(lia) ltac:(lia) F1 ltac:(lia))
      as (F2 & E2 & _).
    { rewrite U2, E1. lia. }
    rewrite U2, E1 in E2.
    set (r2 := ffma binary32 (of_hex binary32 N 0) NegPio2_2_bits r1) in *.
    destruct (ffma_index N NegPio2_3_bits false 16198893 (- 73) r2 125 N1
                decode_NegPio2_3 ltac:(lia) ltac:(lia) F2 ltac:(lia))
      as (F3 & E3 & _).
    { rewrite U3. lia. }
    rewrite U3 in E3.
    split; [exact F3|]. split; lia.
Qed.

(** *** The residual as a real number *)

Lemma IZR_pow2 k : 0 <= k -> IZR (2 ^ k) = powerRZ 2 k.
Proof.
  intros Hk. rewrite <- (Z2Nat.id k Hk) at 1 2.
  rewrite <- pow_IZR, <- pow_powerRZ. reflexivity.
Qed.

(** The real value is the count of units of [2^-149]. *)
Lemma real_value_units b :
  real_value binary32 b
  = (IZR (in_units binary32 b) * powerRZ 2 (- 149))%R.
Proof.
  unfold real_value, in_units.
  pose proof (expo_of_range binary32 b) as X.
  destruct (decode_spec binary32 b) as [A1 A2|p A1 A2|p A1 A2|A1 A2|A1 A2];
    change (emin (prec binary32) (emax binary32)) with (- 149);
    try (rewrite Rmult_0_l; reflexivity).
  - change (- 149 - - 149) with 0. change (2 ^ 0) with 1.
    rewrite Z.mul_1_r.
    destruct (sign_of binary32 b); cbn [cond_Zopp];
      rewrite ?opp_IZR; ring.
  - set (e := expo_of binary32 b - 1 + - 149).
    assert (He : 0 <= e - - 149) by (unfold e; lia).
    assert (P : powerRZ 2 e
                = (powerRZ 2 (e - - 149) * powerRZ 2 (- 149))%R).
    { rewrite <- powerRZ_add by lra. f_equal. lia. }
    rewrite P, <- (IZR_pow2 _ He).
    destruct (sign_of binary32 b); cbn [cond_Zopp];
      rewrite ?opp_IZR, mult_IZR; ring.
Qed.

Lemma unit_scale : (powerRZ 2 (- 149) * IZR (2 ^ 149) = 1)%R.
Proof.
  rewrite IZR_pow2 by lia. rewrite <- powerRZ_add by lra.
  reflexivity.
Qed.

(** The residual is finite, within [2^-23] of [|x| - N * pi/2], and below
    0.83 in magnitude. *)
Lemma residual_real a N :
  0 <= a < RangeVal_bits -> 0 <= N ->
  2 * Z.abs (in_units binary32 a * in_units binary32 InvPio2_bits
             - N * 2 ^ 298) < 2 ^ 298 ->
  is_finite binary32
    (ffma binary32 (of_hex binary32 N 0) NegPio2_3_bits
       (ffma binary32 (of_hex binary32 N 0) NegPio2_2_bits
          (ffma binary32 (of_hex binary32 N 0) NegPio2_1_bits a))) = true
  /\ (Rabs (real_value binary32
              (ffma binary32 (of_hex binary32 N 0) NegPio2_3_bits
                 (ffma binary32 (of_hex binary32 N 0) NegPio2_2_bits
                    (ffma binary32 (of_hex binary32 N 0) NegPio2_1_bits a)))
            - (real_value binary32 a - IZR N * (PI / 2)))
      < powerRZ 2 (- 23))%R
  /\ (Rabs (real_value binary32
              (ffma binary32 (of_hex binary32 N 0) NegPio2_3_bits
                 (ffma binary32 (of_hex binary32 N 0) NegPio2_2_bits
                    (ffma binary32 (of_hex binary32 N 0) NegPio2_1_bits a))))
      < 83 / 100)%R.
Proof.
  intros Ha HN Near.
  destruct (residual_units a N Ha HN Near) as (Nb & F & E1 & E2).
  split; [exact F|].
  rewrite !real_value_units.
  set (r := ffma binary32 (of_hex binary32 N 0) NegPio2_3_bits _) in *.
  set (Ru := in_units binary32 r) in *.
  set (A := in_units binary32 a) in *.
  assert (B : 100 * Z.abs Ru < 83 * 2 ^ 149).
  { set (X := A - N * (13176795 * 2 ^ 126 - 12303662 * 2 ^ 101
                       - 16198893 * 2 ^ 76)) in *.
    assert (10680707 * Z.abs X
            <= 2 ^ 172
               + 667544 * 483000215404370189465912069406306146279489536)
      by lia.
    assert (Z.abs X <= 590700000000000000000000000000000000000000000) by lia.
    lia. }
  assert (L1 : - 42535295865117307932921825928971026432
               <= Ru - A + N * 1120957716564506572603704668960558611964100608)
    by lia.
  assert (H1 : Ru - A + N * 1120957716564506572603704668960558611964100608
               <= 42535295865117307932921825928971026432) by lia.
  assert (L2 : - 59230779247297335063918867732154048159883984896
               < 100 * Ru) by lia.
  assert (H2 : 100 * Ru < 59230779247297335063918867732154048159883984896)
    by lia.
  clear B E1 E2.
  apply IZR_le in L1, H1. apply IZR_lt in L2, H2.
  pose proof (IZR_le _ _ HN) as N0. pose proof (IZR_le _ _ Nb) as N1.
  rewrite plus_IZR, minus_IZR, mult_IZR in L1, H1.
  rewrite mult_IZR in L2, H2.
  assert (Hu : (powerRZ 2 (- 149)
                * 713623846352979940529142984724747568191373312 = 1)%R)
    by exact unit_scale.
  set (u := powerRZ 2 (- 149)) in *.
  set (ru := IZR Ru) in *. set (ar := IZR A) in *. set (nr := IZR N) in *.
  assert (Up : (0 < u)%R) by lra.
  pose proof PI_18_digits as [PL PU].
  replace (powerRZ 2 (- 23)) with (/ 8388608)%R
    by (cbn [powerRZ]; change (Pos.to_nat 23) with 23%nat; simpl; lra).
  (* the scaled quantities *)
  assert (S1 : (- 42535295865117307932921825928971026432 * u
                <= ru * u - ar * u
                   + 1120957716564506572603704668960558611964100608
                     * (nr * u))%R).
  { replace (ru * u - ar * u
             + 1120957716564506572603704668960558611964100608 * (nr * u))%R
      with ((ru - ar
             + nr * 1120957716564506572603704668960558611964100608) * u)%R
      by ring.
    apply Rmult_le_compat_r; lra. }
  assert (S2 : (ru * u - ar * u
                + 1120957716564506572603704668960558611964100608 * (nr * u)
                <= 42535295865117307932921825928971026432 * u)%R).
  { replace (ru * u - ar * u
             + 1120957716564506572603704668960558611964100608 * (nr * u))%R
      with ((ru - ar
             + nr * 1120957716564506572603704668960558611964100608) * u)%R
      by ring.
    apply Rmult_le_compat_r; lra. }
  assert (S3 : (- 59230779247297335063918867732154048159883984896 * u
                < 100 * (ru * u)
                < 59230779247297335063918867732154048159883984896 * u)%R).
  { replace (100 * (ru * u))%R with (100 * ru * u)%R by ring.
    split; apply Rmult_lt_compat_r; lra. }
  (* the index times the error of the constant *)
  set (d := (PI / 2 - 1120957716564506572603704668960558611964100608 * u)%R).
  assert (Dd : (- / 1000000000000000000 < d < / 1000000000000000000)%R)
    by (unfold d; lra).
  assert (W : (- (667544 / 1000000000000000000) <= nr * d
               <= 667544 / 1000000000000000000)%R) by nra.
  assert (Sp : (nr * (PI / 2)
                = 1120957716564506572603704668960558611964100608 * (nr * u)
                  + nr * d)%R) by (unfold d; ring).
  rewrite Sp.
  remember (ru * u)%R as rv. remember (ar * u)%R as av.
  remember (nr * u)%R as t. remember (nr * d)%R as w.
  split; apply Rabs_def1; lra.
Qed.

(** C3 (as amended).  On an active lane with magnitude below 2^20 the biased
    sum [q = Shift + |x| * InvPio2], one fused operation, is [Shift + N]
    exactly, [N] the integer nearest to the exact product of [|x|] and the
    binary32 constant [InvPio2] (the product is never half way between two
    integers), and [n = q - Shift] is [N] exactly: the rounding is done by
    the addition of the bias alone.  [Shift] is odd, so the lowest mantissa
    bit of [q] is the complement of [n mod 2].  The residual [r] of the
    three fused multiply-adds with [NegPio2_1], [NegPio2_2], [NegPio2_3] is
    finite, within [2^-23] of [|x| - n * pi/2], and below 0.83 in
    magnitude. *)
Theorem cos_quadrant_reduction unspecified x pg i :
  pg i = true ->
  flt binary32 (fabs binary32 (x i)) RangeVal_bits = true ->
  exists N,
    0 <= N <= 2 ^ 20 /\
    2 * Z.abs (in_units binary32 (fabs binary32 (x i))
               * in_units binary32 InvPio2_bits - N * 2 ^ 298) < 2 ^ 298 /\
    Cosf.q unspecified x pg i = Shift_bits + N /\
    Cosf.n unspecified x pg i = of_hex binary32 N 0 /\
    in_units binary32 (Cosf.n unspecified x pg i) = N * 2 ^ 149 /\
    Z.testbit (Cosf.q unspecified x pg i) 0 = Z.even N /\
    is_finite binary32 (Cosf.r unspecified x pg i) = true /\
    (Rabs (real_value binary32 (Cosf.r unspecified x pg i)
           - (real_value binary32 (fabs binary32 (x i)) - IZR N * (PI / 2)))
     < powerRZ 2 (- 23))%R /\
    (Rabs (real_value binary32 (Cosf.r unspecified x pg i)) < 83 / 100)%R.
Proof.
  intros A B.
  pose proof (below_range_bits _ B) as R.
  destruct (quadrant_of_magnitude (fabs binary32 (x i)) R)
    as (N & HN & Near & Q & S & U).
  assert (Eq : Cosf.q unspecified x pg i = Shift_bits + N)
    by (now rewrite q_of_active).
  assert (En : Cosf.n unspecified x pg i = of_hex binary32 N 0).
  { unfold Cosf.n, svsub_f32_x. rewrite A, Eq. exact S. }
  assert (Er : Cosf.r unspecified x pg i
               = ffma binary32 (of_hex binary32 N 0) NegPio2_3_bits
                   (ffma binary32 (of_hex binary32 N 0) NegPio2_2_bits
                      (ffma binary32 (of_hex binary32 N 0) NegPio2_1_bits
                         (fabs binary32 (x i))))).
  { unfold Cosf.r, Cosf.r2, Cosf.r1, svmla_f32_x. rewrite A, En.
    fold (Cosf.abs_x unspecified x pg). rewrite abs_x_active by assumption.
    reflexivity. }
  destruct (residual_real (fabs binary32 (x i)) N R (proj1 HN) Near)
    as (F & D & M).
  exists N. rewrite Er, En.
  repeat split; try assumption; try lia.
  rewrite Eq, Z.bit0_odd, Z.odd_add, <- Z.negb_odd.
  change (Z.odd Shift_bits) with true. now destruct (Z.odd N).
Qed.

Lemma cos_quadrant_reduction_witness :
  sample_pg 2%nat = true /\
  flt binary32 (fabs binary32 (sample_x 2%nat)) RangeVal_bits = true /\
  exists N,
    Cosf.q sample_unspecified sample_x sample_pg 2%nat = Shift_bits + N /\
    in_units binary32 (Cosf.n sample_unspecified sample_x sample_pg 2%nat)
    = N * 2 ^ 149 /\
    Z.testbit (Cosf.q sample_unspecified sample_x sample_pg 2%nat) 0
    = Z.even N /\
    (Rabs (real_value binary32
             (Cosf.r sample_unspecified sample_x sample_pg 2%nat))
     < 83 / 100)%R.
Proof.
  split; [reflexivity|]. split; [reflexivity|].
  destruct (cos_quadrant_reduction sample_unspecified sample_x sample_pg 2%nat)
    as (N & _ & _ & Q & _ & U & T & _ & _ & M); [reflexivity | reflexivity |].
  exists N. split; [exact Q|]. split; [exact U|]. split; [exact T | exact M].
Defined.

End Cosf_reduction.
